(** * go-p2p: a shallow embedding of [p2p.go] and its specification

    The Go package is a facade over libp2p: it assembles a configuration,
    derives an identity key from the network address, creates the libp2p
    host, the Kademlia DHT and the per-topic pubsub objects, and forwards
    the API calls (Connect, JoinOverlay, Broadcast, Unicast, Neighbors,
    Close) to them.

    Modelling choices.
    - Go [int], [int64] and [time.Duration] are [Z]; [uint64] words carry
      their wrap-around explicitly.  [[]byte] is [list byte].
    - A Go [error] is [option string] ([None] is [nil]); a Go pair
      [(value, error)] is [Res].
    - Go maps are [gmap]s.
    - Every call into libp2p, go-multiaddr, go-cid, the DHT or pubsub goes
      through one primitive, [call], which appends the call and the error
      it reported to the log of the world.  Calls that are functions of
      their arguments (parsers, hashes, key generation from a reader) are
      answered by the [Lib] class; calls that touch the network or the
      peer store are answered by the environment of the world, which may
      depend on everything that happened before.
    - [EnsureIPv4] and [Logger] are defined in another file of the
      package.  [EnsureIPv4], which may resolve a host name, is a call
      answered by the environment.
    - A run-time panic (index out of range, closing a closed channel) is
      the outcome [Panic].
    - The [zap] and [log] logging calls have no effect on the state or on
      the control flow and are left out. *)

From Stdlib Require Import ZArith Lia List.
From stdpp Require Import base option list gmap strings pretty.
From Stdlib Require Import Strings.Byte Strings.Ascii.

Local Open Scope Z_scope.

(** ** Bytes and strings *)

Definition byteZ (b : byte) : Z := Z.of_N (Byte.to_N b).

Definition Zbyte (z : Z) : byte :=
  match Byte.of_N (Z.to_N (z mod 256)) with
  | Some b => b
  | None => x00
  end.

(** [[]byte(s)] *)
Definition bytes_of_string (s : string) : list byte := String.list_byte_of_string s.

(** ** Errors and results *)

Definition error := option string.

Inductive Res (A : Type) : Type :=
| Ok (a : A)
| Err (e : string).
Arguments Ok {A} a.
Arguments Err {A} e.

Definition res_err {A} (r : Res A) : error :=
  match r with
  | Ok _ => None
  | Err e => Some e
  end.

(** ** Configuration (p2p.go, lines 38-117) *)

Module Config.
Record t : Type := mk {
  HostName : string;
  Port : Z;
  ExternalHostName : string;
  ExternalPort : Z;
  SecureIO : bool;
  Gossip : bool;
  ConnectTimeout : Z
}.
End Config.
Definition Config : Type := Config.t.

(** [time.Minute], in nanoseconds. *)
Definition time_Second : Z := 1000000000.
Definition time_Minute : Z := 60 * time_Second.

Definition DefaultConfig : Config :=
  Config.mk "127.0.0.1" 30001 "" 30001 false false time_Minute.

(** [type Option func(cfg *Config) error]: the configuration after the call
    and the error returned. *)
Definition Option : Type := Config -> Config * error.

Definition HostName (hostName : string) : Option := fun cfg =>
  (Config.mk hostName (Config.Port cfg) (Config.ExternalHostName cfg)
     (Config.ExternalPort cfg) (Config.SecureIO cfg) (Config.Gossip cfg)
     (Config.ConnectTimeout cfg), None).

Definition Port (port : Z) : Option := fun cfg =>
  (Config.mk (Config.HostName cfg) port (Config.ExternalHostName cfg)
     (Config.ExternalPort cfg) (Config.SecureIO cfg) (Config.Gossip cfg)
     (Config.ConnectTimeout cfg), None).

Definition ExternalHostName (externalHostName : string) : Option := fun cfg =>
  (Config.mk (Config.HostName cfg) (Config.Port cfg) externalHostName
     (Config.ExternalPort cfg) (Config.SecureIO cfg) (Config.Gossip cfg)
     (Config.ConnectTimeout cfg), None).

Definition ExternalPort (externalPort : Z) : Option := fun cfg =>
  (Config.mk (Config.HostName cfg) (Config.Port cfg) (Config.ExternalHostName cfg)
     externalPort (Config.SecureIO cfg) (Config.Gossip cfg)
     (Config.ConnectTimeout cfg), None).

Definition SecureIO : Option := fun cfg =>
  (Config.mk (Config.HostName cfg) (Config.Port cfg) (Config.ExternalHostName cfg)
     (Config.ExternalPort cfg) true (Config.Gossip cfg)
     (Config.ConnectTimeout cfg), None).

Definition Gossip : Option := fun cfg =>
  (Config.mk (Config.HostName cfg) (Config.Port cfg) (Config.ExternalHostName cfg)
     (Config.ExternalPort cfg) (Config.SecureIO cfg) true
     (Config.ConnectTimeout cfg), None).

(** Lines 112-117: the body assigns [cfg.Gossip = true]; the argument
    [timout] is not used. *)
Definition ConnectTimeout (timout : Z) : Option := fun cfg =>
  (Config.mk (Config.HostName cfg) (Config.Port cfg) (Config.ExternalHostName cfg)
     (Config.ExternalPort cfg) (Config.SecureIO cfg) true
     (Config.ConnectTimeout cfg), None).

(** The loop of [NewHost], lines 136-140: options are applied in order and
    the first error stops construction. *)
Fixpoint apply_options (options : list Option) (cfg : Config) : Res Config :=
  match options with
  | [] => Ok cfg
  | option :: rest =>
      match option cfg with
      | (cfg', None) => apply_options rest cfg'
      | (_, Some e) => Err e
      end
  end.

(** ** SHA-1 ([crypto/sha1], FIPS 180-4) on 32-bit words held in [Z] *)

Module sha1.

Definition w32 (x : Z) : Z := x mod 2 ^ 32.

Definition rotl (n x : Z) : Z :=
  Z.lor (w32 (Z.shiftl x n)) (Z.shiftr x (32 - n)).

Definition not32 (x : Z) : Z := Z.lxor x (2 ^ 32 - 1).

Definition be32 (b0 b1 b2 b3 : byte) : Z :=
  Z.lor (Z.shiftl (byteZ b0) 24)
    (Z.lor (Z.shiftl (byteZ b1) 16)
       (Z.lor (Z.shiftl (byteZ b2) 8) (byteZ b3))).

Definition word_bytes (x : Z) : list byte :=
  [Zbyte (Z.shiftr x 24); Zbyte (Z.shiftr x 16); Zbyte (Z.shiftr x 8); Zbyte x].

Definition len64_bytes (n : Z) : list byte :=
  word_bytes (Z.shiftr n 32) ++ word_bytes (w32 n).

(** The message, the byte 0x80, zeros up to 56 mod 64, the bit length. *)
Definition pad (msg : list byte) : list byte :=
  let n := Z.of_nat (length msg) in
  msg ++ x80 :: repeat x00 (Z.to_nat ((55 - n) mod 64)) ++ len64_bytes (8 * n).

Fixpoint words (fuel : nat) (bs : list byte) : list Z :=
  match fuel, bs with
  | S fuel', b0 :: b1 :: b2 :: b3 :: rest => be32 b0 b1 b2 b3 :: words fuel' rest
  | _, _ => []
  end.

(** Message schedule, most recent word first. *)
Fixpoint expand (n : nat) (w : list Z) : list Z :=
  match n with
  | O => w
  | S n' =>
      let x := Z.lxor (Z.lxor (nth 2 w 0) (nth 7 w 0))
                 (Z.lxor (nth 13 w 0) (nth 15 w 0)) in
      expand n' (rotl 1 x :: w)
  end.

Definition schedule (block : list Z) : list Z := rev (expand 64 (rev block)).

Definition state : Type := Z * Z * Z * Z * Z.

Definition round (t : Z) (s : state) (w : Z) : state :=
  let '(a, b, c, d, e) := s in
  let '(f, k) :=
    if t <? 20 then (Z.lor (Z.land b c) (Z.land (not32 b) d), 0x5A827999)
    else if t <? 40 then (Z.lxor (Z.lxor b c) d, 0x6ED9EBA1)
    else if t <? 60 then
      (Z.lor (Z.lor (Z.land b c) (Z.land b d)) (Z.land c d), 0x8F1BBCDC)
    else (Z.lxor (Z.lxor b c) d, 0xCA62C1D6) in
  (w32 (rotl 5 a + f + e + k + w), a, rotl 30 b, c, d).

Fixpoint rounds (t : Z) (ws : list Z) (s : state) : state :=
  match ws with
  | [] => s
  | w :: ws' => rounds (t + 1) ws' (round t s w)
  end.

Definition block (s : state) (blk : list Z) : state :=
  let '(a, b, c, d, e) := s in
  let '(a', b', c', d', e') := rounds 0 (schedule blk) s in
  (w32 (a + a'), w32 (b + b'), w32 (c + c'), w32 (d + d'), w32 (e + e')).

Fixpoint blocks (fuel : nat) (ws : list Z) (s : state) : state :=
  match fuel with
  | O => s
  | S fuel' =>
      match ws with
      | [] => s
      | _ => blocks fuel' (drop 16 ws) (block s (take 16 ws))
      end
  end.

Definition init : state :=
  (0x67452301, 0xEFCDAB89, 0x98BADCFE, 0x10325476, 0xC3D2E1F0).

(** [sha1.Sum(data)]: the 20-byte digest. *)
Definition Sum (data : list byte) : list byte :=
  let p := pad data in
  let ws := words (length p) p in
  let '(a, b, c, d, e) := blocks (length ws) ws init in
  word_bytes a ++ word_bytes b ++ word_bytes c ++ word_bytes d ++ word_bytes e.

End sha1.

(** ** Go standard library: [encoding/binary], [strconv], [fmt] *)

(** [binary.BigEndian.Uint64(b)]; [None] is the index-out-of-range panic
    of [b[7]] on a slice shorter than eight bytes. *)
Definition BigEndian_Uint64 (b : list byte) : option Z :=
  match b with
  | b0 :: b1 :: b2 :: b3 :: b4 :: b5 :: b6 :: b7 :: _ =>
      Some (Z.lor (Z.lor (Z.lor (Z.lor (Z.lor (Z.lor (Z.lor
              (byteZ b7)
              (Z.shiftl (byteZ b6) 8))
              (Z.shiftl (byteZ b5) 16))
              (Z.shiftl (byteZ b4) 24))
              (Z.shiftl (byteZ b3) 32))
              (Z.shiftl (byteZ b2) 40))
              (Z.shiftl (byteZ b1) 48))
              (Z.shiftl (byteZ b0) 56))
  | _ => None
  end.

(** The conversion [int64(u)] of a [uint64]. *)
Definition int64_of_uint64 (u : Z) : Z :=
  if u <? 2 ^ 63 then u else u - 2 ^ 64.

Definition digit_of (c : Ascii.ascii) : option Z :=
  let n := Z.of_nat (Ascii.nat_of_ascii c) in
  if (48 <=? n) && (n <=? 57) then Some (n - 48) else None.

Fixpoint parse_digits (s : string) (acc : Z) : option Z :=
  match s with
  | EmptyString => Some acc
  | String c rest =>
      match digit_of c with
      | Some d => parse_digits rest (acc * 10 + d)
      | None => None
      end
  end.

(** [strconv.Atoi]: an optional sign and decimal digits.  On a syntax
    error the value is 0; out of the range of [int] the value is the
    nearest bound and the error is a range error. *)
Definition Atoi (s : string) : Z * error :=
  let '(neg, body) :=
    match s with
    | String "+"%char rest => (false, rest)
    | String "-"%char rest => (true, rest)
    | _ => (false, s)
    end in
  match body with
  | EmptyString => (0, Some "strconv.Atoi: invalid syntax")
  | _ =>
      match parse_digits body 0 with
      | None => (0, Some "strconv.Atoi: invalid syntax")
      | Some un =>
          if negb neg && (2 ^ 63 <=? un)
          then (2 ^ 63 - 1, Some "strconv.Atoi: value out of range")
          else if neg && (2 ^ 63 <? un)
          then (- 2 ^ 63, Some "strconv.Atoi: value out of range")
          else (if neg then - un else un, None)
      end
  end.

(** [fmt.Sprintf("%s:%d", host, port)] *)
Definition Sprintf_addr (host : string) (port : Z) : string :=
  host +:+ ":" +:+ pretty port.

(** [fmt.Sprintf("/ip4/%s/tcp/%d", ip, port)] *)
Definition Sprintf_ip4_tcp (ip : string) (port : Z) : string :=
  "/ip4/" +:+ ip +:+ "/tcp/" +:+ pretty port.

(** [fmt.Sprintf("/ipfs/%s", id)] *)
Definition Sprintf_ipfs (id : string) : string := "/ipfs/" +:+ id.

(** ** Values of the external libraries *)

Definition PrivKey : Type := list byte.
Definition PubKey : Type := list byte.
Inductive KeyType : Type := crypto_RSA | crypto_Ed25519 | crypto_Secp256k1.

(** [math/rand]: a source is determined by its seed, a generator by its
    source. *)
Inductive rand_Source : Type := rand_NewSource (seed : Z).
Inductive rand_Rand : Type := rand_New (src : rand_Source).

Definition Multiaddr : Type := list byte.
Definition peer_ID : Type := string.
Record PeerInfo : Type := mkPeerInfo { PeerInfo_ID : peer_ID; Addrs : list Multiaddr }.
Definition Cid : Type := string.
Record Message : Type := mkMessage { Data : list byte }.

(** Handles of objects owned by the libraries. *)
Definition Context : Type := nat.
Definition host_Host : Type := nat.
Definition IpfsDHT : Type := nat.
Definition PubSub : Type := nat.
Definition Subscription : Type := nat.
Definition Stream : Type := nat.

Definition HandleBroadcast : Type := list byte -> error.
Definition HandleUnicast : Type := list byte -> error.

(** The two values the field [newPubSub] can hold. *)
Inductive PubSubCtor : Type := pubsub_NewFloodSub | pubsub_NewGossipSub.

(** The options [NewHost] hands to [libp2p.New]. *)
Inductive libp2p_Option : Type :=
| libp2p_ListenAddrStrings (s : string)
| libp2p_AddrsFactory (f : list Multiaddr -> list Multiaddr)
| libp2p_Identity (sk : PrivKey)
| libp2p_Transport (connectTimeout : Z)
| libp2p_Muxer (name : string)
| libp2p_EnableRelay
| libp2p_NATPortMap
| libp2p_NoSecurity.

(** The functions of the libraries whose result depends on the arguments
    only, and the constants the code takes from them. *)
Class Lib : Type := {
  multiaddr_P_IP4 : Z;
  multiaddr_P_TCP : Z;
  multiaddr_P_IPFS : Z;
  cid_Raw : Z;
  multihash_SHA2_256 : Z;
  peerstore_TempAddrTTL : Z;
  lib_GenerateKeyPairWithReader : KeyType -> Z -> rand_Rand -> Res (PrivKey * PubKey);
  lib_NewMultiaddr : string -> Res Multiaddr;
  lib_ValueForProtocol : Multiaddr -> Z -> Res string;
  lib_InfoFromP2pAddr : Multiaddr -> Res PeerInfo;
  lib_IDB58Decode : string -> Res peer_ID;
  lib_V1Builder_Sum : Z -> Z -> list byte -> Res Cid;
  host_ID : host_Host -> peer_ID;
  Pretty : peer_ID -> string;
  Cid_String : Cid -> string;
  Multiaddr_String : Multiaddr -> string;
  Encapsulate : Multiaddr -> Multiaddr -> Multiaddr
}.

(** ** External calls *)

Inductive Call : Type :=
| EnsureIPv4 (name : string)
| crypto_GenerateKeyPairWithReader (typ : KeyType) (bits : Z) (src : rand_Rand)
| multiaddr_NewMultiaddr (s : string)
| ma_ValueForProtocol (ma : Multiaddr) (code : Z)
| peerstore_InfoFromP2pAddr (ma : Multiaddr)
| peer_IDB58Decode (s : string)
| v1b_Sum (codec mhType : Z) (data : list byte)
| libp2p_New (ctx : Context) (opts : list libp2p_Option)
| dht_New (ctx : Context) (h : host_Host)
| host_Addrs (h : host_Host)
| host_Connect (h : host_Host) (ctx : Context) (target : PeerInfo)
| host_SetStreamHandler (h : host_Host) (pid : string) (callback : HandleUnicast)
| host_NewStream (h : host_Host) (ctx : Context) (p : peer_ID) (pid : string)
| host_Close (h : host_Host)
| peerstore_Addrs (h : host_Host) (p : peer_ID)
| peerstore_AddAddr (h : host_Host) (p : peer_ID) (ma : Multiaddr) (ttl : Z)
| kad_Provide (kad : IpfsDHT) (ctx : Context) (key : Cid) (brdcst : bool)
| kad_Bootstrap (kad : IpfsDHT) (ctx : Context)
| kad_GetClosestPeers (kad : IpfsDHT) (ctx : Context) (key : string)
| kad_FindLocal (kad : IpfsDHT) (p : peer_ID)
| kad_Close (kad : IpfsDHT)
| newPubSub_call (f : PubSubCtor) (ctx : Context) (h : host_Host)
| pub_Subscribe (pub : PubSub) (topic : string)
| pub_Publish (pub : PubSub) (topic : string) (data : list byte)
| sub_Next (sub : Subscription) (ctx : Context)
| sub_Cancel (sub : Subscription)
| stream_Write (s : Stream) (data : list byte)
| stream_Close (s : Stream)
| ioutil_ReadAll (s : Stream).

(** What each call returns.  [kad.GetClosestPeers] returns a channel; the
    response is the sequence of peers the channel delivers before the DHT
    closes it. *)
Definition Resp (c : Call) : Type :=
  match c with
  | EnsureIPv4 _ => Res string
  | crypto_GenerateKeyPairWithReader _ _ _ => Res (PrivKey * PubKey)
  | multiaddr_NewMultiaddr _ => Res Multiaddr
  | ma_ValueForProtocol _ _ => Res string
  | peerstore_InfoFromP2pAddr _ => Res PeerInfo
  | peer_IDB58Decode _ => Res peer_ID
  | v1b_Sum _ _ _ => Res Cid
  | libp2p_New _ _ => Res host_Host
  | dht_New _ _ => Res IpfsDHT
  | host_Addrs _ => list Multiaddr
  | host_Connect _ _ _ => error
  | host_SetStreamHandler _ _ _ => unit
  | host_NewStream _ _ _ _ => Res Stream
  | host_Close _ => error
  | peerstore_Addrs _ _ => list Multiaddr
  | peerstore_AddAddr _ _ _ _ => unit
  | kad_Provide _ _ _ _ => error
  | kad_Bootstrap _ _ => error
  | kad_GetClosestPeers _ _ _ => Res (list peer_ID)
  | kad_FindLocal _ _ => PeerInfo
  | kad_Close _ => error
  | newPubSub_call _ _ _ => Res PubSub
  | pub_Subscribe _ _ => Res Subscription
  | pub_Publish _ _ _ => error
  | sub_Next _ _ => Res Message
  | sub_Cancel _ => unit
  | stream_Write _ _ => Res Z
  | stream_Close _ => error
  | ioutil_ReadAll _ => Res (list byte)
  end.

(** The error a response carries, [None] when the call has no error result
    or succeeded. *)
Definition err_of (c : Call) : Resp c -> error :=
  match c return Resp c -> error with
  | EnsureIPv4 _ => res_err
  | crypto_GenerateKeyPairWithReader _ _ _ => res_err
  | multiaddr_NewMultiaddr _ => res_err
  | ma_ValueForProtocol _ _ => res_err
  | peerstore_InfoFromP2pAddr _ => res_err
  | peer_IDB58Decode _ => res_err
  | v1b_Sum _ _ _ => res_err
  | libp2p_New _ _ => res_err
  | dht_New _ _ => res_err
  | host_Addrs _ => fun _ => None
  | host_Connect _ _ _ => fun e => e
  | host_SetStreamHandler _ _ _ => fun _ => None
  | host_NewStream _ _ _ _ => res_err
  | host_Close _ => fun e => e
  | peerstore_Addrs _ _ => fun _ => None
  | peerstore_AddAddr _ _ _ _ => fun _ => None
  | kad_Provide _ _ _ _ => fun e => e
  | kad_Bootstrap _ _ => fun e => e
  | kad_GetClosestPeers _ _ _ => res_err
  | kad_FindLocal _ _ => fun _ => None
  | kad_Close _ => fun e => e
  | newPubSub_call _ _ _ => res_err
  | pub_Subscribe _ _ => res_err
  | pub_Publish _ _ _ => fun e => e
  | sub_Next _ _ => res_err
  | sub_Cancel _ => fun _ => None
  | stream_Write _ _ => res_err
  | stream_Close _ => fun e => e
  | ioutil_ReadAll _ => res_err
  end.

(** ** The world: log, background tasks, environment *)

Inductive Event : Type :=
| ECall (c : Call) (e : error)
| EHandleUnicast (topic : string) (data : list byte) (e : error)
| EHandleBroadcast (topic : string) (data : list byte) (e : error).

(** The environment answers a call given everything logged so far. *)
Definition Env : Type := list Event -> forall c : Call, Resp c.

(** Where the goroutine started by [AddBroadcastPubSub] stands: at the
    [select], inside [sub.Next], about to run the callback on a message, or
    returned. *)
Inductive PC : Type :=
| AtSelect
| InNext
| InCallback (data : list byte)
| Returned.

Record Task : Type := mkTask {
  task_topic : string;
  task_sub : Subscription;
  task_callback : HandleBroadcast;
  task_pc : PC
}.

Record World : Type := mkWorld {
  log : list Event;
  tasks : list Task;
  env : Env
}.

Inductive Outcome (A : Type) : Type :=
| Ret (a : A)
| Panic (msg : string).
Arguments Ret {A} a.
Arguments Panic {A} msg.

Definition M (A : Type) : Type := World -> Outcome A * World.

Definition ret {A} (a : A) : M A := fun w => (Ret a, w).

Definition bind {A B} (m : M A) (k : A -> M B) : M B := fun w =>
  match m w with
  | (Ret a, w') => k a w'
  | (Panic msg, w') => (Panic msg, w')
  end.

Definition panic {A} (msg : string) : M A := fun w => (Panic msg, w).

Definition emit (ev : Event) : M unit := fun w =>
  (Ret tt, mkWorld (log w ++ [ev]) (tasks w) (env w)).

(** [go func() { ... }()] *)
Definition spawn (t : Task) : M unit := fun w =>
  (Ret tt, mkWorld (log w) (tasks w ++ [t]) (env w)).

Definition set_pc (i : nat) (pc : PC) : M unit := fun w =>
  (Ret tt,
   mkWorld (log w)
     (alter (fun t => mkTask (task_topic t) (task_sub t) (task_callback t) pc) i (tasks w))
     (env w)).

(** How a failure is returned by a function whose result type is [B]. *)
Class Fail (B : Type) : Type := fail : string -> B.
#[global] Instance Fail_error : Fail error := fun e => Some e.
#[global] Instance Fail_Res {A} : Fail (Res A) := fun e => Err e.

Notation "'let*' x ':=' m 'in' k" := (bind m (fun x => k))
  (at level 10, x name, m at level 100, k at level 200).

(** [x, err := m; if err != nil { return err }] *)
Notation "'let?' x ':=' m 'in' k" :=
  (bind m (fun r => match r with Ok x => k | Err e => ret (fail e) end))
  (at level 10, x name, m at level 100, k at level 200).

(** [if err := m; err != nil { return err }] *)
Notation "'check' m 'in' k" :=
  (bind m (fun r => match r with None => k | Some e => ret (fail e) end))
  (at level 10, m at level 100, k at level 200).

(** One call into a library: the response comes from [Lib] when the call
    is a function of its arguments and from the environment otherwise; the
    call and its error are logged. *)
Definition pure_answer `{Lib} (c : Call) : option (Resp c) :=
  match c return option (Resp c) with
  | crypto_GenerateKeyPairWithReader typ bits src =>
      Some (lib_GenerateKeyPairWithReader typ bits src)
  | multiaddr_NewMultiaddr s => Some (lib_NewMultiaddr s)
  | ma_ValueForProtocol ma code => Some (lib_ValueForProtocol ma code)
  | peerstore_InfoFromP2pAddr ma => Some (lib_InfoFromP2pAddr ma)
  | peer_IDB58Decode s => Some (lib_IDB58Decode s)
  | v1b_Sum codec mhType data => Some (lib_V1Builder_Sum codec mhType data)
  | _ => None
  end.

Definition answer `{Lib} (w : World) (c : Call) : Resp c :=
  match pure_answer c with
  | Some r => r
  | None => env w (log w) c
  end.

Definition call `{Lib} (c : Call) : M (Resp c) := fun w =>
  let r := answer w c in
  (Ret r, mkWorld (log w ++ [ECall c (err_of c r)]) (tasks w) (env w)).

(** ** The host (p2p.go, lines 119-131) *)

Module Host.
Record t : Type := mk {
  host : host_Host;
  cfg : Config;
  ctx : Context;
  topics : gmap string unit;
  kad : IpfsDHT;
  kadKey : Cid;
  newPubSub : PubSubCtor;
  pubs : gmap string PubSub;
  subs : gmap string Subscription;
  close : bool
}.
End Host.
Definition Host : Type := Host.t.

Section Program.
Context `{L : Lib}.

(** ** generateKeyPair (lines 417-425) *)

Definition generateKeyPair (addr : string) : M (Res (PrivKey * PubKey)) :=
  let hash := sha1.Sum (bytes_of_string addr) in
  let seedBytes := drop 12 hash in
  let seedBytes := <[0%nat := x00]> seedBytes in
  match BigEndian_Uint64 seedBytes with
  | None => panic "index out of range"
  | Some u =>
      let seed := int64_of_uint64 u in
      let r := rand_New (rand_NewSource seed) in
      call (crypto_GenerateKeyPairWithReader crypto_Ed25519 2048 r)
  end.

(** ** addrToMultiAddr (lines 427-429) *)

Definition addrToMultiAddr (addr : string) : M (Res Multiaddr) :=
  call (multiaddr_NewMultiaddr addr).

(** ** Identity, IdentityHash, Address, MultiAddress (lines 356-372) *)

Definition Identity (h : Host) : string := Pretty (host_ID (Host.host h)).

Definition IdentityHash (h : Host) : string := Cid_String (Host.kadKey h).

Definition Address (h : Host) : string :=
  Sprintf_addr (Config.HostName (Host.cfg h)) (Config.Port (Host.cfg h)).

(** [h.host.Addrs()[0]] panics on an empty list; the error of
    [NewMultiaddr] is dropped, and [Encapsulate] on the nil address it
    leaves dereferences nil. *)
Definition MultiAddress (h : Host) : M string :=
  let* addrs := call (host_Addrs (Host.host h)) in
  match addrs with
  | [] => panic "index out of range"
  | addr :: _ =>
      let* r := call (multiaddr_NewMultiaddr (Sprintf_ipfs (Identity h))) in
      match r with
      | Ok hostAddr => ret (Multiaddr_String (Encapsulate addr hostAddr))
      | Err _ => panic "nil pointer dereference"
      end
  end.

(** ** NewHost (lines 133-230) *)

(** The closure given to [libp2p.AddrsFactory], lines 167-172. *)
Definition addrsFactory (extMultiAddr : option Multiaddr)
    (addrs : list Multiaddr) : list Multiaddr :=
  match extMultiAddr with
  | Some ext => addrs ++ [ext]
  | None => addrs
  end.

(** Lines 149-164: the external address and the key that replaces [sk]. *)
Definition externalIdentity (cfg : Config) (sk : PrivKey)
    : M (Res (PrivKey * option Multiaddr)) :=
  if decide (Config.ExternalHostName cfg = "") then ret (Ok (sk, None))
  else
    let? extIP := call (EnsureIPv4 (Config.ExternalHostName cfg)) in
    let? kp := generateKeyPair (Sprintf_addr extIP (Config.ExternalPort cfg)) in
    let? ext := call (multiaddr_NewMultiaddr
                        (Sprintf_ip4_tcp extIP (Config.ExternalPort cfg))) in
    ret (Ok (kp.1, Some ext)).

(** Lines 165-183. *)
Definition libp2pOptions (cfg : Config) (ip : string) (sk : PrivKey)
    (extMultiAddr : option Multiaddr) : list libp2p_Option :=
  [ libp2p_ListenAddrStrings (Sprintf_ip4_tcp ip (Config.Port cfg));
    libp2p_AddrsFactory (addrsFactory extMultiAddr);
    libp2p_Identity sk;
    libp2p_Transport (Config.ConnectTimeout cfg);
    libp2p_Muxer "/yamux/2.0.0";
    libp2p_EnableRelay;
    libp2p_NATPortMap ]
  ++ (if Config.SecureIO cfg then [] else [libp2p_NoSecurity]).

(** Lines 201-210: the port the host actually listens on replaces a
    configured port 0; the error of [Atoi] is not looked at. *)
Definition actualPort (cfg : Config) (host : host_Host) : M (Res Config) :=
  if decide (Config.Port cfg = 0) then
    let* addrs := call (host_Addrs host) in
    match addrs with
    | [] => panic "index out of range"
    | addr :: _ =>
        let? portStr := call (ma_ValueForProtocol addr multiaddr_P_TCP) in
        let port := (Atoi portStr).1 in
        ret (Ok (Config.mk (Config.HostName cfg) port (Config.ExternalHostName cfg)
                   (Config.ExternalPort cfg) (Config.SecureIO cfg)
                   (Config.Gossip cfg) (Config.ConnectTimeout cfg)))
    end
  else ret (Ok cfg).

Definition NewHost (ctx : Context) (options : list Option) : M (Res Host) :=
  match apply_options options DefaultConfig with
  | Err e => ret (Err e)
  | Ok cfg =>
      let? ip := call (EnsureIPv4 (Config.HostName cfg)) in
      let? kp := generateKeyPair (Sprintf_addr ip (Config.Port cfg)) in
      let? ext := externalIdentity cfg kp.1 in
      let opts := libp2pOptions cfg ip ext.1 ext.2 in
      let? host := call (libp2p_New ctx opts) in
      let? kad := call (dht_New ctx host) in
      let newPubSub :=
        if Config.Gossip cfg then pubsub_NewGossipSub else pubsub_NewFloodSub in
      let? cid := call (v1b_Sum cid_Raw multihash_SHA2_256
                          (bytes_of_string (Pretty (host_ID host)))) in
      let? cfg := actualPort cfg host in
      (* log.Println("address: ", host.Addrs()) *)
      let* _ := call (host_Addrs host) in
      let myHost :=
        Host.mk host cfg ctx ∅ kad cid newPubSub ∅ ∅ false in
      (* the arguments of the start-up log line *)
      let _ := Address myHost in
      let* _ := MultiAddress myHost in
      ret (Ok myHost)
  end.

(** ** Connect (lines 232-249) *)

Definition Connect (h : Host) (addr : string) : M error :=
  let? ma := addrToMultiAddr addr in
  let? target := call (peerstore_InfoFromP2pAddr ma) in
  check call (host_Connect (Host.host h) (Host.ctx h) target) in
  ret None.

(** ** JoinOverlay (lines 251-257) *)

Definition JoinOverlay (h : Host) : M error :=
  let* err := call (kad_Provide (Host.kad h) (Host.ctx h) (Host.kadKey h) true) in
  match err with
  | None => ret None
  | Some _ => call (kad_Bootstrap (Host.kad h) (Host.ctx h))
  end.

(** ** AddUnicastPubSub (lines 259-281) *)

(** The stream handler installed for a topic, lines 264-278: read the
    whole stream, run the callback on the data; the deferred
    [stream.Close()] runs on every path. *)
Definition unicastStreamHandler (topic : string) (callback : HandleUnicast)
    (stream : Stream) : M unit :=
  let* r := call (ioutil_ReadAll stream) in
  let* _ :=
    match r with
    | Err _ => ret tt
    | Ok data => emit (EHandleUnicast topic data (callback data))
    end in
  let* _ := call (stream_Close stream) in
  ret tt.

Definition AddUnicastPubSub (h : Host) (topic : string) (callback : HandleUnicast)
    : M (Host * error) :=
  match Host.topics h !! topic with
  | Some _ => ret (h, None)
  | None =>
      let* _ := call (host_SetStreamHandler (Host.host h) topic callback) in
      ret (Host.mk (Host.host h) (Host.cfg h) (Host.ctx h)
             (<[topic := tt]> (Host.topics h))
             (Host.kad h) (Host.kadKey h) (Host.newPubSub h)
             (Host.pubs h) (Host.subs h) (Host.close h), None)
  end.

(** ** AddBroadcastPubSub (lines 283-317) *)

Definition AddBroadcastPubSub (h : Host) (topic : string) (callback : HandleBroadcast)
    : M (Host * error) :=
  match Host.pubs h !! topic with
  | Some _ => ret (h, None)
  | None =>
      let* r := call (newPubSub_call (Host.newPubSub h) (Host.ctx h) (Host.host h)) in
      match r with
      | Err e => ret (h, Some e)
      | Ok pub =>
          let* r := call (pub_Subscribe pub topic) in
          match r with
          | Err e => ret (h, Some e)
          | Ok sub =>
              let h' :=
                Host.mk (Host.host h) (Host.cfg h) (Host.ctx h) (Host.topics h)
                  (Host.kad h) (Host.kadKey h) (Host.newPubSub h)
                  (<[topic := pub]> (Host.pubs h))
                  (<[topic := sub]> (Host.subs h)) (Host.close h) in
              let* _ := spawn (mkTask topic sub callback AtSelect) in
              ret (h', None)
          end
      end
  end.

(** One step of the goroutine of lines 299-315.  The [select] takes the
    [<-h.close] case exactly when the channel is closed, and the default
    case otherwise; an error of [sub.Next] leads back to the [select]. *)
Definition task_step (h : Host) (i : nat) : M unit := fun w =>
  match tasks w !! i with
  | None => (Ret tt, w)
  | Some t =>
      match task_pc t with
      | AtSelect =>
          if Host.close h then set_pc i Returned w else set_pc i InNext w
      | InNext =>
          (let* r := call (sub_Next (task_sub t) (Host.ctx h)) in
           match r with
           | Err _ => set_pc i AtSelect
           | Ok msg => set_pc i (InCallback (Data msg))
           end) w
      | InCallback data =>
          (let* _ := emit (EHandleBroadcast (task_topic t) data (task_callback t data)) in
           set_pc i AtSelect) w
      | Returned => (Ret tt, w)
      end
  end.

(** ** Broadcast (lines 319-326) *)

Definition Broadcast (h : Host) (topic : string) (data : list byte) : M error :=
  match Host.pubs h !! topic with
  | None => ret None
  | Some pub => call (pub_Publish pub topic data)
  end.

(** ** Unicast (lines 328-354) *)

(** The result is the named value [err]; the deferred closure of line 349
    assigns it after either [return] of lines 350-353 has set it. *)
Definition Unicast (h : Host) (addr topic : string) (data : list byte) : M error :=
  let? ma := addrToMultiAddr addr in
  let? peerIDStr := call (ma_ValueForProtocol ma multiaddr_P_IPFS) in
  let? peerID := call (peer_IDB58Decode peerIDStr) in
  let* addrs := call (peerstore_Addrs (Host.host h) peerID) in
  let* _ :=
    if decide (length addrs = 0%nat)
    then call (peerstore_AddAddr (Host.host h) peerID ma peerstore_TempAddrTTL)
    else ret tt in
  let? stream := call (host_NewStream (Host.host h) (Host.ctx h) peerID topic) in
  let* r := call (stream_Write stream data) in
  let err : error := res_err r in
  let* err := call (stream_Close stream) in
  ret err.

(** ** Neighbors (lines 374-400) *)

(** The inner loop, lines 382-397, over the addresses of one peer. *)
Fixpoint scanAddrs (addrs : list Multiaddr) (neighbors : list string)
    : M (list string) :=
  match addrs with
  | [] => ret neighbors
  | ma :: rest =>
      let* r := call (ma_ValueForProtocol ma multiaddr_P_IP4) in
      match r with
      | Err _ => scanAddrs rest neighbors
      | Ok ip =>
          if decide (ip = "") then scanAddrs rest neighbors
          else
            let* r := call (ma_ValueForProtocol ma multiaddr_P_TCP) in
            match r with
            | Err _ => scanAddrs rest neighbors
            | Ok portStr =>
                match Atoi portStr with
                | (_, Some _) => scanAddrs rest neighbors
                | (port, None) => ret (neighbors ++ [Sprintf_addr ip port])
                end
            end
      end
  end.

(** The outer loop, lines 381-398, over the peers the channel delivers. *)
Fixpoint scanPeers (h : Host) (peers : list peer_ID) (neighbors : list string)
    : M (list string) :=
  match peers with
  | [] => ret neighbors
  | peer :: rest =>
      let* info := call (kad_FindLocal (Host.kad h) peer) in
      let* neighbors := scanAddrs (Addrs info) neighbors in
      scanPeers h rest neighbors
  end.

Definition Neighbors (h : Host) : M (Res (list string)) :=
  let? peers := call (kad_GetClosestPeers (Host.kad h) (Host.ctx h)
                        (Cid_String (Host.kadKey h))) in
  let* neighbors := scanPeers h peers [] in
  ret (Ok neighbors).

(** ** Close (lines 402-415) *)

Fixpoint cancelAll (subs : list (string * Subscription)) : M unit :=
  match subs with
  | [] => ret tt
  | (_, sub) :: rest =>
      let* _ := call (sub_Cancel sub) in
      cancelAll rest
  end.

(** [close(h.close)] panics on a channel that is already closed.  The
    subscriptions are cancelled in the order of [map_to_list]. *)
Definition Close (h : Host) : M (Host * error) :=
  if Host.close h then panic "close of closed channel"
  else
    let h' :=
      Host.mk (Host.host h) (Host.cfg h) (Host.ctx h) (Host.topics h)
        (Host.kad h) (Host.kadKey h) (Host.newPubSub h)
        (Host.pubs h) (Host.subs h) true in
    let* _ := cancelAll (map_to_list (Host.subs h)) in
    let* err := call (kad_Close (Host.kad h)) in
    match err with
    | Some e => ret (h', Some e)
    | None =>
        let* err := call (host_Close (Host.host h)) in
        match err with
        | Some e => ret (h', Some e)
        | None => ret (h', None)
        end
    end.

(** ** The API as a whole, and runs of the program *)

Inductive Op : Type :=
| OpConnect (addr : string)
| OpJoinOverlay
| OpAddUnicastPubSub (topic : string) (callback : HandleUnicast)
| OpAddBroadcastPubSub (topic : string) (callback : HandleBroadcast)
| OpBroadcast (topic : string) (data : list byte)
| OpUnicast (addr topic : string) (data : list byte)
| OpIdentity
| OpIdentityHash
| OpAddress
| OpMultiAddress
| OpNeighbors
| OpClose.

Inductive Value : Type :=
| VError (e : error)
| VString (s : string)
| VNeighbors (r : Res (list string)).

(** The host after the call and what the call returned. *)
Definition exec (op : Op) (h : Host) : M (Host * Value) :=
  match op with
  | OpConnect addr => let* e := Connect h addr in ret (h, VError e)
  | OpJoinOverlay => let* e := JoinOverlay h in ret (h, VError e)
  | OpAddUnicastPubSub topic callback =>
      let* r := AddUnicastPubSub h topic callback in ret (r.1, VError r.2)
  | OpAddBroadcastPubSub topic callback =>
      let* r := AddBroadcastPubSub h topic callback in ret (r.1, VError r.2)
  | OpBroadcast topic data => let* e := Broadcast h topic data in ret (h, VError e)
  | OpUnicast addr topic data =>
      let* e := Unicast h addr topic data in ret (h, VError e)
  | OpIdentity => ret (h, VString (Identity h))
  | OpIdentityHash => ret (h, VString (IdentityHash h))
  | OpAddress => ret (h, VString (Address h))
  | OpMultiAddress => let* s := MultiAddress h in ret (h, VString s)
  | OpNeighbors => let* r := Neighbors h in ret (h, VNeighbors r)
  | OpClose => let* r := Close h in ret (r.1, VError r.2)
  end.

(** The handler libp2p runs for an inbound stream of protocol [pid]: the
    one of the last [SetStreamHandler] call for [pid] in the log. *)
Fixpoint installedHandler (lg : list Event) (pid : string) : option HandleUnicast :=
  match lg with
  | [] => None
  | ev :: rest =>
      match installedHandler rest pid with
      | Some cb => Some cb
      | None =>
          match ev with
          | ECall (host_SetStreamHandler _ pid' cb) _ =>
              if decide (pid' = pid) then Some cb else None
          | _ => None
          end
      end
  end.

(** What can happen next: the application calls the API, a background
    task takes a step, or an inbound stream is handled. *)
Inductive Action : Type :=
| ACall (op : Op)
| ATask (i : nat)
| AStream (pid : string) (stream : Stream).

Record Sys : Type := mkSys {
  sys_host : Host;
  sys_world : World;
  sys_crashed : bool
}.

(** A panic ends the process: nothing runs after it. *)
Definition step (a : Action) (s : Sys) : Sys :=
  if sys_crashed s then s
  else
    let h := sys_host s in
    let w := sys_world s in
    match a with
    | ACall op =>
        match exec op h w with
        | (Ret (h', _), w') => mkSys h' w' false
        | (Panic _, w') => mkSys h w' true
        end
    | ATask i =>
        match task_step h i w with
        | (Ret _, w') => mkSys h w' false
        | (Panic _, w') => mkSys h w' true
        end
    | AStream pid stream =>
        match installedHandler (log w) pid with
        | None => s
        | Some cb =>
            match unicastStreamHandler pid cb stream w with
            | (Ret _, w') => mkSys h w' false
            | (Panic _, w') => mkSys h w' true
            end
        end
    end.

Fixpoint run (sched : list Action) (s : Sys) : Sys :=
  match sched with
  | [] => s
  | a :: rest => run rest (step a s)
  end.

End Program.

(** ** A reference library and environment

    An instance of [Lib] and an environment in which every call succeeds,
    used to run the program on concrete inputs.  A multiaddress is held as
    the bytes of its text. *)

Module Reference.

Fixpoint split_slash (s : string) (cur : string) : list string :=
  match s with
  | EmptyString => [cur]
  | String c rest =>
      if decide (c = "/"%char) then cur :: split_slash rest ""
      else split_slash rest (cur +:+ String c "")
  end.

Fixpoint component (name : string) (parts : list string) : Res string :=
  match parts with
  | n :: v :: rest => if decide (n = name) then Ok v else component name rest
  | _ => Err "protocol not found in multiaddr"
  end.

Definition protocol_name (code : Z) : string :=
  if code =? 4 then "ip4" else if code =? 6 then "tcp"
  else if code =? 421 then "ipfs" else "?".

Definition NewMultiaddr (s : string) : Res Multiaddr :=
  match s with
  | String "/" _ => Ok (bytes_of_string s)
  | _ => Err "invalid multiaddr, must begin with /"
  end.

Definition ValueForProtocol (ma : Multiaddr) (code : Z) : Res string :=
  match split_slash (String.string_of_list_byte ma) "" with
  | _ :: parts => component (protocol_name code) parts
  | [] => Err "protocol not found in multiaddr"
  end.

Definition InfoFromP2pAddr (ma : Multiaddr) : Res PeerInfo :=
  match ValueForProtocol ma 421 with
  | Ok id => Ok (mkPeerInfo id [ma])
  | Err e => Err e
  end.

Definition GenerateKeyPairWithReader (typ : KeyType) (bits : Z) (r : rand_Rand)
    : Res (PrivKey * PubKey) :=
  match r with
  | rand_New (rand_NewSource seed) =>
      Ok (sha1.len64_bytes seed, sha1.len64_bytes (seed + 1))
  end.

#[global] Instance lib : Lib := {|
  multiaddr_P_IP4 := 4;
  multiaddr_P_TCP := 6;
  multiaddr_P_IPFS := 421;
  cid_Raw := 0x55;
  multihash_SHA2_256 := 0x12;
  peerstore_TempAddrTTL := 10 * time_Second;
  lib_GenerateKeyPairWithReader := GenerateKeyPairWithReader;
  lib_NewMultiaddr := NewMultiaddr;
  lib_ValueForProtocol := ValueForProtocol;
  lib_InfoFromP2pAddr := InfoFromP2pAddr;
  lib_IDB58Decode := fun s => if decide (s = "") then Err "empty peer id" else Ok s;
  lib_V1Builder_Sum := fun _ _ data => Ok ("b" +:+ String.string_of_list_byte data);
  host_ID := fun h => "Qm" +:+ pretty h;
  Pretty := fun id => id;
  Cid_String := fun c => c;
  Multiaddr_String := String.string_of_list_byte;
  Encapsulate := fun a b => a ++ b
|}.

(** Every call succeeds. *)
Definition env_ok : Env := fun _ c =>
  match c return Resp c with
  | EnsureIPv4 name => Ok name
  | crypto_GenerateKeyPairWithReader typ bits r => GenerateKeyPairWithReader typ bits r
  | multiaddr_NewMultiaddr s => NewMultiaddr s
  | ma_ValueForProtocol ma code => ValueForProtocol ma code
  | peerstore_InfoFromP2pAddr ma => InfoFromP2pAddr ma
  | peer_IDB58Decode s => Ok s
  | v1b_Sum _ _ data => Ok ("b" +:+ String.string_of_list_byte data)
  | libp2p_New _ _ => Ok 1%nat
  | dht_New _ _ => Ok 2%nat
  | host_Addrs _ => [bytes_of_string "/ip4/127.0.0.1/tcp/30001"]
  | host_Connect _ _ _ => None
  | host_SetStreamHandler _ _ _ => tt
  | host_NewStream _ _ _ _ => Ok 5%nat
  | host_Close _ => None
  | peerstore_Addrs _ _ => []
  | peerstore_AddAddr _ _ _ _ => tt
  | kad_Provide _ _ _ _ => None
  | kad_Bootstrap _ _ => None
  | kad_GetClosestPeers _ _ _ => Ok ["QmA"; "QmB"; "QmC"]
  | kad_FindLocal _ p =>
      if decide (p = "QmA") then
        mkPeerInfo p [bytes_of_string "/ip6/::1/tcp/4001";
                      bytes_of_string "/ip4/10.0.0.1/tcp/4001";
                      bytes_of_string "/ip4/10.0.0.2/tcp/4002"]
      else if decide (p = "QmB") then mkPeerInfo p []
      else mkPeerInfo p [bytes_of_string "/ip4/10.0.0.3/tcp/4003"]
  | kad_Close _ => None
  | newPubSub_call _ _ _ => Ok 3%nat
  | pub_Subscribe _ _ => Ok 4%nat
  | pub_Publish _ _ _ => None
  | sub_Next _ _ => Ok (mkMessage [x01; x02])
  | sub_Cancel _ => tt
  | stream_Write _ data => Ok (Z.of_nat (length data))
  | stream_Close _ => None
  | ioutil_ReadAll _ => Ok [x03]
  end.

(** The response [r] with its error replaced by [e], for the calls that
    have an error result. *)
Definition with_error (e : string) (c : Call) : Resp c -> Resp c :=
  match c return Resp c -> Resp c with
  | EnsureIPv4 _ => fun _ => Err e
  | libp2p_New _ _ => fun _ => Err e
  | dht_New _ _ => fun _ => Err e
  | host_Connect _ _ _ => fun _ => Some e
  | host_NewStream _ _ _ _ => fun _ => Err e
  | host_Close _ => fun _ => Some e
  | kad_Provide _ _ _ _ => fun _ => Some e
  | kad_Bootstrap _ _ => fun _ => Some e
  | kad_GetClosestPeers _ _ _ => fun _ => Err e
  | kad_Close _ => fun _ => Some e
  | newPubSub_call _ _ _ => fun _ => Err e
  | pub_Subscribe _ _ => fun _ => Err e
  | pub_Publish _ _ _ => fun _ => Some e
  | sub_Next _ _ => fun _ => Err e
  | stream_Write _ _ => fun _ => Err e
  | stream_Close _ => fun _ => Some e
  | ioutil_ReadAll _ => fun _ => Err e
  | _ => fun r => r
  end.

(** The environment [base], except that the calls selected by [p] fail
    with [e]. *)
Definition failing (p : Call -> bool) (e : string) (base : Env) : Env :=
  fun lg c => if p c then with_error e c (base lg c) else base lg c.


Definition is_Write (c : Call) : bool :=
  match c with stream_Write _ _ => true | _ => false end.

Definition world (e : Env) : World := mkWorld [] [] e.

(** The host [NewHost] returns under [env_ok] with the default
    configuration. *)
Definition host0 : Host :=
  Host.mk 1%nat DefaultConfig 0%nat ∅ 2%nat
    "bQm1" pubsub_NewFloodSub ∅ ∅ false.

Definition is_Connect (c : Call) : bool :=
  match c with host_Connect _ _ _ => true | _ => false end.

Definition cb_ok : list byte -> error := fun _ => None.

Definition sys0 (e : Env) : Sys := mkSys host0 (world e) false.

(** A topic is registered, its task enters [sub.Next] and receives a
    message, and then the application calls [Close]. *)
Definition close_during_delivery : list Action :=
  [ACall (OpAddBroadcastPubSub "blocks" cb_ok); ATask 0; ATask 0; ACall OpClose].

(** A host on which "blocks" is registered for unicast and broadcast. *)
Definition host1 : Host :=
  Host.mk 1%nat DefaultConfig 0%nat {["blocks" := tt]} 2%nat
    "bQm1" pubsub_NewFloodSub {["blocks" := 3%nat]} {["blocks" := 4%nat]} false.

End Reference.

(** ** Specification-side definitions *)

(** A byte string read as a big-endian number. *)
Definition be_value (bs : list byte) : Z :=
  fold_left (fun acc b => acc * 256 + byteZ b) bs 0.

(** The seed as the specification words it: bytes 12..19 of the SHA-1
    hash of the address, the first of them zeroed, read as a big-endian
    64-bit integer. *)
Definition seed_of_address (addr : string) : Z :=
  let hash := sha1.Sum (bytes_of_string addr) in
  be_value (x00 :: take 7 (drop 13 hash)).

(** Whether an action is a call of [AddBroadcastPubSub] on topic [t]. *)
Definition registers (t : string) (a : Action) : bool :=
  match a with
  | ACall (OpAddBroadcastPubSub t' _) => bool_decide (t' = t)
  | _ => false
  end.

(** Whether the step [a] from [s] is a call of [AddBroadcastPubSub] on
    topic [t] that returns nil. *)
Definition registers_ok `{Lib} (t : string) (a : Action) (s : Sys) : bool :=
  match a with
  | ACall (OpAddBroadcastPubSub t' cb) =>
      bool_decide (t' = t) && negb (sys_crashed s)
      && match (AddBroadcastPubSub (sys_host s) t' cb (sys_world s)).1 with
         | Ret (_, None) => true
         | _ => false
         end
  | _ => false
  end.

(** Whether some call of [AddBroadcastPubSub] on [t] returns nil along
    the run of [sched] from [s]: whether [t] gets registered. *)
Fixpoint registered_along `{Lib} (t : string) (sched : list Action) (s : Sys)
    : bool :=
  match sched with
  | [] => false
  | a :: rest => registers_ok t a s || registered_along t rest (step a s)
  end.

(** The entry an address yields, as the specification words it: the
    address carries a non-empty IPv4 component [ip] and a TCP component
    that parses as the integer [port], and the entry is "ip:port". *)
Definition spec_addrEntry `{Lib} (ma : Multiaddr) : option string :=
  match lib_ValueForProtocol ma multiaddr_P_IP4,
        lib_ValueForProtocol ma multiaddr_P_TCP with
  | Ok ip, Ok portStr =>
      if decide (ip = "") then None
      else match Atoi portStr with
           | (port, None) => Some (Sprintf_addr ip port)
           | (_, Some _) => None
           end
  | _, _ => None
  end.

(** The entry of a peer: that of the first of its addresses that yields
    one. *)
Definition spec_peerEntry `{Lib} (addrs : list Multiaddr) : option string :=
  head (omap spec_addrEntry addrs).

(** [info] is what the DHT knows locally about [peer] at some moment of
    the run that leads from [w0] to [wEnd]: the answer of the environment
    of the run to [FindLocal], given a log between that of [w0] and that of
    [wEnd]. *)
Definition locally_known `{Lib} (h : Host) (w0 wEnd : World)
    (peer : peer_ID) (info : PeerInfo) : Prop :=
  exists w,
    env w = env w0
    /\ log w0 `prefix_of` log w
    /\ log w `prefix_of` log wEnd
    /\ info = answer w (kad_FindLocal (Host.kad h) peer).

(** The events a run from [w] to [w'] added to the log. *)
Definition new_events (w w' : World) : list Event :=
  drop (length (log w)) (log w').

(** Single-level pass-through of errors, for the calls not selected by
    [skip]: a library call that reports an error is the last call the
    operation makes, and the operation returns that error. *)
Definition passes_through_but (skip : Call -> bool) (evs : list Event)
    (result : error) : Prop :=
  forall i c e,
    evs !! i = Some (ECall c (Some e)) -> skip c = false ->
    S i = length evs /\ result = Some e.

Definition passes_through : list Event -> error -> Prop :=
  passes_through_but (fun _ => false).

(** No error of its own: an error the operation returns is the error
    reported by the last library call it made. *)
Definition from_last_call (evs : list Event) (result : error) : Prop :=
  forall e, result = Some e -> exists c, last evs = Some (ECall c (Some e)).




(** The calls on a stream once it has been created. *)
Definition is_stream_use (c : Call) : bool :=
  match c with stream_Write _ _ | stream_Close _ => true | _ => false end.

(** No error of its own: an error the operation returns was reported by
    a library call it made. *)
Definition from_a_call (evs : list Event) (result : error) : Prop :=
  forall e, result = Some e -> exists c, ECall c (Some e) ∈ evs.

(** An event that is not an unskipped failing call. *)
Definition quiet (skip : Call -> bool) (ev : Event) : Prop :=
  match ev with
  | ECall c (Some _) => skip c = true
  | _ => True
  end.

(** A task that is inside [sub.Next] or holds a message it has not yet
    passed to the callback. *)
Definition is_pending (pc : PC) : bool :=
  match pc with
  | InNext | InCallback _ => true
  | AtSelect | Returned => false
  end.

Definition contribution (t : string) (task : Task) : nat :=
  if bool_decide (task_topic task = t) && is_pending (task_pc task) then 1 else 0.

(** The number of such tasks among those of topic [t]. *)
Fixpoint pending (t : string) (ts : list Task) : nat :=
  match ts with
  | [] => 0%nat
  | task :: rest => (contribution t task + pending t rest)%nat
  end.

(** The number of invocations of the broadcast callback of topic [t]. *)
Fixpoint broadcast_callbacks (t : string) (evs : list Event) : nat :=
  match evs with
  | [] => 0%nat
  | EHandleBroadcast t' _ _ :: rest =>
      ((if bool_decide (t' = t) then 1 else 0) + broadcast_callbacks t rest)%nat
  | _ :: rest => broadcast_callbacks t rest
  end.

(** The number of steps task [i] is given in a schedule. *)
Fixpoint task_steps (i : nat) (sched : list Action) : nat :=
  match sched with
  | [] => 0%nat
  | ATask j :: rest => ((if bool_decide (j = i) then 1 else 0) + task_steps i rest)%nat
  | _ :: rest => task_steps i rest
  end.

(** The steps a task still takes before it returns once the close channel
    is closed, at most. *)
Definition distance (pc : PC) : nat :=
  match pc with
  | Returned => 0
  | AtSelect => 1
  | InCallback _ => 2
  | InNext => 3
  end.

Definition pc_of (i : nat) (w : World) : option PC := task_pc <$> tasks w !! i.

Definition not_broadcast (ev : Event) : Prop :=
  match ev with
  | EHandleBroadcast _ _ _ => False
  | _ => True
  end.

(** [w'] is [w] with events other than broadcast callbacks added to the
    log and tasks standing at the [select] added to the tasks. *)
Definition extends (w w' : World) : Prop :=
  exists evs new,
    w' = mkWorld (log w ++ evs) (tasks w ++ new) (env w)
    /\ Forall not_broadcast evs
    /\ Forall (fun task => task_pc task = AtSelect) new.

(** The budget of callbacks: a step of the system in which the close
    channel is closed adds events to the log, and every broadcast callback
    it runs for topic [t] uses up one pending task of that topic. *)
Definition within_budget (t : string) (w w' : World) : Prop :=
  exists evs,
    log w' = log w ++ evs
    /\ (broadcast_callbacks t evs + pending t (tasks w') <= pending t (tasks w))%nat.

(** [w'] is [w] with events other than broadcast callbacks added to the
    log. *)
Definition log_only (w w' : World) : Prop :=
  exists evs,
    w' = mkWorld (log w ++ evs) (tasks w) (env w) /\ Forall not_broadcast evs.

(** A computation all of whose runs, returning or panicking, relate the
    world before to the world after by [R]. *)
Definition respects (R : World -> World -> Prop) {A} (m : M A) : Prop :=
  forall w, R w (m w).2.

(** The relations on worlds that hold along library calls. *)
Class WorldRel (R : World -> World -> Prop) : Prop := {
  wr_refl : forall w, R w w;
  wr_trans : forall w1 w2 w3, R w1 w2 -> R w2 w3 -> R w1 w3;
  wr_log : forall w evs,
    Forall not_broadcast evs -> R w (mkWorld (log w ++ evs) (tasks w) (env w))
}.

(** The tasks have distinct topics, each with a publisher in the host. *)
Definition topics_registered (s : Sys) : Prop :=
  NoDup (map task_topic (tasks (sys_world s)))
  /\ Forall (fun t => is_Some (Host.pubs (sys_host s) !! t))
       (map task_topic (tasks (sys_world s))).

(** [h'] is [h] except possibly for the topic maps, which can only have
    grown, and the close channel, which can only have been closed. *)
Definition frame (h h' : Host) : Prop :=
  Host.host h' = Host.host h
  /\ Host.cfg h' = Host.cfg h
  /\ Host.ctx h' = Host.ctx h
  /\ Host.kad h' = Host.kad h
  /\ Host.kadKey h' = Host.kadKey h
  /\ Host.newPubSub h' = Host.newPubSub h
  /\ (Host.close h = true -> Host.close h' = true)
  /\ (forall t, is_Some (Host.pubs h !! t) -> is_Some (Host.pubs h' !! t)).

(** ** Footprints *)

(** A computation every run of which, returning or panicking, appends to
    the log only events that satisfy [P], and leaves the environment as it
    is. *)
Definition logs (P : Event -> Prop) {A} (m : M A) : Prop :=
  forall w, exists evs,
    log (m w).2 = log w ++ evs /\ env (m w).2 = env w /\ Forall P evs.

(** The library calls an operation of the API can make. *)
Definition may_call (op : Op) (c : Call) : bool :=
  match op, c with
  | OpConnect addr, multiaddr_NewMultiaddr s => bool_decide (s = addr)
  | OpConnect _, peerstore_InfoFromP2pAddr _ => true
  | OpConnect _, host_Connect _ _ _ => true
  | OpJoinOverlay, kad_Provide _ _ _ _ => true
  | OpJoinOverlay, kad_Bootstrap _ _ => true
  | OpAddUnicastPubSub t _, host_SetStreamHandler _ pid _ => bool_decide (pid = t)
  | OpAddBroadcastPubSub _ _, newPubSub_call _ _ _ => true
  | OpAddBroadcastPubSub t _, pub_Subscribe _ t' => bool_decide (t' = t)
  | OpBroadcast t _, pub_Publish _ t' _ => bool_decide (t' = t)
  | OpUnicast addr _ _, multiaddr_NewMultiaddr s => bool_decide (s = addr)
  | OpUnicast _ _ _, ma_ValueForProtocol _ _ => true
  | OpUnicast _ _ _, peer_IDB58Decode _ => true
  | OpUnicast _ _ _, peerstore_Addrs _ _ => true
  | OpUnicast _ _ _, peerstore_AddAddr _ _ _ _ => true
  | OpUnicast _ t _, host_NewStream _ _ _ pid => bool_decide (pid = t)
  | OpUnicast _ _ _, stream_Write _ _ => true
  | OpUnicast _ _ _, stream_Close _ => true
  | OpMultiAddress, host_Addrs _ => true
  | OpMultiAddress, multiaddr_NewMultiaddr _ => true
  | OpNeighbors, kad_GetClosestPeers _ _ _ => true
  | OpNeighbors, kad_FindLocal _ _ => true
  | OpNeighbors, ma_ValueForProtocol _ _ => true
  | OpClose, sub_Cancel _ => true
  | OpClose, kad_Close _ => true
  | OpClose, host_Close _ => true
  | _, _ => false
  end.

(** The events a step of the system can add to the log: an operation
    makes its own library calls; a task calls [sub.Next] and runs the
    broadcast callback; the handler of an inbound stream reads and closes
    that stream and runs the unicast callback of its protocol. *)
Definition step_event (a : Action) (ev : Event) : Prop :=
  match a, ev with
  | ACall op, ECall c _ => may_call op c = true
  | ATask _, ECall (sub_Next _ _) _ => True
  | ATask _, EHandleBroadcast _ _ _ => True
  | AStream _ s, ECall (ioutil_ReadAll s') _ => s' = s
  | AStream _ s, ECall (stream_Close s') _ => s' = s
  | AStream pid _, EHandleUnicast t _ _ => t = pid
  | _, _ => False
  end.

(** The library calls [NewHost] can make. *)
Definition NewHost_may_call (c : Call) : bool :=
  match c with
  | EnsureIPv4 _ | crypto_GenerateKeyPairWithReader _ _ _
  | multiaddr_NewMultiaddr _ | libp2p_New _ _ | dht_New _ _ | v1b_Sum _ _ _
  | host_Addrs _ | ma_ValueForProtocol _ _ => true
  | _ => false
  end.

Definition call_event (f : Call -> bool) (ev : Event) : Prop :=
  match ev with
  | ECall c _ => f c = true
  | _ => False
  end.

(** ** Runs without a swallowed error *)

Definition error_free (ev : Event) : Prop :=
  match ev with
  | ECall _ (Some _) => False
  | _ => True
  end.

(** The run from [w] to [w'] only added library calls to the log; with
    [e] nil none of them failed, and with [e] an error exactly the last one
    failed, with that error. *)
Definition clean_run (w w' : World) (e : error) : Prop :=
  exists evs,
    w' = mkWorld (log w ++ evs) (tasks w) (env w)
    /\ Forall not_broadcast evs
    /\ match e with
       | None => Forall error_free evs
       | Some err =>
           exists pre c, evs = pre ++ [ECall c (Some err)] /\ Forall error_free pre
       end.

(** The seven option constructors of the package. *)
Inductive builtin : Option -> Prop :=
| builtin_HostName s : builtin (HostName s)
| builtin_Port n : builtin (Port n)
| builtin_ExternalHostName s : builtin (ExternalHostName s)
| builtin_ExternalPort n : builtin (ExternalPort n)
| builtin_SecureIO : builtin SecureIO
| builtin_Gossip : builtin Gossip
| builtin_ConnectTimeout d : builtin (ConnectTimeout d).

(** [cfg] with its port replaced. *)
Definition with_Port (cfg : Config) (port : Z) : Config :=
  Config.mk (Config.HostName cfg) port (Config.ExternalHostName cfg)
    (Config.ExternalPort cfg) (Config.SecureIO cfg) (Config.Gossip cfg)
    (Config.ConnectTimeout cfg).

(** ** Further runs on the reference library *)

Module Scenario.

Definition is_dht_New (c : Call) : bool :=
  match c with dht_New _ _ => true | _ => false end.

Definition is_kad_Close (c : Call) : bool :=
  match c with kad_Close _ => true | _ => false end.

Definition is_Subscribe (c : Call) : bool :=
  match c with pub_Subscribe _ _ => true | _ => false end.

Definition is_Next (c : Call) : bool :=
  match c with sub_Next _ _ => true | _ => false end.

Definition is_Subscribe_tx (c : Call) : bool :=
  match c with pub_Subscribe _ t => bool_decide (t = "tx") | _ => false end.

(** The host [NewHost] returns under [Reference.env_ok] for the options
    [ExternalHostName "1.2.3.4"; SecureIO]. *)
Definition host_external : Host :=
  Host.mk 1%nat
    (Config.mk "127.0.0.1" 30001 "1.2.3.4" 30001 true false time_Minute)
    0%nat ∅ 2%nat "bQm1" pubsub_NewFloodSub ∅ ∅ false.

(** The host [NewHost] returns under [Reference.env_ok] for the option
    [Port 0]. *)
Definition host_port0 : Host :=
  Host.mk 1%nat
    (Config.mk "127.0.0.1" 30001 "" 30001 false false time_Minute)
    0%nat ∅ 2%nat "bQm1" pubsub_NewFloodSub ∅ ∅ false.

Definition cb_reject : list byte -> error := fun _ => Some "rejected".

(** The host [NewHost] returns under [Reference.env_ok] for the option
    [ConnectTimeout (5 * time_Second)]. *)
Definition host_timeout : Host :=
  Host.mk 1%nat
    (Config.mk "127.0.0.1" 30001 "" 30001 false true time_Minute)
    0%nat ∅ 2%nat "bQm1" pubsub_NewGossipSub ∅ ∅ false.

(** A host with two broadcast topics. *)
Definition host_two_topics : Host :=
  Host.mk 1%nat DefaultConfig 0%nat ∅ 2%nat "bQm1" pubsub_NewFloodSub
    (<["blocks" := 3%nat]> (<["tx" := 3%nat]> ∅))
    (<["blocks" := 4%nat]> (<["tx" := 7%nat]> ∅)) false.


End Scenario.

(** The host after [close(h.close)]. *)
Definition closed (h : Host) : Host :=
  Host.mk (Host.host h) (Host.cfg h) (Host.ctx h) (Host.topics h)
    (Host.kad h) (Host.kadKey h) (Host.newPubSub h)
    (Host.pubs h) (Host.subs h) true.

(** The calls [Close] makes to cancel the subscriptions. *)
Definition cancels (h : Host) : list Event :=
  map (fun p : string * Subscription => ECall (sub_Cancel p.2) None)
    (map_to_list (Host.subs h)).


(** ** Streams *)

(** An event in which a stream is opened, written to or closed. *)
Definition uses_stream (ev : Event) : Prop :=
  match ev with
  | ECall (host_NewStream _ _ _ _) None => True
  | ECall (stream_Write _ _) _ => True
  | ECall (stream_Close _) _ => True
  | _ => False
  end.


(** ** Transitions of the system *)

Definition set_task_pc (pc : PC) (t : Task) : Task :=
  mkTask (task_topic t) (task_sub t) (task_callback t) pc.

(** One step of a background task: where it goes and what it logs, given
    what [sub.Next] answers at that moment.  The task returns only at the
    [select], and only when the close channel is closed; the message it
    holds after [sub.Next] is the one [sub.Next] returned, and the callback
    is run on the message held, under the topic of the task. *)
Inductive task_move (closed : bool) (ctx : Context) (next : Res Message)
    (task : Task) : PC -> list Event -> Prop :=
| move_return :
    closed = true -> task_pc task = AtSelect ->
    task_move closed ctx next task Returned []
| move_enter :
    closed = false -> task_pc task = AtSelect ->
    task_move closed ctx next task InNext []
| move_retry e :
    task_pc task = InNext -> next = Err e ->
    task_move closed ctx next task AtSelect
      [ECall (sub_Next (task_sub task) ctx) (Some e)]
| move_receive msg :
    task_pc task = InNext -> next = Ok msg ->
    task_move closed ctx next task (InCallback (Data msg))
      [ECall (sub_Next (task_sub task) ctx) None]
| move_deliver data :
    task_pc task = InCallback data ->
    task_move closed ctx next task AtSelect
      [EHandleBroadcast (task_topic task) data (task_callback task data)].

(** The events of an operation or of a stream handler: no [sub.Next], no
    broadcast callback, and a stream handler is installed only for a topic
    that is not registered. *)
Definition op_event (h : Host) (ev : Event) : Prop :=
  match ev with
  | ECall (sub_Next _ _) _ => False
  | EHandleBroadcast _ _ _ => False
  | ECall (host_SetStreamHandler _ pid _) _ => Host.topics h !! pid = None
  | _ => True
  end.

(** What a step does when the process is still running after it: an
    operation or a stream handler logs its events and may register a
    unicast topic or close the channel; a successful
    [AddBroadcastPubSub] on a new topic stores the publisher and the
    subscription and starts a task; a task moves. *)
Inductive transition (s s' : Sys) : Prop :=
| tr_quiet evs :
    log (sys_world s') = log (sys_world s) ++ evs ->
    tasks (sys_world s') = tasks (sys_world s) ->
    Host.pubs (sys_host s') = Host.pubs (sys_host s) ->
    Host.subs (sys_host s') = Host.subs (sys_host s) ->
    (forall t, is_Some (Host.topics (sys_host s) !! t) ->
               is_Some (Host.topics (sys_host s') !! t)) ->
    (Host.close (sys_host s) = true -> Host.close (sys_host s') = true) ->
    Forall (op_event (sys_host s)) evs ->
    env (sys_world s') = env (sys_world s) ->
    transition s s'
| tr_register t cb pub sub evs :
    Host.pubs (sys_host s) !! t = None ->
    Host.pubs (sys_host s') = <[t := pub]> (Host.pubs (sys_host s)) ->
    Host.subs (sys_host s') = <[t := sub]> (Host.subs (sys_host s)) ->
    Host.topics (sys_host s') = Host.topics (sys_host s) ->
    Host.close (sys_host s') = Host.close (sys_host s) ->
    tasks (sys_world s') = tasks (sys_world s) ++ [mkTask t sub cb AtSelect] ->
    log (sys_world s') = log (sys_world s) ++ evs ->
    Forall (op_event (sys_host s)) evs ->
    env (sys_world s') = env (sys_world s) ->
    transition s s'
| tr_task i task pc evs :
    sys_host s' = sys_host s ->
    tasks (sys_world s) !! i = Some task ->
    task_move (Host.close (sys_host s)) (Host.ctx (sys_host s))
      (env (sys_world s) (log (sys_world s))
         (sub_Next (task_sub task) (Host.ctx (sys_host s))))
      task pc evs ->
    tasks (sys_world s') = alter (set_task_pc pc) i (tasks (sys_world s)) ->
    log (sys_world s') = log (sys_world s) ++ evs ->
    env (sys_world s') = env (sys_world s) ->
    transition s s'.

(** ** Tasks and subscriptions *)

Definition task_key (t : Task) : string * Subscription :=
  (task_topic t, task_sub t).

(** One task per subscription of the host, reading from it, and a
    publisher for every subscription. *)
Definition tasks_match (s : Sys) : Prop :=
  map task_key (tasks (sys_world s)) ≡ₚ map_to_list (Host.subs (sys_host s))
  /\ forall t, is_Some (Host.pubs (sys_host s) !! t)
               <-> is_Some (Host.subs (sys_host s) !! t).

(** ** Messages received and delivered *)

(** The messages the successful [sub.Next] calls among [evs] returned,
    each with the subscription it was read from.  The log holds a call
    and its error; the message is what the environment answers to the
    call on the log [pre] before it. *)
Fixpoint received_from (e : Env) (pre evs : list Event)
    : list (Subscription * list byte) :=
  match evs with
  | [] => []
  | ev :: rest =>
      match ev with
      | ECall (sub_Next sub ctx) None =>
          match e pre (sub_Next sub ctx) with
          | Ok msg => [(sub, Data msg)]
          | Err _ => []
          end
      | _ => []
      end ++ received_from e (pre ++ [ev]) rest
  end.

(** The data passed to the broadcast callback of topic [t], in order. *)
Fixpoint delivered_to (t : string) (evs : list Event) : list (list byte) :=
  match evs with
  | [] => []
  | EHandleBroadcast t' data _ :: rest =>
      (if bool_decide (t' = t) then [data] else []) ++ delivered_to t rest
  | _ :: rest => delivered_to t rest
  end.

(** The message a task holds between [sub.Next] and the callback. *)
Definition held_data (task : Task) : list (list byte) :=
  match task_pc task with
  | InCallback data => [data]
  | _ => []
  end.

(** The messages of a task: those passed to the callback of its topic and
    the one it holds, each with the subscription of the task. *)
Definition task_messages (evs : list Event) (task : Task)
    : list (Subscription * list byte) :=
  map (pair (task_sub task)) (delivered_to (task_topic task) evs ++ held_data task).

Definition task_handler (task : Task) : string * HandleBroadcast :=
  (task_topic task, task_callback task).

(** The events [evs] logged since [pre] account for the messages of the
    tasks of [s]: the topics of the tasks are distinct and have a
    publisher, every broadcast callback invocation is one of the callback
    of a task on its topic, and the messages received are those of the
    tasks. *)
Definition messages_accounted (e0 : Env) (pre evs : list Event) (s : Sys) : Prop :=
  log (sys_world s) = pre ++ evs
  /\ env (sys_world s) = e0
  /\ NoDup (map task_topic (tasks (sys_world s)))
  /\ Forall (fun t => is_Some (Host.pubs (sys_host s) !! t))
       (map task_topic (tasks (sys_world s)))
  /\ (forall t data e,
        EHandleBroadcast t data e ∈ evs ->
        exists cb, (t, cb) ∈ map task_handler (tasks (sys_world s)) /\ e = cb data)
  /\ received_from e0 pre evs
     ≡ₚ flat_map (task_messages evs) (tasks (sys_world s)).

(** * Properties *)

(** ** The Go standard library model *)

Example sha1_abc :
  map byteZ (sha1.Sum (bytes_of_string "abc")) =
  [0xa9; 0x99; 0x3e; 0x36; 0x47; 0x06; 0x81; 0x6a; 0xba; 0x3e;
   0x25; 0x71; 0x78; 0x50; 0xc2; 0x6c; 0x9c; 0xd0; 0xd8; 0x9d].
Proof. vm_compute. reflexivity. Qed.

Example sha1_empty :
  map byteZ (sha1.Sum []) =
  [0xda; 0x39; 0xa3; 0xee; 0x5e; 0x6b; 0x4b; 0x0d; 0x32; 0x55;
   0xbf; 0xef; 0x95; 0x60; 0x18; 0x90; 0xaf; 0xd8; 0x07; 0x09].
Proof. vm_compute. reflexivity. Qed.

Example sha1_two_blocks :
  map byteZ (sha1.Sum (bytes_of_string
    "abcdbcdecdefdefgefghfghighijhijkijkljklmklmnlmnomnopnopq")) =
  [0x84; 0x98; 0x3e; 0x44; 0x1c; 0x3b; 0xd2; 0x6e; 0xba; 0xae;
   0x4a; 0xa1; 0xf9; 0x51; 0x29; 0xe5; 0xe5; 0x46; 0x70; 0xf1].
Proof. vm_compute. reflexivity. Qed.

Example Atoi_examples :
  Atoi "30001" = (30001, None) /\ Atoi "-7" = (-7, None) /\ Atoi "+12" = (12, None)
  /\ (Atoi "").2 <> None /\ (Atoi "-").2 <> None /\ (Atoi "12a").2 <> None
  /\ (Atoi "9223372036854775807") = (9223372036854775807, None)
  /\ (Atoi "9223372036854775808").2 <> None
  /\ (Atoi "-9223372036854775808") = (-9223372036854775808, None).
Proof. vm_compute. repeat split; congruence. Qed.

Example Sprintf_addr_example : Sprintf_addr "127.0.0.1" 30001 = "127.0.0.1:30001".
Proof. vm_compute. reflexivity. Qed.

Example NewHost_reference :
  (NewHost 0%nat [] (Reference.world Reference.env_ok)).1 = Ret (Ok Reference.host0).
Proof. vm_compute. reflexivity. Qed.

(** ** Configuration options *)

(** The six options other than [ConnectTimeout] set the field they are
    named after and nothing else. *)
Lemma options_applied_as_set cfg (s : string) (n : Z) :
  Config.HostName (HostName s cfg).1 = s
  /\ Config.Port (Port n cfg).1 = n
  /\ Config.ExternalHostName (ExternalHostName s cfg).1 = s
  /\ Config.ExternalPort (ExternalPort n cfg).1 = n
  /\ Config.SecureIO (SecureIO cfg).1 = true
  /\ Config.Gossip (Gossip cfg).1 = true
  /\ (HostName (Config.HostName cfg) cfg).1 = cfg
  /\ (Port (Config.Port cfg) cfg).1 = cfg
  /\ (ExternalHostName (Config.ExternalHostName cfg) cfg).1 = cfg
  /\ (ExternalPort (Config.ExternalPort cfg) cfg).1 = cfg.
Proof. destruct cfg; repeat split. Qed.

(** C1.  [ConnectTimeout d] does not set the connect timeout: on every
    configuration it leaves the [ConnectTimeout] field as it was and sets
    the [Gossip] flag.  On the default configuration with [d] five
    seconds, the timeout stays one minute and gossip is switched on. *)
Theorem ConnectTimeout_sets_Gossip_instead :
  (forall d cfg,
     Config.ConnectTimeout (ConnectTimeout d cfg).1 = Config.ConnectTimeout cfg
     /\ Config.Gossip (ConnectTimeout d cfg).1 = true)
  /\ Config.ConnectTimeout (ConnectTimeout (5 * time_Second) DefaultConfig).1
     = time_Minute
  /\ Config.ConnectTimeout (ConnectTimeout (5 * time_Second) DefaultConfig).1
     <> 5 * time_Second
  /\ Config.Gossip DefaultConfig = false
  /\ Config.Gossip (ConnectTimeout (5 * time_Second) DefaultConfig).1 = true.
Proof. repeat split. vm_compute. discriminate. Qed.

(** ** Key derivation *)

Lemma byteZ_range b : 0 <= byteZ b < 256.
Proof.
  unfold byteZ. pose proof (Byte.to_N_bounded b). lia.
Qed.

Lemma lor_shiftl_add a b n :
  0 <= n -> 0 <= a < 2 ^ n -> Z.lor a (Z.shiftl b n) = a + b * 2 ^ n.
Proof.
  intros Hn Ha. rewrite Z.shiftl_mul_pow2 by lia.
  rewrite <- Z.add_lor_land.
  assert (Hz : Z.land a (b * 2 ^ n) = 0); [|lia].
  apply Z.bits_inj'. intros k Hk.
  rewrite Z.land_spec, Z.bits_0.
  destruct (Z.lt_ge_cases k n) as [Hlt|Hge].
  - rewrite Z.mul_pow2_bits_low by lia. apply andb_false_r.
  - destruct (Z.eq_dec a 0) as [->|Hne].
    + now rewrite Z.bits_0.
    + rewrite (Z.bits_above_log2 a k); [reflexivity|lia|].
      apply Z.log2_lt_pow2; [lia|].
      apply Z.lt_le_trans with (2 ^ n); [lia|].
      apply Z.pow_le_mono_r; lia.
Qed.

Lemma sha1_Sum_length data : length (sha1.Sum data) = 20%nat.
Proof.
  unfold sha1.Sum.
  destruct (sha1.blocks _ _ _) as [[[[a b] c] d] e]. reflexivity.
Qed.

(** The word the code computes from the hash is the number the
    specification describes, and it fits in 56 bits. *)
Lemma seed_computed addr :
  let hash := sha1.Sum (bytes_of_string addr) in
  BigEndian_Uint64 (<[0%nat := x00]> (drop 12 hash)) = Some (seed_of_address addr)
  /\ 0 <= seed_of_address addr < 2 ^ 56.
Proof.
  unfold seed_of_address. cbv zeta.
  pose proof (sha1_Sum_length (bytes_of_string addr)) as Hlen.
  destruct (sha1.Sum (bytes_of_string addr)) as [|h0 hs]; [discriminate|].
  do 19 (destruct hs as [|? hs]; [discriminate|]).
  destruct hs; [|discriminate]. clear Hlen.
  cbn [drop take insert list_insert BigEndian_Uint64 be_value fold_left].
  repeat match goal with
         | b : byte |- _ =>
             lazymatch goal with
             | H : 0 <= byteZ b < 256 |- _ => fail
             | _ => pose proof (byteZ_range b)
             end
         end.
  change (byteZ x00) with 0. rewrite Z.shiftl_0_l, Z.lor_0_r.
  rewrite (lor_shiftl_add (byteZ b17) _ 8) by lia.
  rewrite (lor_shiftl_add _ (byteZ b15) 16) by lia.
  rewrite (lor_shiftl_add _ (byteZ b14) 24) by lia.
  rewrite (lor_shiftl_add _ (byteZ b13) 32) by lia.
  rewrite (lor_shiftl_add _ (byteZ b12) 40) by lia.
  rewrite (lor_shiftl_add _ (byteZ b11) 48) by lia.
  split; [f_equal|]; lia.
Qed.

(** C2.  The keys depend on the address only: in every world, whatever
    has happened before, [generateKeyPair a] returns what the key generator
    produces from a fresh pseudo-random source seeded with
    [seed_of_address a], a number below 2^56 computed from bytes 13..19 of
    the SHA-1 hash of [a]; two calls on the same address return the same
    result. *)
Theorem generateKeyPair_deterministic `{L : Lib} :
  (forall a w,
     (generateKeyPair a w).1 =
     Ret (lib_GenerateKeyPairWithReader crypto_Ed25519 2048
            (rand_New (rand_NewSource (seed_of_address a)))))
  /\ (forall a w1 w2, (generateKeyPair a w1).1 = (generateKeyPair a w2).1)
  /\ (forall a, 0 <= seed_of_address a < 2 ^ 56).
Proof.
  assert (Hgen : forall a w,
     (generateKeyPair a w).1 =
     Ret (lib_GenerateKeyPairWithReader crypto_Ed25519 2048
            (rand_New (rand_NewSource (seed_of_address a))))).
  { intros a w. unfold generateKeyPair.
    destruct (seed_computed a) as [-> Hr].
    unfold int64_of_uint64.
    destruct (Z.ltb_spec (seed_of_address a) (2 ^ 63)); [reflexivity|lia]. }
  repeat split.
  - exact Hgen.
  - intros. now rewrite !Hgen.
  - apply seed_computed.
  - apply seed_computed.
Qed.

(** ** Reasoning about runs of monadic code *)

Lemma bind_Ret_inv {A B} (m : M A) (k : A -> M B) w b w' :
  bind m k w = (Ret b, w') ->
  exists a w1, m w = (Ret a, w1) /\ k a w1 = (Ret b, w').
Proof.
  unfold bind. destruct (m w) as [[a|msg] w1]; [eauto|discriminate].
Qed.

Lemma call_eq `{L : Lib} c w :
  call c w = (Ret (answer w c),
              mkWorld (log w ++ [ECall c (err_of c (answer w c))]) (tasks w) (env w)).
Proof. reflexivity. Qed.

Lemma fst_eq_inv {A B} (p : A * B) a : p.1 = a -> exists b, p = (a, b).
Proof. destruct p; simpl; intros ->; eauto. Qed.

(** Break the run of a sequence of binds into the runs of its parts. *)
Ltac run_inv H :=
  repeat
    (lazymatch type of H with
     | bind _ _ _ = (Ret _, _) =>
         let a := fresh "a" in
         let w := fresh "w" in
         let Hm := fresh "Hm" in
         apply bind_Ret_inv in H as (a & w & Hm & H)
     | ret _ _ = (_, _) => unfold ret in H
     | panic _ _ = (_, _) => discriminate H
     | (_, _) = (_, _) => fail
     | (match ?x with _ => _ end) _ = (_, _) =>
         let E := fresh "E" in destruct x eqn:E
     | (if ?x then _ else _) _ = (_, _) =>
         let E := fresh "E" in destruct x eqn:E
     | (let '(_, _) := ?x in _) _ = (_, _) =>
         let E := fresh "E" in destruct x eqn:E
     end).

(** ** Relations that hold along library calls *)

Lemma world_eta w : mkWorld (log w) (tasks w) (env w) = w.
Proof. destruct w; reflexivity. Qed.

#[global] Instance extends_rel : WorldRel extends.
Proof.
  split.
  - intros w. exists [], []. rewrite !app_nil_r, world_eta.
    repeat split; constructor.
  - intros w1 w2 w3 (evs & new & -> & He & Hn) (evs' & new' & -> & He' & Hn').
    simpl. exists (evs ++ evs'), (new ++ new'). rewrite !app_assoc.
    repeat split; apply Forall_app; split; assumption.
  - intros w evs He. exists evs, []. rewrite app_nil_r.
    repeat split; [assumption|constructor].
Qed.

#[global] Instance log_only_rel : WorldRel log_only.
Proof.
  split.
  - intros w. exists []. rewrite app_nil_r, world_eta. split; constructor.
  - intros w1 w2 w3 (evs & -> & He) (evs' & -> & He'). simpl.
    exists (evs ++ evs'). rewrite app_assoc. split; [reflexivity|].
    apply Forall_app; split; assumption.
  - intros w evs He. exists evs. split; [reflexivity|assumption].
Qed.

Lemma log_only_extends w w' : log_only w w' -> extends w w'.
Proof.
  intros (evs & -> & He). exists evs, []. rewrite app_nil_r.
  repeat split; [assumption|constructor].
Qed.

Section Respects.
Context `{L : Lib} (R : World -> World -> Prop) `{!WorldRel R}.

Lemma respects_ret {A} (a : A) : respects R (ret a).
Proof. intros w. apply wr_refl. Qed.

Lemma respects_panic {A} msg : respects R (@panic A msg).
Proof. intros w. apply wr_refl. Qed.

Lemma respects_bind {A B} (m : M A) (k : A -> M B) :
  respects R m -> (forall a, respects R (k a)) -> respects R (bind m k).
Proof.
  intros Hm Hk w. unfold bind. specialize (Hm w).
  destruct (m w) as [[a|msg] w1]; simpl in *; [|assumption].
  eapply wr_trans; [eassumption|apply Hk].
Qed.

Lemma respects_call c : respects R (call c).
Proof.
  intros w. rewrite call_eq. simpl. apply wr_log. repeat constructor.
Qed.

Lemma respects_emit_unicast t data e : respects R (emit (EHandleUnicast t data e)).
Proof. intros w. simpl. apply wr_log. repeat constructor. Qed.

End Respects.

Lemma extends_spawn t sub cb : respects extends (spawn (mkTask t sub cb AtSelect)).
Proof.
  intros w. simpl. exists [], [mkTask t sub cb AtSelect]. rewrite app_nil_r.
  split; [reflexivity|]. split; repeat constructor.
Qed.

(** Decompose a computation into binds, calls and case distinctions. *)
Ltac respects_solve :=
  repeat
    match goal with
    | |- respects _ (ret _) => refine (respects_ret _ _)
    | |- respects _ (panic _) => refine (respects_panic _ _)
    | |- respects _ (call _) => refine (respects_call _ _)
    | |- respects _ (emit (EHandleUnicast _ _ _)) =>
        refine (respects_emit_unicast _ _ _ _)
    | |- respects extends (spawn _) => apply extends_spawn
    | |- respects _ (bind _ _) => refine (respects_bind _ _ _ _ _); [|intros ?]
    | |- respects _ (match ?x with _ => _ end) => destruct x
    end.

Section RespectsLoops.
Context `{L : Lib}.

Lemma scanAddrs_respects R `{!WorldRel R} addrs acc : respects R (scanAddrs addrs acc).
Proof.
  revert acc. induction addrs as [|ma rest IH]; intros acc; simpl;
    respects_solve; apply IH.
Qed.

Lemma scanPeers_respects R `{!WorldRel R} h peers acc :
  respects R (scanPeers h peers acc).
Proof.
  revert acc. induction peers as [|peer rest IH]; intros acc; simpl;
    respects_solve;
    match goal with
    | |- respects _ (scanAddrs _ _) => refine (scanAddrs_respects _ _ _)
    | _ => apply IH
    end.
Qed.

Lemma cancelAll_respects R `{!WorldRel R} subs : respects R (cancelAll subs).
Proof.
  induction subs as [|[t sub] rest IH]; simpl; respects_solve; assumption.
Qed.

End RespectsLoops.

(** ** NewHost *)

Section NewHostProperties.
Context `{L : Lib}.

Lemma actualPort_Gossip cfg host w cfg' w' :
  actualPort cfg host w = (Ret (Ok cfg'), w') ->
  Config.Gossip cfg' = Config.Gossip cfg
  /\ Config.HostName cfg' = Config.HostName cfg
  /\ Config.ExternalHostName cfg' = Config.ExternalHostName cfg
  /\ Config.ExternalPort cfg' = Config.ExternalPort cfg
  /\ Config.SecureIO cfg' = Config.SecureIO cfg
  /\ Config.ConnectTimeout cfg' = Config.ConnectTimeout cfg.
Proof.
  unfold actualPort. intros H.
  destruct (decide (Config.Port cfg = 0)).
  - run_inv H; try discriminate H. inversion H; subst. simpl. tauto.
  - inversion H; subst. tauto.
Qed.

(** What a successful [NewHost] returns. *)
Lemma NewHost_inv ctx options w h w' :
  NewHost ctx options w = (Ret (Ok h), w') ->
  exists cfg0 cfg host kad cid,
    apply_options options DefaultConfig = Ok cfg0
    /\ lib_V1Builder_Sum cid_Raw multihash_SHA2_256
         (bytes_of_string (Pretty (host_ID host))) = Ok cid
    /\ Config.Gossip cfg = Config.Gossip cfg0
    /\ h = Host.mk host cfg ctx ∅ kad cid
             (if Config.Gossip cfg0 then pubsub_NewGossipSub else pubsub_NewFloodSub)
             ∅ ∅ false.
Proof.
  unfold NewHost. intros H.
  destruct (apply_options options DefaultConfig) as [cfg0|e] eqn:Hopt;
    [|discriminate H].
  run_inv H; try discriminate H.
  inversion H; subst; clear H.
  rewrite call_eq in Hm4. inversion Hm4 as [[Hans Hw]].
  apply actualPort_Gossip in Hm5 as (Hg & _).
  eexists _, _, _, _, _.
  split; [reflexivity|]. split; [|split; [|reflexivity]].
  - exact Hans.
  - exact Hg.
Qed.

Lemma NewHost_inv_fst ctx options w h :
  (NewHost ctx options w).1 = Ret (Ok h) ->
  exists cfg0 cfg host kad cid,
    apply_options options DefaultConfig = Ok cfg0
    /\ lib_V1Builder_Sum cid_Raw multihash_SHA2_256
         (bytes_of_string (Pretty (host_ID host))) = Ok cid
    /\ Config.Gossip cfg = Config.Gossip cfg0
    /\ h = Host.mk host cfg ctx ∅ kad cid
             (if Config.Gossip cfg0 then pubsub_NewGossipSub else pubsub_NewFloodSub)
             ∅ ∅ false.
Proof.
  intros H. apply fst_eq_inv in H as [w' H]. eapply NewHost_inv, H.
Qed.

End NewHostProperties.

(** ** What no operation changes *)

Lemma frame_refl h : frame h h.
Proof. unfold frame; tauto. Qed.

Lemma frame_trans h1 h2 h3 : frame h1 h2 -> frame h2 h3 -> frame h1 h3.
Proof.
  unfold frame. intros (?&?&?&?&?&?&?&?) (?&?&?&?&?&?&?&?).
  repeat split; try congruence; auto.
Qed.

Section Frame.
Context `{L : Lib}.

Lemma AddUnicastPubSub_frame h t cb w r w' :
  AddUnicastPubSub h t cb w = (Ret r, w') -> frame h r.1.
Proof.
  unfold AddUnicastPubSub. intros H. run_inv H; inversion H; subst; simpl.
  - apply frame_refl.
  - unfold frame; simpl; tauto.
Qed.

Lemma AddBroadcastPubSub_frame h t cb w r w' :
  AddBroadcastPubSub h t cb w = (Ret r, w') -> frame h r.1.
Proof.
  unfold AddBroadcastPubSub. intros H.
  run_inv H; inversion H; subst; simpl; try apply frame_refl.
  unfold frame; simpl. repeat split; auto.
  intros t' Ht'. destruct (decide (t = t')) as [->|Hne].
  - rewrite lookup_insert_eq. eauto.
  - rewrite lookup_insert_ne by done. exact Ht'.
Qed.

Lemma Close_frame h w r w' :
  Close h w = (Ret r, w') -> frame h r.1 /\ Host.close r.1 = true.
Proof.
  unfold Close. intros H.
  run_inv H; inversion H; subst; simpl; unfold frame; simpl; tauto.
Qed.

Lemma exec_frame op h w h' v w' :
  exec op h w = (Ret (h', v), w') -> frame h h'.
Proof.
  destruct op; simpl; intros H; run_inv H; inversion H; subst;
    try apply frame_refl.
  - eapply AddUnicastPubSub_frame; eauto.
  - eapply AddBroadcastPubSub_frame; eauto.
  - eapply Close_frame; eauto.
Qed.

Lemma step_frame a s : frame (sys_host s) (sys_host (step a s)).
Proof.
  unfold step. destruct (sys_crashed s); [apply frame_refl|].
  destruct a as [op|i|pid stream].
  - destruct (exec op (sys_host s) (sys_world s)) as [[[h' v]|msg] w'] eqn:E;
      simpl; [|apply frame_refl].
    eapply exec_frame; eauto.
  - destruct (task_step _ _ _) as [[?|?] ?]; apply frame_refl.
  - destruct (installedHandler _ _); [|apply frame_refl].
    destruct (unicastStreamHandler _ _ _ _) as [[?|?] ?]; apply frame_refl.
Qed.

Lemma run_frame sched s : frame (sys_host s) (sys_host (run sched s)).
Proof.
  revert s. induction sched as [|a sched IH]; intros s; simpl.
  - apply frame_refl.
  - eapply frame_trans; [apply step_frame|apply IH].
Qed.

(** C5.  The configuration is set once: whatever the application calls
    and however the background tasks and stream handlers are interleaved,
    the [cfg] field of the host stays what it was; in particular each
    single operation that returns leaves it unchanged. *)
Theorem cfg_set_once :
  (forall sched s, Host.cfg (sys_host (run sched s)) = Host.cfg (sys_host s))
  /\ (forall op h w,
        match (exec op h w).1 with
        | Ret (h', _) => Host.cfg h' = Host.cfg h
        | Panic _ => True
        end).
Proof.
  split.
  - intros sched s. apply (run_frame sched s).
  - intros op h w.
    destruct (exec op h w) as [[[h' v]|msg] w'] eqn:E; simpl; [|exact I].
    apply (exec_frame _ _ _ _ _ _ E).
Qed.

(** C3.  The DHT key of a host built by [NewHost] is the CID the V1
    builder (raw codec, SHA2-256) computes from the bytes of the pretty
    form of the peer ID of its libp2p host, and [IdentityHash] returns the
    string form of that CID, also after any run of the program. *)
Theorem kadKey_from_identity ctx options w h :
  (NewHost ctx options w).1 = Ret (Ok h) ->
  exists c,
    lib_V1Builder_Sum cid_Raw multihash_SHA2_256
      (bytes_of_string (Pretty (host_ID (Host.host h)))) = Ok c
    /\ Host.kadKey h = c
    /\ IdentityHash h = Cid_String c
    /\ forall sched w2,
         IdentityHash (sys_host (run sched (mkSys h w2 false))) = Cid_String c.
Proof.
  intros H. apply NewHost_inv_fst in H
    as (cfg0 & cfg & host & kad & cid & _ & Hsum & _ & ->).
  exists cid. simpl. repeat split; try assumption.
  intros sched w2. unfold IdentityHash.
  destruct (run_frame sched (mkSys
    (Host.mk host cfg ctx ∅ kad cid
       (if Config.Gossip cfg0 then pubsub_NewGossipSub else pubsub_NewFloodSub)
       ∅ ∅ false) w2 false)) as (_&_&_&_&->&_).
  reflexivity.
Qed.

(** C6.  [NewHost] stores [pubsub.NewGossipSub] as the pubsub constructor
    exactly when the [Gossip] flag of the configuration is set, and
    [pubsub.NewFloodSub] otherwise; the flag of the stored configuration is
    the one the options produced, and the [Gossip] option sets it. *)
Theorem gossip_applied_as_set ctx options w h :
  (NewHost ctx options w).1 = Ret (Ok h) ->
  (Host.newPubSub h = pubsub_NewGossipSub <-> Config.Gossip (Host.cfg h) = true)
  /\ (Host.newPubSub h = pubsub_NewFloodSub <-> Config.Gossip (Host.cfg h) = false)
  /\ (exists cfg0, apply_options options DefaultConfig = Ok cfg0
                   /\ Config.Gossip (Host.cfg h) = Config.Gossip cfg0)
  /\ (forall cfg, Config.Gossip (Gossip cfg).1 = true /\ (Gossip cfg).2 = None).
Proof.
  intros H. apply NewHost_inv_fst in H
    as (cfg0 & cfg & host & kad & cid & Hopt & _ & Hg & ->).
  simpl. split; [|split; [|split]].
  - rewrite Hg. destruct (Config.Gossip cfg0); split; congruence.
  - rewrite Hg. destruct (Config.Gossip cfg0); split; congruence.
  - exists cfg0. split; assumption.
  - intros cfg1. split; reflexivity.
Qed.

End Frame.

Lemma kadKey_from_identity_witness :
  exists c,
    lib_V1Builder_Sum cid_Raw multihash_SHA2_256
      (bytes_of_string (Pretty (host_ID (Host.host Reference.host0)))) = Ok c
    /\ Host.kadKey Reference.host0 = c
    /\ IdentityHash Reference.host0 = Cid_String c
    /\ forall sched w2,
         IdentityHash (sys_host (run sched (mkSys Reference.host0 w2 false)))
         = Cid_String c.
Proof.
  apply (kadKey_from_identity 0%nat [] (Reference.world Reference.env_ok)).
  vm_compute. reflexivity.
Defined.

Lemma gossip_applied_as_set_witness :
  exists h,
    (NewHost 0%nat [Gossip] (Reference.world Reference.env_ok)).1 = Ret (Ok h)
    /\ (Host.newPubSub h = pubsub_NewGossipSub <-> Config.Gossip (Host.cfg h) = true)
    /\ Host.newPubSub h = pubsub_NewGossipSub.
Proof.
  eexists. split; [vm_compute; reflexivity|].
  split; [|reflexivity].
  apply (gossip_applied_as_set 0%nat [Gossip] (Reference.world Reference.env_ok)).
  vm_compute. reflexivity.
Defined.

(** ** Topic registration and broadcast *)

Section Topics.
Context `{L : Lib}.

Lemma AddUnicastPubSub_registers h t cb w r w' :
  AddUnicastPubSub h t cb w = (Ret r, w') -> is_Some (Host.topics r.1 !! t).
Proof.
  unfold AddUnicastPubSub. intros H.
  destruct (Host.topics h !! t) eqn:E; run_inv H; inversion H; subst; simpl.
  - rewrite E. eauto.
  - rewrite lookup_insert_eq. eauto.
Qed.

Lemma AddBroadcastPubSub_registers h t cb w h' w' :
  AddBroadcastPubSub h t cb w = (Ret (h', None), w') ->
  is_Some (Host.pubs h' !! t).
Proof.
  unfold AddBroadcastPubSub. intros H.
  destruct (Host.pubs h !! t) eqn:E; run_inv H; inversion H; subst; simpl.
  - rewrite E. eauto.
  - rewrite lookup_insert_eq. eauto.
Qed.

(** C8.  Registering a topic that is already registered returns nil and
    changes nothing: the host, the log of library calls (so no stream
    handler is installed and no pubsub object is created) and the
    background tasks are what they were, whatever callback is passed.  In
    particular a second registration right after a successful first one
    does nothing. *)
Theorem registration_idempotent :
  (forall h t cb w,
     is_Some (Host.topics h !! t) ->
     AddUnicastPubSub h t cb w = (Ret (h, None), w))
  /\ (forall h t cb w,
        is_Some (Host.pubs h !! t) ->
        AddBroadcastPubSub h t cb w = (Ret (h, None), w))
  /\ (forall h t cb1 cb2 w h1 e1 w1,
        AddUnicastPubSub h t cb1 w = (Ret (h1, e1), w1) ->
        AddUnicastPubSub h1 t cb2 w1 = (Ret (h1, None), w1))
  /\ (forall h t cb1 cb2 w h1 w1,
        AddBroadcastPubSub h t cb1 w = (Ret (h1, None), w1) ->
        AddBroadcastPubSub h1 t cb2 w1 = (Ret (h1, None), w1)).
Proof.
  assert (HU : forall h t cb w,
     is_Some (Host.topics h !! t) ->
     AddUnicastPubSub h t cb w = (Ret (h, None), w)).
  { intros h t cb w [u Hu]. unfold AddUnicastPubSub. now rewrite Hu. }
  assert (HB : forall h t cb w,
     is_Some (Host.pubs h !! t) ->
     AddBroadcastPubSub h t cb w = (Ret (h, None), w)).
  { intros h t cb w [u Hu]. unfold AddBroadcastPubSub. now rewrite Hu. }
  repeat split; auto.
  - intros h t cb1 cb2 w h1 e1 w1 H. apply HU.
    apply (AddUnicastPubSub_registers _ _ _ _ _ _ H).
  - intros h t cb1 cb2 w h1 w1 H. apply HB.
    apply (AddBroadcastPubSub_registers _ _ _ _ _ _ H).
Qed.

Lemma Broadcast_no_publisher h t data w :
  Host.pubs h !! t = None -> Broadcast h t data w = (Ret None, w).
Proof. intros H. unfold Broadcast. now rewrite H. Qed.

Lemma exec_pubs_other t op h w h' v w' :
  registers t (ACall op) = false ->
  exec op h w = (Ret (h', v), w') ->
  Host.pubs h' !! t = Host.pubs h !! t.
Proof.
  intros Hreg H. destruct op; simpl in H; run_inv H; inversion H; subst;
    try reflexivity.
  - revert Hm. unfold AddUnicastPubSub. intros Hm.
    run_inv Hm; inversion Hm; subst; reflexivity.
  - simpl in Hreg. apply bool_decide_eq_false in Hreg.
    revert Hm. unfold AddBroadcastPubSub. intros Hm.
    run_inv Hm; inversion Hm; subst; simpl; try reflexivity.
    now rewrite lookup_insert_ne.
  - revert Hm. unfold Close. intros Hm.
    run_inv Hm; inversion Hm; subst; reflexivity.
Qed.

Lemma step_pubs_other t a s :
  registers t a = false ->
  Host.pubs (sys_host (step a s)) !! t = Host.pubs (sys_host s) !! t.
Proof.
  intros Hreg. unfold step. destruct (sys_crashed s); [reflexivity|].
  destruct a as [op|i|pid stream].
  - destruct (exec op (sys_host s) (sys_world s)) as [[[h' v]|msg] w'] eqn:E;
      simpl; [|reflexivity].
    eapply exec_pubs_other; eauto.
  - destruct (task_step _ _ _) as [[?|?] ?]; reflexivity.
  - destruct (installedHandler _ _); [|reflexivity].
    destruct (unicastStreamHandler _ _ _ _) as [[?|?] ?]; reflexivity.
Qed.

Lemma run_pubs_other t sched s :
  forallb (fun a => negb (registers t a)) sched = true ->
  Host.pubs (sys_host (run sched s)) !! t = Host.pubs (sys_host s) !! t.
Proof.
  revert s. induction sched as [|a sched IH]; intros s Hall; simpl in *.
  - reflexivity.
  - apply andb_true_iff in Hall as [Ha Hall].
    rewrite IH by assumption. apply step_pubs_other.
    now apply negb_true_iff.
Qed.

Lemma AddBroadcastPubSub_error_keeps h t cb w h' e w' :
  AddBroadcastPubSub h t cb w = (Ret (h', Some e), w') -> h' = h.
Proof.
  unfold AddBroadcastPubSub. intros H.
  run_inv H; inversion H; subst; reflexivity.
Qed.

(** A step that is not a call of [AddBroadcastPubSub] on [t] returning
    nil leaves [t] as it is in [pubs]. *)
Lemma step_pubs_unregistered t a s :
  registers_ok t a s = false ->
  Host.pubs (sys_host (step a s)) !! t = Host.pubs (sys_host s) !! t.
Proof.
  intros Hreg. destruct (registers t a) eqn:Hr; [|now apply step_pubs_other].
  destruct a as [op| |]; try discriminate Hr.
  destruct op; try discriminate Hr.
  simpl in Hr, Hreg. rewrite Hr in Hreg. simpl in Hreg.
  unfold step. destruct (sys_crashed s); [reflexivity|]. simpl in Hreg.
  simpl. unfold bind.
  destruct (AddBroadcastPubSub (sys_host s) topic callback (sys_world s))
    as [[[h' [e|]]|msg] w'] eqn:E; simpl in *; try discriminate Hreg.
  - now rewrite (AddBroadcastPubSub_error_keeps _ _ _ _ _ _ _ E).
  - reflexivity.
Qed.

Lemma run_pubs_unregistered t sched s :
  registered_along t sched s = false ->
  Host.pubs (sys_host (run sched s)) !! t = Host.pubs (sys_host s) !! t.
Proof.
  revert s. induction sched as [|a sched IH]; intros s Hall; simpl in *.
  - reflexivity.
  - apply orb_false_iff in Hall as [Ha Hall].
    rewrite IH by assumption. now apply step_pubs_unregistered.
Qed.

(** C9.  On a host built by [NewHost], after any run in which no call of
    [AddBroadcastPubSub] on topic [t] returned nil (none was made, or
    each one failed), [t] has no publisher and [Broadcast t data] returns
    nil, logs no library call (so nothing is published) and leaves the
    world as it is; [Broadcast] never changes the host. *)
Theorem Broadcast_unregistered ctx options w0 h sched w1 t data :
  (NewHost ctx options w0).1 = Ret (Ok h) ->
  registered_along t sched (mkSys h w1 false) = false ->
  let s := run sched (mkSys h w1 false) in
  Host.pubs (sys_host s) !! t = None
  /\ Broadcast (sys_host s) t data (sys_world s) = (Ret None, sys_world s).
Proof.
  intros Hnew Hall s.
  assert (Hnone : Host.pubs (sys_host s) !! t = None).
  { unfold s. rewrite run_pubs_unregistered by assumption. simpl.
    apply NewHost_inv_fst in Hnew as (?&?&?&?&?&_&_&_&->). simpl.
    apply lookup_empty. }
  split; [exact Hnone|]. apply Broadcast_no_publisher, Hnone.
Qed.

End Topics.

(** ** Neighbors *)

Section NeighborsProperties.
Context `{L : Lib}.

Lemma scanAddrs_spec addrs acc w :
  exists w',
    scanAddrs addrs acc w = (Ret (acc ++ option_list (spec_peerEntry addrs)), w').
Proof.
  revert w. induction addrs as [|ma rest IH]; intros w.
  - eexists. simpl. unfold ret. now rewrite app_nil_r.
  - assert (Hskip : forall w1, spec_addrEntry ma = None ->
        exists w', scanAddrs rest acc w1
                   = (Ret (acc ++ option_list (spec_peerEntry (ma :: rest))), w')).
    { intros w1 Hnone. unfold spec_peerEntry. simpl. rewrite Hnone. apply IH. }
    simpl. unfold bind at 1. rewrite call_eq.
    change (answer w (ma_ValueForProtocol ma multiaddr_P_IP4))
      with (lib_ValueForProtocol ma multiaddr_P_IP4).
    destruct (lib_ValueForProtocol ma multiaddr_P_IP4) as [ip|e] eqn:Hip.
    2:{ apply Hskip. unfold spec_addrEntry. now rewrite Hip. }
    destruct (decide (ip = "")) as [Hemp|Hne].
    { apply Hskip. unfold spec_addrEntry. rewrite Hip.
      destruct (lib_ValueForProtocol ma multiaddr_P_TCP); [|reflexivity].
      now rewrite decide_True. }
    unfold bind at 1. rewrite call_eq.
    match goal with
    | |- context [answer ?w' (ma_ValueForProtocol ma multiaddr_P_TCP)] =>
        change (answer w' (ma_ValueForProtocol ma multiaddr_P_TCP))
          with (lib_ValueForProtocol ma multiaddr_P_TCP)
    end.
    destruct (lib_ValueForProtocol ma multiaddr_P_TCP) as [portStr|e] eqn:Htcp.
    2:{ apply Hskip. unfold spec_addrEntry. now rewrite Hip, Htcp. }
    destruct (Atoi portStr) as [port [e|]] eqn:Hatoi.
    { apply Hskip. unfold spec_addrEntry.
      now rewrite Hip, Htcp, decide_False, Hatoi. }
    eexists. unfold ret. unfold spec_peerEntry. simpl.
    unfold spec_addrEntry at 1.
    rewrite Hip, Htcp, decide_False, Hatoi by assumption. reflexivity.
Qed.

Lemma locally_known_weaken h w0 w1 wEnd peer info :
  env w1 = env w0 -> log w0 `prefix_of` log w1 ->
  locally_known h w1 wEnd peer info -> locally_known h w0 wEnd peer info.
Proof.
  intros He Hp (w & Hew & Hp1 & Hp2 & Hi). exists w.
  split; [congruence|]. split; [etransitivity; eassumption|].
  split; assumption.
Qed.

Lemma scanPeers_spec h peers acc w :
  exists infos w',
    scanPeers h peers acc w
    = (Ret (acc ++ omap (fun info => spec_peerEntry (Addrs info)) infos), w')
    /\ Forall2 (locally_known h w w') peers infos.
Proof.
  revert acc w. induction peers as [|peer rest IH]; intros acc w.
  - exists [], w. simpl. unfold ret. rewrite app_nil_r. split; constructor.
  - simpl. unfold bind at 1. rewrite call_eq.
    set (info := answer w (kad_FindLocal (Host.kad h) peer)).
    set (w1 := mkWorld _ _ _).
    unfold bind at 1.
    destruct (scanAddrs_spec (Addrs info) acc w1) as [w2 Hs].
    pose proof (scanAddrs_respects log_only (Addrs info) acc w1) as (evs2 & Hw2 & _).
    rewrite Hs in Hw2 |- *. simpl in Hw2.
    destruct (IH (acc ++ option_list (spec_peerEntry (Addrs info))) w2)
      as (infos & w3 & Hrun & Hall).
    pose proof (scanPeers_respects log_only h rest
                  (acc ++ option_list (spec_peerEntry (Addrs info))) w2)
      as (evs3 & Hw3 & _).
    rewrite Hrun in Hw3 |- *. simpl in Hw3.
    assert (Hp12 : log w `prefix_of` log w2).
    { rewrite Hw2. unfold w1. simpl. rewrite <- app_assoc. eexists. reflexivity. }
    assert (Hp23 : log w2 `prefix_of` log w3).
    { rewrite Hw3. simpl. eexists. reflexivity. }
    assert (He2 : env w2 = env w) by (rewrite Hw2; reflexivity).
    exists (info :: infos), w3. split.
    + simpl. destruct (spec_peerEntry (Addrs info)); simpl.
      * now rewrite <- app_assoc.
      * now rewrite app_nil_r.
    + constructor.
      * exists w. split; [reflexivity|]. split; [reflexivity|].
        split; [etransitivity; eassumption|reflexivity].
      * eapply Forall2_impl; [exact Hall|]. intros p i Hk.
        eapply locally_known_weaken; eassumption.
Qed.

Lemma spec_addrEntry_Some ma s :
  spec_addrEntry ma = Some s ->
  exists ip portStr port,
    lib_ValueForProtocol ma multiaddr_P_IP4 = Ok ip /\ ip <> ""
    /\ lib_ValueForProtocol ma multiaddr_P_TCP = Ok portStr
    /\ Atoi portStr = (port, None)
    /\ s = Sprintf_addr ip port.
Proof.
  unfold spec_addrEntry.
  destruct (lib_ValueForProtocol ma multiaddr_P_IP4) as [ip|]; [|discriminate].
  destruct (lib_ValueForProtocol ma multiaddr_P_TCP) as [portStr|]; [|discriminate].
  destruct (decide (ip = "")); [discriminate|].
  destruct (Atoi portStr) as [port [e|]] eqn:Hatoi; [discriminate|].
  intros [= <-]. eauto 10.
Qed.

Lemma length_omap_le {A B} (f : A -> option B) (l : list A) :
  (length (omap f l) <= length l)%nat.
Proof.
  induction l as [|a l IH]; csimpl; [lia|]. destruct (f a); csimpl; lia.
Qed.

(** The entry of a peer comes from the first of its addresses that
    carries both components. *)
Lemma spec_peerEntry_first addrs s :
  spec_peerEntry addrs = Some s <->
  exists i ma,
    addrs !! i = Some ma /\ spec_addrEntry ma = Some s
    /\ forall j ma', (j < i)%nat -> addrs !! j = Some ma' -> spec_addrEntry ma' = None.
Proof.
  unfold spec_peerEntry. induction addrs as [|a rest IH]; simpl.
  - split; [discriminate|]. intros (i & ma & Hi & _). destruct i; discriminate.
  - destruct (spec_addrEntry a) as [sa|] eqn:Ha; simpl.
    + split.
      * intros [= <-]. exists 0%nat, a. repeat split; auto. lia.
      * intros (i & ma & Hi & Hs & Hfirst). destruct i as [|i].
        -- simpl in Hi. congruence.
        -- specialize (Hfirst 0%nat a ltac:(lia) eq_refl). congruence.
    + rewrite IH. split.
      * intros (i & ma & Hi & Hs & Hfirst). exists (S i), ma.
        repeat split; auto. intros [|j] ma' Hlt Hj; simpl in Hj.
        -- congruence.
        -- apply (Hfirst j); [lia|assumption].
      * intros (i & ma & Hi & Hs & Hfirst). destruct i as [|i]; simpl in Hi.
        -- congruence.
        -- exists i, ma. repeat split; auto. intros j ma' Hlt Hj.
           apply (Hfirst (S j)); [lia|assumption].
Qed.

(** C10.  A successful [Neighbors] goes through the closest peers in the
    order the DHT delivers them and returns, for each peer, at most one
    string: none when no locally known address of the peer carries a
    non-empty IPv4 component and a TCP component that parses as an
    integer, and otherwise "ip:port" built from the first address that
    does. *)
Theorem Neighbors_entries h w l :
  (Neighbors h w).1 = Ret (Ok l) ->
  exists peers infos,
    answer w (kad_GetClosestPeers (Host.kad h) (Host.ctx h)
                (Cid_String (Host.kadKey h))) = Ok peers
    /\ Forall2 (locally_known h w (Neighbors h w).2) peers infos
    /\ l = omap (fun info => spec_peerEntry (Addrs info)) infos
    /\ (length l <= length peers)%nat
    /\ Forall (fun s =>
         exists info i ma ip portStr port,
           info ∈ infos /\ Addrs info !! i = Some ma
           /\ lib_ValueForProtocol ma multiaddr_P_IP4 = Ok ip /\ ip <> ""
           /\ lib_ValueForProtocol ma multiaddr_P_TCP = Ok portStr
           /\ Atoi portStr = (port, None)
           /\ s = Sprintf_addr ip port
           /\ forall j ma', (j < i)%nat -> Addrs info !! j = Some ma' ->
                            spec_addrEntry ma' = None) l.
Proof.
  intros H. apply fst_eq_inv in H as [w' H]. rewrite H. simpl.
  unfold Neighbors in H. run_inv H; try discriminate H.
  rewrite call_eq in Hm. inversion Hm as [[Hpeers Hw]]. clear Hm.
  destruct (scanPeers_spec h a0 [] w0) as (infos & w2 & Hscan & Hall).
  rewrite Hscan in Hm0. inversion Hm0; subst a1 w1. clear Hm0.
  inversion H; subst l w'. clear H. simpl.
  exists a0, infos. split; [assumption|]. split; [|split; [reflexivity|split]].
  - eapply Forall2_impl; [exact Hall|]. intros p i Hk.
    eapply locally_known_weaken; [| |exact Hk]; rewrite <- Hw; simpl.
    + reflexivity.
    + eexists. reflexivity.
  - rewrite (Forall2_length _ _ _ Hall). apply length_omap_le.
  - apply Forall_forall. intros s Hs.
    apply list_elem_of_omap in Hs as (info & Hin & Hentry).
    apply spec_peerEntry_first in Hentry as (i & ma & Hi & Hentry & Hfirst).
    apply spec_addrEntry_Some in Hentry
      as (ip & portStr & port & Hip & Hne & Htcp & Hatoi & ->).
    exists info, i, ma, ip, portStr, port. repeat split; auto.
Qed.

End NeighborsProperties.

(** ** Error pass-through *)

Lemma pt_quiet skip evs r : Forall (quiet skip) evs -> passes_through_but skip evs r.
Proof.
  intros Hall i c e Hi Hskip.
  rewrite Forall_forall in Hall.
  assert (Hq : quiet skip (ECall c (Some e))).
  { apply Hall. eapply list_elem_of_lookup_2; eauto. }
  simpl in Hq. congruence.
Qed.

Lemma pt_quiet_app skip evs evs' r :
  Forall (quiet skip) evs ->
  passes_through_but skip evs' r ->
  passes_through_but skip (evs ++ evs') r.
Proof.
  intros Hall Hpt i c e Hi Hskip.
  apply lookup_app_Some in Hi as [Hi|[Hge Hi]].
  - exfalso. rewrite Forall_forall in Hall.
    assert (Hq : quiet skip (ECall c (Some e))).
    { apply Hall. eapply list_elem_of_lookup_2; eauto. }
    simpl in Hq. congruence.
  - destruct (Hpt _ _ _ Hi Hskip) as [Hlen ->]. split; [|reflexivity].
    rewrite length_app. lia.
Qed.

Lemma pt_last skip c e : passes_through_but skip [ECall c e] e.
Proof.
  intros i c' e' Hi _. destruct i as [|i]; [|destruct i; discriminate].
  inversion Hi; subst. split; reflexivity.
Qed.


Lemma new_events_app w evs t e :
  new_events w (mkWorld (log w ++ evs) t e) = evs.
Proof. unfold new_events. simpl. apply drop_app_length. Qed.

Lemma call_inv `{L : Lib} c w a w' :
  call c w = (Ret a, w') ->
  a = answer w c
  /\ w' = mkWorld (log w ++ [ECall c (err_of c a)]) (tasks w) (env w).
Proof. rewrite call_eq. intros [= <- <-]. split; reflexivity. Qed.

(** Turn every run of a call in the context into the answer and the world
    after it. *)
Ltac calls_inv :=
  repeat match goal with
         | H : call ?c _ = (Ret _, _) |- _ =>
             let Ha := fresh "Hans" in
             apply (call_inv c) in H as [Ha ->]
         | H : (if ?x then _ else _) _ = (Ret _, _) |- _ => destruct x
         | H : ret _ ?w = (Ret _, ?w') |- _ =>
             unfold ret in H; injection H as <- <-
         end.

(** The operations below never panic. *)
Ltac no_panic H :=
  exfalso;
  repeat (first [ match type of H with
                  | context [decide ?P] => destruct (decide P)
                  end
                | match type of H with
                  | context [match ?x with _ => _ end] => destruct x
                  end ];
          try discriminate H).

Ltac events :=
  simpl; rewrite <- ?app_assoc; simpl; rewrite ?new_events_app.




Section PassThrough.
Context `{L : Lib}.














End PassThrough.

(** ** Shutdown of the background tasks *)

Section Shutdown.
Context `{L : Lib}.

(** Every operation other than [AddBroadcastPubSub] only adds library
    calls to the log. *)
Lemma exec_log_only op h :
  (forall t cb, op <> OpAddBroadcastPubSub t cb) ->
  respects log_only (exec op h).
Proof.
  intros Hop. destruct op; simpl;
    try (exfalso; eapply Hop; reflexivity);
    unfold Connect, JoinOverlay, AddUnicastPubSub, Broadcast,
      Unicast, MultiAddress, Neighbors, Close, addrToMultiAddr;
    respects_solve;
    match goal with
    | |- respects _ (scanPeers _ _ _) => refine (scanPeers_respects _ _ _ _)
    | |- respects _ (cancelAll _) => refine (cancelAll_respects _ _)
    end.
Qed.

Lemma exec_extending op h : respects extends (exec op h).
Proof.
  destruct op;
    try (intros w; apply log_only_extends, exec_log_only; discriminate).
  simpl. unfold AddBroadcastPubSub. respects_solve.
Qed.

Lemma unicastStreamHandler_log_only t cb stream :
  respects log_only (unicastStreamHandler t cb stream).
Proof. unfold unicastStreamHandler. respects_solve. Qed.

Lemma unicastStreamHandler_extending t cb stream :
  respects extends (unicastStreamHandler t cb stream).
Proof. unfold unicastStreamHandler. respects_solve. Qed.

Lemma pending_app t l1 l2 : pending t (l1 ++ l2) = (pending t l1 + pending t l2)%nat.
Proof. induction l1 as [|a l1 IH]; simpl; [reflexivity|]. rewrite IH. lia. Qed.

Lemma pending_new t new :
  Forall (fun task => task_pc task = AtSelect) new -> pending t new = 0%nat.
Proof.
  induction 1 as [|task new Hpc _ IH]; simpl; [reflexivity|].
  unfold contribution. rewrite Hpc, IH. simpl. now rewrite andb_false_r.
Qed.

Lemma pending_alter t f i ts task :
  ts !! i = Some task ->
  (pending t (alter f i ts) + contribution t task
   = pending t ts + contribution t (f task))%nat.
Proof.
  revert i. induction ts as [|a ts IH]; intros [|i] Hi; try discriminate.
  - simpl in Hi. injection Hi as ->.
    change (alter f 0%nat (task :: ts)) with (f task :: ts).
    cbn [pending]. lia.
  - change (alter f (S i) (a :: ts)) with (a :: alter f i ts).
    cbn [pending]. specialize (IH i Hi). lia.
Qed.

Lemma broadcast_callbacks_app t l1 l2 :
  broadcast_callbacks t (l1 ++ l2)
  = (broadcast_callbacks t l1 + broadcast_callbacks t l2)%nat.
Proof.
  induction l1 as [|ev l1 IH]; simpl; [reflexivity|].
  destruct ev; rewrite IH; lia.
Qed.

Lemma broadcast_callbacks_none t evs :
  Forall not_broadcast evs -> broadcast_callbacks t evs = 0%nat.
Proof.
  induction 1 as [|ev evs Hev _ IH]; simpl; [reflexivity|].
  destruct ev; simpl in Hev; [assumption|assumption|contradiction].
Qed.

Lemma within_budget_refl t w : within_budget t w w.
Proof. exists []. rewrite app_nil_r. simpl. split; [reflexivity|lia]. Qed.

Lemma within_budget_trans t w1 w2 w3 :
  within_budget t w1 w2 -> within_budget t w2 w3 -> within_budget t w1 w3.
Proof.
  intros (evs & Hl & Hb) (evs' & Hl' & Hb'). exists (evs ++ evs').
  rewrite Hl', Hl, app_assoc, broadcast_callbacks_app. split; [reflexivity|lia].
Qed.

Lemma extends_within_budget t w w' : extends w w' -> within_budget t w w'.
Proof.
  intros (evs & new & -> & He & Hn). exists evs. simpl.
  rewrite (broadcast_callbacks_none _ _ He), pending_app, (pending_new _ _ Hn).
  split; [reflexivity|lia].
Qed.

Lemma task_step_closed h i w t :
  Host.close h = true ->
  within_budget t w (task_step h i w).2 /\ (task_step h i w).1 = Ret tt.
Proof.
  intros Hclosed. unfold task_step.
  destruct (tasks w !! i) as [task|] eqn:Hi; [|split; [apply within_budget_refl|reflexivity]].
  pose proof (fun f => pending_alter t f i (tasks w) task Hi) as Halter.
  destruct (task_pc task) as [| |data|] eqn:Hpc.
  - rewrite Hclosed. simpl. split; [|reflexivity].
    exists []. rewrite app_nil_r. simpl. split; [reflexivity|].
    specialize (Halter (fun t0 => mkTask (task_topic t0) (task_sub t0)
                                    (task_callback t0) Returned)).
    unfold contribution in Halter. simpl in Halter. rewrite Hpc in Halter.
    rewrite !andb_false_r in Halter. lia.
  - unfold bind. rewrite call_eq.
    destruct (answer w (sub_Next (task_sub task) (Host.ctx h))) as [msg|e];
      simpl; (split; [|reflexivity]); eexists; (split; [reflexivity|]); simpl.
    + specialize (Halter (fun t0 => mkTask (task_topic t0) (task_sub t0)
                                      (task_callback t0) (InCallback (Data msg)))).
      unfold contribution in Halter. simpl in Halter. rewrite Hpc in Halter.
      simpl in Halter. lia.
    + specialize (Halter (fun t0 => mkTask (task_topic t0) (task_sub t0)
                                      (task_callback t0) AtSelect)).
      unfold contribution in Halter. simpl in Halter. rewrite Hpc in Halter.
      simpl in Halter. rewrite !andb_false_r in Halter. lia.
  - simpl. split; [|reflexivity]. eexists. split; [reflexivity|]. simpl.
    specialize (Halter (fun t0 => mkTask (task_topic t0) (task_sub t0)
                                    (task_callback t0) AtSelect)).
    unfold contribution in Halter. simpl in Halter. rewrite Hpc in Halter.
    simpl in Halter. rewrite !andb_false_r, andb_true_r in Halter.
    destruct (bool_decide (task_topic task = t)); simpl in *; lia.
  - split; [apply within_budget_refl|reflexivity].
Qed.

Lemma step_extends_or_task a s :
  match a with
  | ATask i =>
      sys_crashed s = false ->
      sys_world (step a s) = (task_step (sys_host s) i (sys_world s)).2
  | _ => extends (sys_world s) (sys_world (step a s))
  end.
Proof.
  unfold step. destruct a as [op|i|pid stream].
  - destruct (sys_crashed s); [apply (wr_refl (R:=extends))|].
    pose proof (exec_extending op (sys_host s) (sys_world s)) as He.
    destruct (exec op (sys_host s) (sys_world s)) as [[[h' v]|msg] w']; exact He.
  - intros ->. destruct (task_step _ _ _) as [[u|msg] w']; reflexivity.
  - destruct (sys_crashed s); [apply (wr_refl (R:=extends))|].
    destruct (installedHandler _ _) as [cb|]; [|apply (wr_refl (R:=extends))].
    pose proof (unicastStreamHandler_extending pid cb stream (sys_world s)) as He.
    destruct (unicastStreamHandler _ _ _ _) as [[u|msg] w']; exact He.
Qed.

Lemma step_within_budget t a s :
  Host.close (sys_host s) = true ->
  within_budget t (sys_world s) (sys_world (step a s)).
Proof.
  intros Hclosed. pose proof (step_extends_or_task a s) as H.
  destruct a as [op|i|pid stream]; try (apply extends_within_budget, H).
  destruct (sys_crashed s) eqn:Hc.
  - unfold step. rewrite Hc. apply within_budget_refl.
  - rewrite (H eq_refl). apply task_step_closed, Hclosed.
Qed.

Lemma run_within_budget t sched s :
  Host.close (sys_host s) = true ->
  within_budget t (sys_world s) (sys_world (run sched s)).
Proof.
  revert s. induction sched as [|a sched IH]; intros s Hclosed; simpl.
  - apply within_budget_refl.
  - eapply within_budget_trans; [apply step_within_budget, Hclosed|].
    apply IH. destruct (step_frame a s) as (_&_&_&_&_&_&Hc&_). auto.
Qed.

Lemma run_crashed sched s : sys_crashed s = true -> run sched s = s.
Proof.
  intros Hc. induction sched as [|a sched IH]; simpl; [reflexivity|].
  unfold step at 1. rewrite Hc. exact IH.
Qed.

Lemma step_not_crashed a s : sys_crashed (step a s) = false -> sys_crashed s = false.
Proof.
  destruct (sys_crashed s) eqn:Hc; [|reflexivity].
  unfold step. rewrite Hc. congruence.
Qed.

Lemma run_not_crashed sched s :
  sys_crashed (run sched s) = false -> sys_crashed s = false.
Proof.
  destruct (sys_crashed s) eqn:Hc; [|reflexivity].
  rewrite run_crashed by assumption. congruence.
Qed.

(** A step of a task changes at most the program counter of that task. *)
Lemma task_step_tasks h j w :
  exists f, tasks (task_step h j w).2 = alter f j (tasks w)
            /\ forall task, task_topic (f task) = task_topic task.
Proof.
  unfold task_step. destruct (tasks w !! j) as [task|].
  2:{ exists id. split; [|reflexivity]. now rewrite list_alter_id. }
  destruct (task_pc task).
  - destruct (Host.close h); simpl; eexists; split; reflexivity.
  - unfold bind. rewrite call_eq.
    destruct (answer w _); simpl; eexists; split; reflexivity.
  - simpl. eexists; split; reflexivity.
  - exists id. split; [|reflexivity]. now rewrite list_alter_id.
Qed.

Lemma task_step_distance h i w task :
  Host.close h = true ->
  tasks w !! i = Some task ->
  exists task',
    tasks (task_step h i w).2 !! i = Some task'
    /\ (distance (task_pc task') <= distance (task_pc task) - 1)%nat.
Proof.
  intros Hclosed Hi. unfold task_step. rewrite Hi.
  destruct (task_pc task) eqn:Hpc.
  - rewrite Hclosed. simpl. rewrite list_lookup_alter_eq, Hi. simpl.
    eexists. split; [reflexivity|]. simpl. lia.
  - unfold bind. rewrite call_eq.
    destruct (answer w _); simpl; rewrite list_lookup_alter_eq, Hi; simpl;
      eexists; (split; [reflexivity|]); simpl; lia.
  - simpl. rewrite list_lookup_alter_eq, Hi. simpl.
    eexists. split; [reflexivity|]. simpl. lia.
  - exists task. split; [assumption|]. rewrite Hpc. simpl. lia.
Qed.

Lemma step_distance a s i task :
  Host.close (sys_host s) = true ->
  tasks (sys_world s) !! i = Some task ->
  sys_crashed (step a s) = false ->
  exists task',
    tasks (sys_world (step a s)) !! i = Some task'
    /\ (distance (task_pc task') <= distance (task_pc task) - task_steps i [a])%nat.
Proof.
  intros Hclosed Hi Hc. pose proof (step_not_crashed _ _ Hc) as Hc0.
  pose proof (step_extends_or_task a s) as H.
  destruct a as [op|j|pid stream].
  - destruct H as (evs & new & -> & _). simpl. exists task.
    split; [now apply lookup_app_l_Some|lia].
  - rewrite (H Hc0). simpl. destruct (decide (j = i)) as [->|Hne].
    + rewrite bool_decide_eq_true_2 by reflexivity.
      destruct (task_step_distance (sys_host s) i (sys_world s) task Hclosed Hi)
        as (task' & Hi' & Hd).
      exists task'. split; [assumption|lia].
    + rewrite bool_decide_eq_false_2 by assumption.
      destruct (task_step_tasks (sys_host s) j (sys_world s)) as (f & -> & _).
      rewrite list_lookup_alter_ne by assumption.
      exists task. split; [assumption|lia].
  - destruct H as (evs & new & -> & _). simpl. exists task.
    split; [now apply lookup_app_l_Some|lia].
Qed.

Lemma run_closed sched s :
  Host.close (sys_host s) = true -> Host.close (sys_host (run sched s)) = true.
Proof.
  intros Hclosed. destruct (run_frame sched s) as (_&_&_&_&_&_&Hc&_). auto.
Qed.

Lemma run_distance sched s i task :
  Host.close (sys_host s) = true ->
  tasks (sys_world s) !! i = Some task ->
  sys_crashed (run sched s) = false ->
  exists task',
    tasks (sys_world (run sched s)) !! i = Some task'
    /\ (distance (task_pc task') <= distance (task_pc task) - task_steps i sched)%nat.
Proof.
  revert s task. induction sched as [|a sched IH]; intros s task Hclosed Hi Hc;
    cbn [run] in Hc |- *.
  - exists task. split; [assumption|simpl; lia].
  - pose proof (run_not_crashed _ _ Hc) as Hc1.
    destruct (step_distance a s i task Hclosed Hi Hc1) as (task1 & Hi1 & Hd1).
    destruct (IH (step a s) task1 (run_closed [a] s Hclosed) Hi1 Hc)
      as (task' & Hi' & Hd').
    exists task'. split; [assumption|].
    assert (task_steps i (a :: sched)
            = (task_steps i [a] + task_steps i sched)%nat) as ->.
    { destruct a; simpl; lia. }
    lia.
Qed.

Lemma map_topic_alter f j (ts : list Task) :
  (forall task, task_topic (f task) = task_topic task) ->
  map task_topic (alter f j ts) = map task_topic ts.
Proof.
  intros Hf. revert j. induction ts as [|a ts IH]; intros [|j];
    try reflexivity.
  - change (alter f 0%nat (a :: ts)) with (f a :: ts). simpl. now rewrite Hf.
  - change (alter f (S j) (a :: ts)) with (a :: alter f j ts). simpl.
    now rewrite IH.
Qed.

Lemma pending_absent t ts : t ∉ map task_topic ts -> pending t ts = 0%nat.
Proof.
  induction ts as [|a ts IH]; simpl; [reflexivity|]. intros Hnotin.
  apply not_elem_of_cons in Hnotin as [Hne Hnotin].
  rewrite (IH Hnotin). unfold contribution.
  rewrite bool_decide_eq_false_2 by congruence. reflexivity.
Qed.

Lemma pending_le_1 t ts : NoDup (map task_topic ts) -> (pending t ts <= 1)%nat.
Proof.
  induction ts as [|a ts IH]; simpl; [lia|]. intros Hnd.
  apply NoDup_cons in Hnd as [Hnotin Hnd]. specialize (IH Hnd).
  unfold contribution. destruct (bool_decide_reflect (task_topic a = t)) as [Ht|Ht].
  - rewrite pending_absent by now rewrite <- Ht.
    destruct (is_pending (task_pc a)); simpl; lia.
  - simpl. lia.
Qed.

(** Either the process has crashed, or the tasks have distinct topics
    with a publisher each. *)
Lemma step_topics_registered a s :
  sys_crashed s = true \/ topics_registered s ->
  sys_crashed (step a s) = true \/ topics_registered (step a s).
Proof.
  intros [Hc|[Hnd Hall]].
  { left. unfold step. now rewrite Hc. }
  unfold step. destruct (sys_crashed s) eqn:Hc; [now left|].
  destruct a as [op|j|pid stream].
  - destruct (exec op (sys_host s) (sys_world s)) as [[[h' v]|msg] w'] eqn:E;
      [right|now left].
    pose proof (exec_frame _ _ _ _ _ _ E) as (_&_&_&_&_&_&_&Hpubs).
    assert (Hkeep : tasks w' = tasks (sys_world s) -> topics_registered (mkSys h' w' false)).
    { intros Ht. unfold topics_registered. simpl. rewrite Ht. split; [assumption|].
      eapply Forall_impl; [exact Hall|]. intros t. apply Hpubs. }
    assert (Hlog : (forall t cb, op <> OpAddBroadcastPubSub t cb) ->
                   topics_registered (mkSys h' w' false)).
    { intros Hop. apply Hkeep.
      pose proof (exec_log_only op (sys_host s) Hop (sys_world s)) as (evs & Hw & _).
      rewrite E in Hw. simpl in Hw. now rewrite Hw. }
    destruct op; try (apply Hlog; discriminate). clear Hlog.
    simpl in E. run_inv E. injection E as <- _ <-.
    revert Hm. unfold AddBroadcastPubSub.
    destruct (Host.pubs (sys_host s) !! topic) eqn:Hlookup; intros Hm.
    { injection Hm as <- <-. apply Hkeep. reflexivity. }
    run_inv Hm; try injection Hm as <- <-; calls_inv;
      try (apply Hkeep; reflexivity).
    match goal with
    | H : spawn _ _ = (Ret _, _) |- _ => unfold spawn in H; injection H as _ <-
    end.
    unfold topics_registered. simpl. rewrite map_app. simpl. split.
    + apply NoDup_app. split; [assumption|]. split; [|apply NoDup_singleton].
      intros t Ht Hin. apply list_elem_of_singleton in Hin as ->.
      rewrite Forall_forall in Hall. destruct (Hall _ Ht) as [x Hx].
      congruence.
    + apply Forall_app. split.
      * eapply Forall_impl; [exact Hall|]. intros t [x Hx].
        destruct (decide (topic = t)) as [->|Hne].
        -- rewrite lookup_insert_eq. eauto.
        -- rewrite lookup_insert_ne by assumption. eauto.
      * constructor; [|constructor]. rewrite lookup_insert_eq. eauto.
  - destruct (task_step (sys_host s) j (sys_world s)) as [[u|msg] w'] eqn:E;
      [right|now left].
    destruct (task_step_tasks (sys_host s) j (sys_world s)) as (f & Ht & Hf).
    rewrite E in Ht. simpl in Ht. unfold topics_registered. simpl.
    rewrite Ht, map_topic_alter by assumption. split; assumption.
  - destruct (installedHandler _ _) as [cb|]; [|right; split; assumption].
    pose proof (unicastStreamHandler_log_only pid cb stream (sys_world s)) as (evs & Hw & _).
    destruct (unicastStreamHandler _ _ _ _) as [[u|msg] w']; [right|now left].
    simpl in Hw. subst w'. split; assumption.
Qed.

Lemma run_topics_registered sched s :
  sys_crashed s = true \/ topics_registered s ->
  sys_crashed (run sched s) = true \/ topics_registered (run sched s).
Proof.
  revert s. induction sched as [|a sched IH]; intros s H; simpl; [assumption|].
  apply IH, step_topics_registered, H.
Qed.

End Shutdown.

(** C7, as the code has it.  [Close] closes the channel, which stays
    closed.  From then on every invocation of the broadcast callback of a
    topic uses up a task of that topic that was inside [sub.Next] or held
    an undelivered message; in a program that starts without tasks there
    is one task per topic, so the callback of a topic runs at most once
    more.  A task that is given three more steps has returned. *)
Theorem shutdown_after_Close `{L : Lib} :
  (forall h w h' e w', Close h w = (Ret (h', e), w') -> Host.close h' = true)
  /\ (forall sched s,
        Host.close (sys_host s) = true ->
        Host.close (sys_host (run sched s)) = true)
  /\ (forall t sched s,
        Host.close (sys_host s) = true ->
        (broadcast_callbacks t
           (new_events (sys_world s) (sys_world (run sched s)))
         <= pending t (tasks (sys_world s)))%nat)
  /\ (forall h w1 sched1 sched2 t,
        tasks w1 = [] ->
        let s := run sched1 (mkSys h w1 false) in
        Host.close (sys_host s) = true ->
        (broadcast_callbacks t
           (new_events (sys_world s) (sys_world (run sched2 s))) <= 1)%nat)
  /\ (forall i sched s task,
        Host.close (sys_host s) = true ->
        tasks (sys_world s) !! i = Some task ->
        sys_crashed (run sched s) = false ->
        (3 <= task_steps i sched)%nat ->
        pc_of i (sys_world (run sched s)) = Some Returned).
Proof.
  assert (Hbudget : forall t sched s,
        Host.close (sys_host s) = true ->
        (broadcast_callbacks t
           (new_events (sys_world s) (sys_world (run sched s)))
         <= pending t (tasks (sys_world s)))%nat).
  { intros t sched s Hclosed.
    destruct (run_within_budget t sched s Hclosed) as (evs & Hlog & Hb).
    unfold new_events. rewrite Hlog, drop_app_length. lia. }
  split; [|split; [|split; [|split]]].
  - intros h w h' e w' H. apply (Close_frame _ _ _ _ H).
  - intros sched s. apply run_closed.
  - exact Hbudget.
  - intros h w1 sched1 sched2 t Htasks s Hclosed. subst s.
    assert (Hinit : sys_crashed (mkSys h w1 false) = true
                    \/ topics_registered (mkSys h w1 false)).
    { right. unfold topics_registered. simpl. rewrite Htasks. simpl.
      split; constructor. }
    destruct (run_topics_registered sched1 _ Hinit) as [Hc|[Hnd _]].
    + rewrite (run_crashed sched2 _ Hc). unfold new_events.
      rewrite drop_all. simpl. lia.
    + etransitivity; [apply Hbudget, Hclosed|]. apply pending_le_1, Hnd.
  - intros i sched s task Hclosed Hi Hc Hsteps.
    destruct (run_distance sched s i task Hclosed Hi Hc) as (task' & Hi' & Hd).
    unfold pc_of. rewrite Hi'. simpl.
    destruct (task_pc task'), (task_pc task); simpl in Hd; try reflexivity; lia.
Qed.

(** ** Runs on the reference library *)


(** An error of [host.Connect] is returned as it is, after one attempt. *)
Example Connect_error_returned :
  let w := Reference.world
             (Reference.failing Reference.is_Connect "dial failed" Reference.env_ok) in
  (Connect Reference.host0 "/ip4/10.0.0.9/tcp/4001/ipfs/QmPeer" w).1
  = Ret (Some "dial failed")
  /\ map (fun ev => match ev with ECall _ e => e | _ => None end)
       (new_events w (Connect Reference.host0 "/ip4/10.0.0.9/tcp/4001/ipfs/QmPeer" w).2)
     = [None; None; Some "dial failed"].
Proof. vm_compute. split; reflexivity. Qed.

(** The error of the write on the stream is overwritten by the result of
    the deferred [stream.Close()]. *)
Example Unicast_write_error_overwritten :
  let w := Reference.world
             (Reference.failing Reference.is_Write "write failed" Reference.env_ok) in
  (Unicast Reference.host0 "/ip4/10.0.0.9/tcp/4001/ipfs/QmPeer" "tx" [x01] w).1
  = Ret None.
Proof. vm_compute. reflexivity. Qed.

(** What C4 says of [Unicast] leaves the result after a failed write open:
    on the log of a failed write followed by a successful close it holds of
    the result nil and of the write error alike. *)
Example Unicast_write_result_left_open :
  let evs := [ECall (stream_Write 5%nat [x01]) (Some "write failed");
              ECall (stream_Close 5%nat) None] in
  (passes_through_but is_stream_use evs None /\ from_a_call evs None)
  /\ (passes_through_but is_stream_use evs (Some "write failed")
      /\ from_a_call evs (Some "write failed")).
Proof.
  assert (Hpt : forall r,
    passes_through_but is_stream_use
      [ECall (stream_Write 5%nat [x01]) (Some "write failed");
       ECall (stream_Close 5%nat) None] r).
  { intros r [|[|i]] c e Hi Hskip; try discriminate Hi.
    injection Hi as <- _. discriminate Hskip. }
  cbv zeta. split; (split; [apply Hpt|]).
  - intros e [=].
  - intros e [= <-]. eexists. apply list_elem_of_here.
Qed.

(** C7: [Close] is called while the task of topic "blocks" holds a message
    it received from [sub.Next]; the next step of the task runs the
    callback on that message, after [Close]. *)
Lemma callback_runs_after_Close :
  let s := run Reference.close_during_delivery (Reference.sys0 Reference.env_ok) in
  Host.close (sys_host s) = true
  /\ sys_crashed s = false
  /\ new_events (sys_world s) (sys_world (run [ATask 0%nat] s))
     = [EHandleBroadcast "blocks" [x01; x02] None]
  /\ broadcast_callbacks "blocks"
       (new_events (sys_world s) (sys_world (run [ATask 0%nat] s))) = 1%nat.
Proof. vm_compute. repeat split; reflexivity. Qed.

Lemma shutdown_after_Close_witness :
  let s := run Reference.close_during_delivery (Reference.sys0 Reference.env_ok) in
  let sched := [ATask 0%nat; ACall (OpBroadcast "blocks" [x01]); ATask 0%nat; ATask 0%nat] in
  (broadcast_callbacks "blocks"
     (new_events (sys_world s) (sys_world (run sched s))) <= 1)%nat
  /\ pc_of 0%nat (sys_world (run sched s)) = Some Returned.
Proof.
  intros s sched.
  destruct (@shutdown_after_Close Reference.lib) as (_ & _ & _ & Hone & Hret).
  split.
  - apply (Hone Reference.host0 (Reference.world Reference.env_ok)
             Reference.close_during_delivery sched "blocks").
    + reflexivity.
    + vm_compute. reflexivity.
  - apply (Hret 0%nat sched s
             (mkTask "blocks" 4%nat Reference.cb_ok (InCallback [x01; x02]))).
    + vm_compute. reflexivity.
    + vm_compute. reflexivity.
    + vm_compute. reflexivity.
    + vm_compute. lia.
Defined.

Lemma registration_idempotent_witness :
  let w := Reference.world Reference.env_ok in
  AddUnicastPubSub Reference.host1 "blocks" (fun _ => Some "rejected") w
  = (Ret (Reference.host1, None), w)
  /\ AddBroadcastPubSub Reference.host1 "blocks" (fun _ => Some "rejected") w
     = (Ret (Reference.host1, None), w).
Proof.
  intros w.
  destruct (@registration_idempotent Reference.lib) as (HU & HB & _).
  split.
  - apply HU. vm_compute. eauto.
  - apply HB. vm_compute. eauto.
Defined.

Lemma Broadcast_unregistered_witness :
  let env := Reference.failing Scenario.is_Subscribe_tx "no subscription"
               Reference.env_ok in
  let sched := [ACall (OpAddBroadcastPubSub "blocks" Reference.cb_ok);
                ACall (OpAddBroadcastPubSub "tx" Reference.cb_ok);
                ACall (OpConnect "/ip4/10.0.0.9/tcp/4001/ipfs/QmPeer");
                ACall (OpBroadcast "blocks" [x01])] in
  let s := run sched (Reference.sys0 env) in
  forallb (fun a => negb (registers "tx" a)) sched = false
  /\ Host.pubs (sys_host s) !! "blocks" = Some 3%nat
  /\ Broadcast (sys_host s) "tx" [x02] (sys_world s) = (Ret None, sys_world s).
Proof.
  intros env sched s. split; [reflexivity|]. split; [vm_compute; reflexivity|].
  apply (Broadcast_unregistered 0%nat [] (Reference.world Reference.env_ok)
           Reference.host0 sched (Reference.world env) "tx" [x02]).
  - vm_compute. reflexivity.
  - vm_compute. reflexivity.
Defined.

Lemma Neighbors_entries_witness :
  (Neighbors Reference.host0 (Reference.world Reference.env_ok)).1
  = Ret (Ok ["10.0.0.1:4001"; "10.0.0.3:4003"])
  /\ exists peers infos,
       peers = ["QmA"; "QmB"; "QmC"]
       /\ Forall2 (locally_known Reference.host0
                     (Reference.world Reference.env_ok)
                     (Neighbors Reference.host0 (Reference.world Reference.env_ok)).2)
            peers infos
       /\ ["10.0.0.1:4001"; "10.0.0.3:4003"]
          = omap (fun info => spec_peerEntry (Addrs info)) infos.
Proof.
  assert (H : (Neighbors Reference.host0 (Reference.world Reference.env_ok)).1
              = Ret (Ok ["10.0.0.1:4001"; "10.0.0.3:4003"])).
  { vm_compute. reflexivity. }
  split; [exact H|].
  destruct (Neighbors_entries _ _ _ H) as (peers & infos & Hp & Hk & Hl & _).
  exists peers, infos. split; [|split; assumption].
  vm_compute in Hp. congruence.
Defined.


(** * Further properties of the code *)

(** ** What each step can log *)

Lemma logs_ret P {A} (a : A) : logs P (ret a).
Proof. intros w. exists []. rewrite app_nil_r. repeat split. constructor. Qed.

Lemma logs_panic P {A} msg : logs P (@panic A msg).
Proof. intros w. exists []. rewrite app_nil_r. repeat split. constructor. Qed.

Lemma logs_bind P {A B} (m : M A) (k : A -> M B) :
  logs P m -> (forall a, logs P (k a)) -> logs P (bind m k).
Proof.
  intros Hm Hk w. unfold bind. destruct (Hm w) as (evs & Hl & He & HP).
  destruct (m w) as [[a|msg] w1]; simpl in *.
  - destruct (Hk a w1) as (evs' & Hl' & He' & HP').
    exists (evs ++ evs'). rewrite Hl', Hl, He', He, app_assoc.
    repeat split. apply Forall_app. split; assumption.
  - exists evs. repeat split; assumption.
Qed.

Lemma logs_call `{L : Lib} (P : Event -> Prop) c :
  (forall e, P (ECall c e)) -> logs P (call c).
Proof.
  intros HP w. rewrite call_eq. simpl. eexists. repeat split.
  constructor; [apply HP|constructor].
Qed.

Lemma logs_emit (P : Event -> Prop) ev : P ev -> logs P (emit ev).
Proof.
  intros HP w. simpl. exists [ev]. repeat split. constructor; [assumption|constructor].
Qed.

Lemma logs_spawn P t : logs P (spawn t).
Proof. intros w. simpl. exists []. rewrite app_nil_r. repeat split. constructor. Qed.

Lemma logs_set_pc P i pc : logs P (set_pc i pc).
Proof. intros w. simpl. exists []. rewrite app_nil_r. repeat split. constructor. Qed.

(** Decompose a computation; what is left are the conditions on its
    calls. *)
Ltac logs_solve :=
  repeat
    match goal with
    | |- logs _ (ret _) => apply logs_ret
    | |- logs _ (panic _) => apply logs_panic
    | |- logs _ (call _) => apply logs_call; intros ?
    | |- logs _ (emit _) => apply logs_emit
    | |- logs _ (spawn _) => apply logs_spawn
    | |- logs _ (set_pc _ _) => apply logs_set_pc
    | |- logs _ (bind _ _) => apply logs_bind; [|intros ?]
    | |- logs _ (match ?x with _ => _ end) => destruct x
    end.

Ltac may_call_solve :=
  simpl;
  repeat match goal with
         | |- context [bool_decide (?x = ?x)] =>
             rewrite (bool_decide_eq_true_2 (x = x) eq_refl)
         end;
  first [reflexivity | exact I].

Section Footprint.
Context `{L : Lib}.

Lemma scanAddrs_logs op addrs acc :
  op = OpNeighbors -> logs (call_event (may_call op)) (scanAddrs addrs acc).
Proof.
  intros ->. revert acc. induction addrs as [|ma rest IH]; intros acc; simpl;
    logs_solve; first [apply IH | may_call_solve].
Qed.

Lemma scanPeers_logs h peers acc :
  logs (call_event (may_call OpNeighbors)) (scanPeers h peers acc).
Proof.
  revert acc. induction peers as [|peer rest IH]; intros acc; simpl;
    logs_solve;
    first [apply IH | apply scanAddrs_logs; reflexivity | may_call_solve].
Qed.

Lemma cancelAll_logs subs : logs (call_event (may_call OpClose)) (cancelAll subs).
Proof.
  induction subs as [|[t sub] rest IH]; simpl; logs_solve;
    first [assumption | may_call_solve].
Qed.

Lemma exec_logs op h : logs (call_event (may_call op)) (exec op h).
Proof.
  destruct op; simpl;
    unfold Connect, JoinOverlay, AddUnicastPubSub, AddBroadcastPubSub, Broadcast,
      Unicast, MultiAddress, Neighbors, Close, addrToMultiAddr;
    logs_solve;
    first [ apply scanPeers_logs | apply cancelAll_logs | may_call_solve ].
Qed.

Lemma task_step_logs h i : logs (step_event (ATask i)) (task_step h i).
Proof.
  intros w. unfold task_step.
  destruct (tasks w !! i) as [task|]; [|apply logs_ret].
  destruct (task_pc task).
  - destruct (Host.close h); apply logs_set_pc.
  - revert w. change (logs (step_event (ATask i))
      (bind (call (sub_Next (task_sub task) (Host.ctx h)))
         (fun r => match r with
                   | Ok msg => set_pc i (InCallback (Data msg))
                   | Err _ => set_pc i AtSelect
                   end))).
    logs_solve; exact I.
  - revert w. change (logs (step_event (ATask i))
      (bind (emit (EHandleBroadcast (task_topic task) data (task_callback task data)))
         (fun _ => set_pc i AtSelect))).
    logs_solve; exact I.
  - apply logs_ret.
Qed.

Lemma unicastStreamHandler_logs pid cb stream :
  logs (step_event (AStream pid stream)) (unicastStreamHandler pid cb stream).
Proof. unfold unicastStreamHandler. logs_solve; reflexivity. Qed.

Lemma step_logs a s :
  exists evs,
    log (sys_world (step a s)) = log (sys_world s) ++ evs
    /\ env (sys_world (step a s)) = env (sys_world s)
    /\ Forall (step_event a) evs.
Proof.
  assert (Hnone : exists evs, log (sys_world s) = log (sys_world s) ++ evs
                    /\ env (sys_world s) = env (sys_world s)
                    /\ Forall (step_event a) evs).
  { exists []. rewrite app_nil_r. repeat split. constructor. }
  unfold step. destruct (sys_crashed s); [exact Hnone|].
  destruct a as [op|i|pid stream].
  - pose proof (exec_logs op (sys_host s) (sys_world s)) as H.
    destruct (exec op (sys_host s) (sys_world s)) as [[[h' v]|msg] w']; exact H.
  - pose proof (task_step_logs (sys_host s) i (sys_world s)) as H.
    destruct (task_step _ _ _) as [[u|msg] w']; exact H.
  - destruct (installedHandler _ _) as [cb|]; [|exact Hnone].
    pose proof (unicastStreamHandler_logs pid cb stream (sys_world s)) as H.
    destruct (unicastStreamHandler _ _ _ _) as [[u|msg] w']; exact H.
Qed.

End Footprint.

(** ** NewHost in detail *)

Lemma clean_refl w : clean_run w w None.
Proof.
  exists []. rewrite app_nil_r, world_eta. repeat split; constructor.
Qed.

Lemma clean_trans w w1 w2 e :
  clean_run w w1 None -> clean_run w1 w2 e -> clean_run w w2 e.
Proof.
  intros (evs & -> & Hb & Hf) (evs' & -> & Hb' & He). simpl.
  exists (evs ++ evs'). rewrite app_assoc. split; [reflexivity|].
  split; [apply Forall_app; split; assumption|].
  destruct e as [err|].
  - destruct He as (pre & c & -> & Hpre). exists (evs ++ pre), c.
    rewrite app_assoc. split; [reflexivity|]. apply Forall_app. split; assumption.
  - apply Forall_app. split; assumption.
Qed.

Lemma clean_call `{L : Lib} c w a w' :
  call c w = (Ret a, w') -> clean_run w w' (err_of c a).
Proof.
  intros H. apply call_inv in H as [_ ->]. eexists. split; [reflexivity|].
  split; [repeat constructor|].
  destruct (err_of c a) as [err|]; [|repeat constructor].
  exists [], c. split; [reflexivity|constructor].
Qed.

Lemma error_free_quiet skip evs : Forall error_free evs -> Forall (quiet skip) evs.
Proof.
  intros H. eapply Forall_impl; [exact H|]. intros [c [e|]| |]; simpl; tauto.
Qed.

(** A clean run passes errors through: a failing call is the last one, and
    an error comes from the last call. *)
Lemma clean_passes_through w w' e :
  clean_run w w' e ->
  passes_through (new_events w w') e /\ from_last_call (new_events w w') e
  /\ tasks w' = tasks w /\ env w' = env w.
Proof.
  intros (evs & -> & _ & He). rewrite new_events_app. simpl.
  split; [|split; [|split; reflexivity]].
  - destruct e as [err|].
    + destruct He as (pre & c & -> & Hpre).
      apply pt_quiet_app; [now apply error_free_quiet|apply pt_last].
    + apply pt_quiet. now apply error_free_quiet.
  - intros err ->. destruct He as (pre & c & -> & _). exists c.
    apply last_snoc.
Qed.

Section NewHostDetail.
Context `{L : Lib}.

(** The run of [generateKeyPair]: one call of the key generator, on the
    source seeded from the address. *)
Lemma generateKeyPair_run addr w :
  let c := crypto_GenerateKeyPairWithReader crypto_Ed25519 2048
             (rand_New (rand_NewSource (seed_of_address addr))) in
  let r := lib_GenerateKeyPairWithReader crypto_Ed25519 2048
             (rand_New (rand_NewSource (seed_of_address addr))) in
  generateKeyPair addr w
  = (Ret r, mkWorld (log w ++ [ECall c (res_err r)]) (tasks w) (env w)).
Proof.
  cbv zeta. unfold generateKeyPair.
  destruct (seed_computed addr) as [-> Hr].
  unfold int64_of_uint64.
  destruct (Z.ltb_spec (seed_of_address addr) (2 ^ 63)); [|lia].
  rewrite call_eq. reflexivity.
Qed.

Lemma generateKeyPair_clean addr w r w' :
  generateKeyPair addr w = (Ret r, w') ->
  clean_run w w' (res_err r)
  /\ r = lib_GenerateKeyPairWithReader crypto_Ed25519 2048
           (rand_New (rand_NewSource (seed_of_address addr))).
Proof.
  rewrite generateKeyPair_run. intros [= <- <-]. split; [|reflexivity].
  apply (clean_call (crypto_GenerateKeyPairWithReader crypto_Ed25519 2048
                       (rand_New (rand_NewSource (seed_of_address addr)))) w).
  reflexivity.
Qed.

(** Turn the runs of calls in the context into clean runs and chain
    them. *)
Ltac clean_calls :=
  repeat match goal with
         | H : call ?c _ = (Ret _, _) |- _ => apply (clean_call c) in H; simpl in H
         | H : generateKeyPair _ _ = (Ret _, _) |- _ =>
             apply generateKeyPair_clean in H as [H _]; simpl in H
         | H : ret _ ?w = (Ret _, ?w') |- _ => unfold ret in H
         end.

Ltac clean_chain :=
  first [ eassumption
        | apply clean_refl
        | eapply clean_trans; [eassumption|clean_chain] ].

Lemma externalIdentity_clean cfg sk w r w' :
  externalIdentity cfg sk w = (Ret r, w') -> clean_run w w' (res_err r).
Proof.
  unfold externalIdentity. intros H.
  run_inv H; try injection H as <- <-; clean_calls; simpl; clean_chain.
Qed.

Lemma actualPort_clean cfg host w r w' :
  actualPort cfg host w = (Ret r, w') -> clean_run w w' (res_err r).
Proof.
  unfold actualPort. intros H.
  run_inv H; try injection H as <- <-; clean_calls; simpl; clean_chain.
Qed.

Lemma MultiAddress_clean h w s w' :
  MultiAddress h w = (Ret s, w') -> clean_run w w' None.
Proof.
  unfold MultiAddress. intros H.
  run_inv H; try injection H as <- <-; clean_calls; simpl; clean_chain.
Qed.

Lemma NewHost_clean ctx options w r w' :
  NewHost ctx options w = (Ret r, w') ->
  (exists e, apply_options options DefaultConfig = Err e /\ r = Err e /\ w' = w)
  \/ clean_run w w' (res_err r).
Proof.
  unfold NewHost. intros H.
  destruct (apply_options options DefaultConfig) as [cfg0|e] eqn:Hopt.
  2:{ left. injection H as <- <-. eauto. }
  right. run_inv H; try injection H as <- <-; clean_calls;
    repeat match goal with
           | H : externalIdentity _ _ _ = (Ret _, _) |- _ =>
               apply externalIdentity_clean in H; simpl in H
           | H : actualPort _ _ _ = (Ret _, _) |- _ =>
               apply actualPort_clean in H; simpl in H
           | H : MultiAddress _ _ = (Ret _, _) |- _ =>
               apply MultiAddress_clean in H
           end;
    simpl; clean_chain.
Qed.

Lemma NewHost_logs ctx options : logs (call_event NewHost_may_call) (NewHost ctx options).
Proof.
  unfold NewHost, externalIdentity, actualPort, MultiAddress.
  unfold generateKeyPair. cbv zeta. logs_solve; reflexivity.
Qed.

Lemma clean_run_prefix w w' e : clean_run w w' e -> log w `prefix_of` log w' /\ env w' = env w.
Proof. intros (evs & -> & _). simpl. split; [eexists|]; reflexivity. Qed.

(** An event logged in the middle of a clean run is among the new
    events. *)
Lemma event_in_new_events ev w w2 w3 w' e :
  clean_run w w2 None -> log w3 = log w2 ++ [ev] -> clean_run w3 w' e ->
  ev ∈ new_events w w'.
Proof.
  intros (evs & -> & _) Hlog (evs' & -> & _). simpl in Hlog.
  unfold new_events. simpl. rewrite Hlog, <- !app_assoc, drop_app_length.
  apply elem_of_app. right. apply elem_of_app. left.
  apply list_elem_of_singleton. reflexivity.
Qed.

Lemma externalIdentity_Ok cfg sk w sk' ext w' :
  externalIdentity cfg sk w = (Ret (Ok (sk', ext)), w') ->
  (Config.ExternalHostName cfg = "" /\ sk' = sk /\ ext = None)
  \/ (Config.ExternalHostName cfg <> ""
      /\ exists extIP pk ma,
           answer w (EnsureIPv4 (Config.ExternalHostName cfg)) = Ok extIP
           /\ lib_GenerateKeyPairWithReader crypto_Ed25519 2048
                (rand_New (rand_NewSource
                   (seed_of_address (Sprintf_addr extIP (Config.ExternalPort cfg)))))
              = Ok (sk', pk)
           /\ lib_NewMultiaddr (Sprintf_ip4_tcp extIP (Config.ExternalPort cfg)) = Ok ma
           /\ ext = Some ma).
Proof.
  unfold externalIdentity. intros H.
  destruct (decide (Config.ExternalHostName cfg = "")) as [He|Hne].
  - left. injection H as <- <- _. auto.
  - right. split; [assumption|].
    run_inv H; try discriminate H. injection H as <- <- _.
    apply (call_inv (EnsureIPv4 _)) in Hm as [Hip ->].
    apply generateKeyPair_clean in Hm0 as [_ Hkp].
    apply (call_inv (multiaddr_NewMultiaddr _)) in Hm1 as [Hma _].
    destruct a2 as [k pk]. simpl. do 3 eexists.
    split; [symmetry; exact Hip|]. split; [symmetry; exact Hkp|].
    split; [symmetry; exact Hma|reflexivity].
Qed.

Lemma actualPort_Ok cfg host w cfg' w' :
  actualPort cfg host w = (Ret (Ok cfg'), w') ->
  (Config.Port cfg <> 0 /\ cfg' = cfg)
  \/ (Config.Port cfg = 0
      /\ exists addr rest portStr,
           answer w (host_Addrs host) = addr :: rest
           /\ lib_ValueForProtocol addr multiaddr_P_TCP = Ok portStr
           /\ cfg' = with_Port cfg (Atoi portStr).1).
Proof.
  unfold actualPort. intros H.
  destruct (decide (Config.Port cfg = 0)) as [He|Hne].
  - right. split; [assumption|].
    run_inv H; try discriminate H. injection H as <- _.
    apply (call_inv (host_Addrs _)) in Hm as [Haddrs ->].
    apply (call_inv (ma_ValueForProtocol _ _)) in Hm0 as [Hvfp _].
    do 3 eexists. split; [symmetry; exact Haddrs|].
    split; [symmetry; exact Hvfp|reflexivity].
  - left. injection H as <- _. auto.
Qed.

Lemma libp2pOptions_facts cfg ip sk ext :
  let opts := libp2pOptions cfg ip sk ext in
  (libp2p_NoSecurity ∈ opts <-> Config.SecureIO cfg = false)
  /\ (forall d, libp2p_Transport d ∈ opts <-> d = Config.ConnectTimeout cfg)
  /\ (forall k, libp2p_Identity k ∈ opts <-> k = sk)
  /\ (forall s, libp2p_ListenAddrStrings s ∈ opts
                <-> s = Sprintf_ip4_tcp ip (Config.Port cfg))
  /\ (forall f, libp2p_AddrsFactory f ∈ opts ->
        forall addrs, f addrs = addrs ++ option_list ext).
Proof.
  cbv zeta. unfold libp2pOptions.
  assert (Hin : forall (o : libp2p_Option),
            o ∈ [ libp2p_ListenAddrStrings (Sprintf_ip4_tcp ip (Config.Port cfg));
                  libp2p_AddrsFactory (addrsFactory ext);
                  libp2p_Identity sk;
                  libp2p_Transport (Config.ConnectTimeout cfg);
                  libp2p_Muxer "/yamux/2.0.0";
                  libp2p_EnableRelay;
                  libp2p_NATPortMap ]
                ++ (if Config.SecureIO cfg then [] else [libp2p_NoSecurity])
            <-> o = libp2p_ListenAddrStrings (Sprintf_ip4_tcp ip (Config.Port cfg))
                \/ o = libp2p_AddrsFactory (addrsFactory ext)
                \/ o = libp2p_Identity sk
                \/ o = libp2p_Transport (Config.ConnectTimeout cfg)
                \/ o = libp2p_Muxer "/yamux/2.0.0"
                \/ o = libp2p_EnableRelay
                \/ o = libp2p_NATPortMap
                \/ (o = libp2p_NoSecurity /\ Config.SecureIO cfg = false)).
  { intros o. rewrite elem_of_app, !elem_of_cons, elem_of_nil.
    destruct (Config.SecureIO cfg).
    - rewrite elem_of_nil. intuition congruence.
    - rewrite list_elem_of_singleton. intuition congruence. }
  repeat split.
  - intros H. apply Hin in H. intuition congruence.
  - intros H. apply Hin. tauto.
  - intros H. apply Hin in H. intuition congruence.
  - intros ->. apply Hin. tauto.
  - intros H. apply Hin in H. intuition congruence.
  - intros ->. apply Hin. tauto.
  - intros H. apply Hin in H. intuition congruence.
  - intros ->. apply Hin. tauto.
  - intros f H addrs. apply Hin in H.
    assert (Hf : f = addrsFactory ext) by intuition congruence.
    subst f. unfold addrsFactory. destruct ext; simpl; [reflexivity|].
    now rewrite app_nil_r.
Qed.

(** What a successful [NewHost] did, put together. *)
Lemma NewHost_detail ctx options w h w' :
  NewHost ctx options w = (Ret (Ok h), w') ->
  exists cfg0 ip sk0 pk0 sk ext w5,
    apply_options options DefaultConfig = Ok cfg0
    /\ answer w (EnsureIPv4 (Config.HostName cfg0)) = Ok ip
    /\ lib_GenerateKeyPairWithReader crypto_Ed25519 2048
         (rand_New (rand_NewSource
            (seed_of_address (Sprintf_addr ip (Config.Port cfg0))))) = Ok (sk0, pk0)
    /\ (exists w1 w2, clean_run w w1 None
                      /\ externalIdentity cfg0 sk0 w1 = (Ret (Ok (sk, ext)), w2))
    /\ ECall (libp2p_New ctx (libp2pOptions cfg0 ip sk ext)) None ∈ new_events w w'
    /\ clean_run w w5 None
    /\ (exists w6, actualPort cfg0 (Host.host h) w5 = (Ret (Ok (Host.cfg h)), w6)).
Proof.
  unfold NewHost. intros H.
  destruct (apply_options options DefaultConfig) as [cfg0|e] eqn:Hopt;
    [|discriminate H].
  run_inv H; try discriminate H. injection H as <- <-.
  pose proof Hm as Hip. apply (call_inv (EnsureIPv4 _)) in Hip as [Hip _].
  pose proof Hm0 as Hkp. apply generateKeyPair_clean in Hkp as [_ Hkp].
  destruct a2 as [sk0 pk0]. destruct a4 as [sk ext]. simpl in *.
  pose proof Hm1 as Hext. pose proof Hm5 as Hport.
  assert (Hnew : log w3 = log w2 ++ [ECall (libp2p_New ctx
                   (libp2pOptions cfg0 a0 sk ext)) None]).
  { apply (call_inv (libp2p_New _ _)) in Hm2 as [_ ->]. reflexivity. }
  clean_calls.
  apply externalIdentity_clean in Hm1. apply actualPort_clean in Hm5.
  apply MultiAddress_clean in Hm7. simpl in *.
  exists cfg0, a0, sk0, pk0, sk, ext, w5.
  split; [reflexivity|]. split; [now rewrite Hip|]. split; [now rewrite Hkp|].
  split; [exists w1, w2; split; [clean_chain|exact Hext]|].
  split; [|split; [clean_chain|eexists; exact Hport]].
  apply (event_in_new_events _ w w2 w3 w8 None); [clean_chain|exact Hnew|clean_chain].
Qed.

End NewHostDetail.

(** ** Options *)


Lemma builtin_step o cfg :
  builtin o ->
  exists cfg',
    o cfg = (cfg', None)
    /\ Config.ConnectTimeout cfg' = Config.ConnectTimeout cfg
    /\ (Config.Gossip cfg = true -> Config.Gossip cfg' = true)
    /\ (Config.SecureIO cfg = true -> Config.SecureIO cfg' = true).
Proof.
  intros []; eexists; (split; [reflexivity|]); simpl; auto.
Qed.

Lemma builtin_options_ok options cfg :
  Forall builtin options ->
  exists cfg',
    apply_options options cfg = Ok cfg'
    /\ Config.ConnectTimeout cfg' = Config.ConnectTimeout cfg
    /\ (Config.Gossip cfg = true -> Config.Gossip cfg' = true)
    /\ (Config.SecureIO cfg = true -> Config.SecureIO cfg' = true).
Proof.
  intros Hall. revert cfg. induction Hall as [|o l Ho _ IH]; intros cfg; simpl.
  - exists cfg. auto.
  - destruct (builtin_step o cfg Ho) as (cfg1 & -> & Ht & Hg & Hs).
    destruct (IH cfg1) as (cfg' & -> & Ht' & Hg' & Hs').
    exists cfg'. split; [reflexivity|]. split; [congruence|]. auto.
Qed.



(** ** NewHost: errors, libp2p options, stored configuration *)

Section NewHostTheorems.
Context `{L : Lib}.

(** X2.  [NewHost] passes errors through in a single level: when it returns,
    a library call that failed is the last call it made and its error is
    the result, and an error it returns is that of an option or of the last
    call.  It calls nothing but address resolution, key generation, the
    multiaddress parser and accessor, [libp2p.New], [dht.New], the CID
    builder and [host.Addrs]: in particular it closes neither the host nor
    the DHT it created when a later step fails.  It starts no task. *)
Theorem NewHost_passes_errors_through ctx options w r :
  (NewHost ctx options w).1 = Ret r ->
  let evs := new_events w (NewHost ctx options w).2 in
  passes_through evs (res_err r)
  /\ (forall e, res_err r = Some e ->
        (apply_options options DefaultConfig = Err e /\ evs = [])
        \/ exists c, last evs = Some (ECall c (Some e)))
  /\ Forall (call_event NewHost_may_call) evs
  /\ tasks (NewHost ctx options w).2 = tasks w.
Proof.
  intros H evs. subst evs.
  destruct (NewHost_logs ctx options w) as (evs & Hlog & _ & Hfoot).
  apply fst_eq_inv in H as [w' H]. rewrite H in *. simpl in *.
  assert (Hevs : new_events w w' = evs).
  { unfold new_events. rewrite Hlog. apply drop_app_length. }
  destruct (NewHost_clean _ _ _ _ _ H) as [(e & Hopt & -> & ->)|Hclean].
  - assert (Hnil : new_events w w = []) by (unfold new_events; apply drop_all).
    rewrite Hnil. split; [apply pt_quiet; constructor|].
    split; [|split; [constructor|reflexivity]].
    intros e' [= <-]. left. split; [assumption|reflexivity].
  - destruct (clean_passes_through _ _ _ Hclean) as (Hpt & Hflc & Ht & _).
    split; [assumption|]. split; [|split; [now rewrite Hevs|assumption]].
    intros e He. right. apply Hflc, He.
Qed.

(** X3.  A successful [NewHost] calls [libp2p.New] with options that follow
    the configuration the options produced: the listen address is
    "/ip4/<ip>/tcp/<Port>" for the resolved host name; [NoSecurity] is
    passed exactly when [SecureIO] is off; the transport gets the
    [ConnectTimeout] field.  Without an external host name the identity key
    is the one generated from "<ip>:<Port>" and advertised addresses are
    left as they are; with one, the key is generated from
    "<extIP>:<ExternalPort>" and the address factory appends
    "/ip4/<extIP>/tcp/<ExternalPort>". *)
Theorem NewHost_configures_libp2p ctx options w h :
  (NewHost ctx options w).1 = Ret (Ok h) ->
  exists cfg0 ip sk ext,
    let opts := libp2pOptions cfg0 ip sk ext in
    apply_options options DefaultConfig = Ok cfg0
    /\ answer w (EnsureIPv4 (Config.HostName cfg0)) = Ok ip
    /\ ECall (libp2p_New ctx opts) None ∈ new_events w (NewHost ctx options w).2
    /\ (forall s, libp2p_ListenAddrStrings s ∈ opts
                  <-> s = Sprintf_ip4_tcp ip (Config.Port cfg0))
    /\ (libp2p_NoSecurity ∈ opts <-> Config.SecureIO cfg0 = false)
    /\ (forall d, libp2p_Transport d ∈ opts <-> d = Config.ConnectTimeout cfg0)
    /\ (forall k, libp2p_Identity k ∈ opts <-> k = sk)
    /\ (forall f, libp2p_AddrsFactory f ∈ opts ->
          forall addrs, f addrs = addrs ++ option_list ext)
    /\ (Config.ExternalHostName cfg0 = "" ->
        ext = None
        /\ exists pk,
             lib_GenerateKeyPairWithReader crypto_Ed25519 2048
               (rand_New (rand_NewSource
                  (seed_of_address (Sprintf_addr ip (Config.Port cfg0)))))
             = Ok (sk, pk))
    /\ (Config.ExternalHostName cfg0 <> "" ->
        exists w1 extIP pk ma,
          env w1 = env w /\ log w `prefix_of` log w1
          /\ answer w1 (EnsureIPv4 (Config.ExternalHostName cfg0)) = Ok extIP
          /\ lib_GenerateKeyPairWithReader crypto_Ed25519 2048
               (rand_New (rand_NewSource
                  (seed_of_address (Sprintf_addr extIP (Config.ExternalPort cfg0)))))
             = Ok (sk, pk)
          /\ lib_NewMultiaddr (Sprintf_ip4_tcp extIP (Config.ExternalPort cfg0)) = Ok ma
          /\ ext = Some ma).
Proof.
  intros H. apply fst_eq_inv in H as [w' H]. rewrite H. simpl.
  destruct (NewHost_detail _ _ _ _ _ H)
    as (cfg0 & ip & sk0 & pk0 & sk & ext & w5 & Hopt & Hip & Hkp
        & (w1 & w2 & Hc1 & Hext) & Hin & _).
  exists cfg0, ip, sk, ext. cbv zeta.
  destruct (libp2pOptions_facts cfg0 ip sk ext) as (Hns & Htr & Hid & Hls & Hf).
  destruct (clean_run_prefix _ _ _ Hc1) as [Hpre Henv].
  apply externalIdentity_Ok in Hext as [(He & -> & ->)|(Hne & extIP & pk & ma & H1 & H2 & H3 & ->)].
  - repeat (split; [assumption|]). split.
    + intros _. split; [reflexivity|]. exists pk0. assumption.
    + intros Hne. contradiction.
  - repeat (split; [assumption|]). split.
    + intros He. contradiction.
    + intros _. exists w1, extIP, pk, ma. auto 10.
Qed.

(** X4.  The configuration a successful [NewHost] stores is the one the
    options produced, except that a port 0 is replaced by what
    [strconv.Atoi] returns for the TCP component of the first address the
    new host reports (0 again when that does not parse).  [Address] is
    "<HostName>:<Port>" of the stored configuration. *)
Theorem NewHost_stores_configuration ctx options w h :
  (NewHost ctx options w).1 = Ret (Ok h) ->
  exists cfg0,
    apply_options options DefaultConfig = Ok cfg0
    /\ (Config.Port cfg0 <> 0 -> Host.cfg h = cfg0)
    /\ (Config.Port cfg0 = 0 ->
        exists w1 addr rest portStr,
          env w1 = env w /\ log w `prefix_of` log w1
          /\ answer w1 (host_Addrs (Host.host h)) = addr :: rest
          /\ lib_ValueForProtocol addr multiaddr_P_TCP = Ok portStr
          /\ Host.cfg h = with_Port cfg0 (Atoi portStr).1)
    /\ Address h = Sprintf_addr (Config.HostName cfg0) (Config.Port (Host.cfg h)).
Proof.
  intros H. apply fst_eq_inv in H as [w' H].
  destruct (NewHost_detail _ _ _ _ _ H)
    as (cfg0 & ip & sk0 & pk0 & sk & ext & w5 & Hopt & _ & _ & _ & _ & Hc5
        & (w6 & Hport)).
  exists cfg0. split; [assumption|].
  destruct (clean_run_prefix _ _ _ Hc5) as [Hpre Henv].
  unfold Address.
  destruct (actualPort_Ok _ _ _ _ _ Hport)
    as [(Hne & Hcfg)|(He & addr & rest & portStr & H1 & H2 & Hcfg)];
    rewrite Hcfg.
  - split; [reflexivity|]. split; [contradiction|reflexivity].
  - split; [contradiction|]. split; [|reflexivity].
    intros _. exists w5, addr, rest, portStr. auto 10.
Qed.

(** X5.  Whatever options of the package are passed, a successful
    [NewHost] gives the TCP transport the default connect timeout of one
    minute: no option changes the [ConnectTimeout] field. *)
Theorem NewHost_timeout_is_default ctx options w h :
  Forall builtin options ->
  (NewHost ctx options w).1 = Ret (Ok h) ->
  Config.ConnectTimeout (Host.cfg h) = time_Minute
  /\ exists opts,
       ECall (libp2p_New ctx opts) None ∈ new_events w (NewHost ctx options w).2
       /\ forall d, libp2p_Transport d ∈ opts <-> d = time_Minute.
Proof.
  intros Hall H. apply fst_eq_inv in H as [w' H]. rewrite H. simpl.
  destruct (NewHost_detail _ _ _ _ _ H)
    as (cfg0 & ip & sk0 & pk0 & sk & ext & w5 & Hopt & _ & _ & _ & Hin & _
        & (w6 & Hport)).
  destruct (builtin_options_ok options DefaultConfig Hall) as (cfg1 & Hopt1 & Ht & _).
  rewrite Hopt in Hopt1. injection Hopt1 as <-.
  change (Config.ConnectTimeout DefaultConfig) with time_Minute in Ht.
  split.
  - destruct (actualPort_Ok _ _ _ _ _ Hport)
      as [(_ & Hcfg)|(_ & addr & rest & portStr & _ & _ & Hcfg)];
      rewrite Hcfg; simpl; assumption.
  - exists (libp2pOptions cfg0 ip sk ext). split; [assumption|].
    destruct (libp2pOptions_facts cfg0 ip sk ext) as (_ & Htr & _).
    intros d. rewrite (Htr d), Ht. reflexivity.
Qed.

End NewHostTheorems.

Lemma NewHost_passes_errors_through_witness :
  let w := Reference.world
             (Reference.failing Scenario.is_dht_New "no dht" Reference.env_ok) in
  (NewHost 0%nat [] w).1 = Ret (Err "no dht")
  /\ passes_through (new_events w (NewHost 0%nat [] w).2) (Some "no dht")
  /\ Forall (call_event NewHost_may_call) (new_events w (NewHost 0%nat [] w).2).
Proof.
  intros w.
  assert (H : (NewHost 0%nat [] w).1 = Ret (Err "no dht")) by (vm_compute; reflexivity).
  split; [exact H|].
  pose proof (NewHost_passes_errors_through 0%nat [] w (Err "no dht") H) as Hthm.
  cbv zeta in Hthm. destruct Hthm as (Hpt & _ & Hfoot & _).
  split; assumption.
Defined.

Lemma NewHost_configures_libp2p_witness :
  exists cfg0 ip sk ext,
    apply_options [ExternalHostName "1.2.3.4"; SecureIO] DefaultConfig = Ok cfg0
    /\ ECall (libp2p_New 0%nat (libp2pOptions cfg0 ip sk ext)) None
       ∈ new_events (Reference.world Reference.env_ok)
           (NewHost 0%nat [ExternalHostName "1.2.3.4"; SecureIO]
              (Reference.world Reference.env_ok)).2
    /\ (libp2p_NoSecurity ∈ libp2pOptions cfg0 ip sk ext
        <-> Config.SecureIO cfg0 = false).
Proof.
  destruct (NewHost_configures_libp2p 0%nat [ExternalHostName "1.2.3.4"; SecureIO]
              (Reference.world Reference.env_ok) Scenario.host_external)
    as (cfg0 & ip & sk & ext & Hopt & _ & Hin & _ & Hns & _).
  - vm_compute. reflexivity.
  - exists cfg0, ip, sk, ext. split; [assumption|]. split; assumption.
Defined.

Lemma NewHost_stores_configuration_witness :
  exists cfg0,
    apply_options [Port 0] DefaultConfig = Ok cfg0
    /\ Address Scenario.host_port0
       = Sprintf_addr (Config.HostName cfg0) (Config.Port (Host.cfg Scenario.host_port0))
    /\ Config.Port (Host.cfg Scenario.host_port0) = 30001.
Proof.
  destruct (NewHost_stores_configuration 0%nat [Port 0]
              (Reference.world Reference.env_ok) Scenario.host_port0)
    as (cfg0 & Hopt & _ & _ & Haddr).
  - vm_compute. reflexivity.
  - exists cfg0. split; [assumption|]. split; [assumption|reflexivity].
Defined.

Lemma NewHost_timeout_is_default_witness :
  Config.ConnectTimeout (Host.cfg Scenario.host_timeout) = time_Minute
  /\ (NewHost 0%nat [ConnectTimeout (5 * time_Second)]
        (Reference.world Reference.env_ok)).1 = Ret (Ok Scenario.host_timeout).
Proof.
  assert (H : (NewHost 0%nat [ConnectTimeout (5 * time_Second)]
                 (Reference.world Reference.env_ok)).1
              = Ret (Ok Scenario.host_timeout)) by (vm_compute; reflexivity).
  split; [|exact H].
  apply (NewHost_timeout_is_default 0%nat [ConnectTimeout (5 * time_Second)]
           (Reference.world Reference.env_ok) Scenario.host_timeout); [|exact H].
  repeat constructor.
Defined.

(** ** Footprint of a step *)

(** X6.  Each step logs only what belongs to it.  An operation of the API
    makes only its own library calls and runs no user callback: broadcast
    callbacks run in task steps only, unicast callbacks in the handler of
    an inbound stream of their protocol only; a stream handler is
    installed by [AddUnicastPubSub] only, for its own topic; [Publish] is
    called by [Broadcast] only, on its own topic; the host, the DHT and
    the subscriptions are closed or cancelled by [Close] only. *)
Theorem step_footprint `{L : Lib} a s :
  let evs := new_events (sys_world s) (sys_world (step a s)) in
  Forall (step_event a) evs
  /\ (forall t data e, EHandleBroadcast t data e ∈ evs -> exists i, a = ATask i)
  /\ (forall t data e, EHandleUnicast t data e ∈ evs ->
        exists stream, a = AStream t stream)
  /\ (forall hh pid cb e, ECall (host_SetStreamHandler hh pid cb) e ∈ evs ->
        exists cb', a = ACall (OpAddUnicastPubSub pid cb'))
  /\ (forall p t data e, ECall (pub_Publish p t data) e ∈ evs ->
        exists data', a = ACall (OpBroadcast t data'))
  /\ (forall c e, ECall c e ∈ evs ->
        match c with
        | host_Close _ | kad_Close _ | sub_Cancel _ => a = ACall OpClose
        | _ => True
        end).
Proof.
  intros evs.
  assert (Hall : Forall (step_event a) evs).
  { subst evs. destruct (step_logs a s) as (evs & Hlog & _ & H).
    unfold new_events. now rewrite Hlog, drop_app_length. }
  split; [exact Hall|]. rewrite Forall_forall in Hall.
  repeat split.
  - intros t data e Hin. apply Hall in Hin. destruct a; simpl in Hin; try contradiction.
    eauto.
  - intros t data e Hin. apply Hall in Hin. destruct a; simpl in Hin; try contradiction.
    subst. eauto.
  - intros hh pid cb e Hin. apply Hall in Hin.
    destruct a as [op| |]; simpl in Hin; try contradiction.
    destruct op; simpl in Hin; try discriminate.
    apply bool_decide_eq_true in Hin. subst. eauto.
  - intros p t data e Hin. apply Hall in Hin.
    destruct a as [op| |]; simpl in Hin; try contradiction.
    destruct op; simpl in Hin; try discriminate.
    apply bool_decide_eq_true in Hin. subst. eauto.
  - intros c e Hin. apply Hall in Hin.
    destruct c; try exact I;
      (destruct a as [op| |]; simpl in Hin; try contradiction;
       destruct op; simpl in Hin; try discriminate; reflexivity).
Qed.

Lemma step_footprint_witness :
  let s := run Reference.close_during_delivery (Reference.sys0 Reference.env_ok) in
  EHandleBroadcast "blocks" [x01; x02] None
  ∈ new_events (sys_world s) (sys_world (step (ATask 0%nat) s))
  /\ exists i, ATask 0%nat = ATask i.
Proof.
  intros s.
  assert (Hin : EHandleBroadcast "blocks" [x01; x02] None
                ∈ new_events (sys_world s) (sys_world (step (ATask 0%nat) s))).
  { vm_compute. apply list_elem_of_here. }
  split; [exact Hin|].
  pose proof (@step_footprint Reference.lib (ATask 0%nat) s) as H. cbv zeta in H.
  destruct H as (_ & Hb & _). apply (Hb _ _ _ Hin).
Defined.

(** ** Close *)

Section CloseProperties.
Context `{L : Lib}.

Lemma cancelAll_run subs w :
  cancelAll subs w
  = (Ret tt,
     mkWorld (log w ++ map (fun p : string * Subscription =>
                              ECall (sub_Cancel p.2) None) subs)
       (tasks w) (env w)).
Proof.
  revert w. induction subs as [|[t sub] rest IH]; intros w; simpl.
  - unfold ret. now rewrite app_nil_r, world_eta.
  - unfold bind. rewrite call_eq, IH. simpl. now rewrite <- app_assoc.
Qed.

(** The run of [Close] on a host whose close channel is open. *)
Lemma Close_eq h w :
  Host.close h = false ->
  exists ek eh,
    Close h w
    = (Ret (closed h, match ek with Some e => Some e | None => eh end),
       mkWorld
         (log w ++ cancels h ++ ECall (kad_Close (Host.kad h)) ek
            :: match ek with
               | Some _ => []
               | None => [ECall (host_Close (Host.host h)) eh]
               end)
         (tasks w) (env w)).
Proof.
  intros Hopen. unfold Close. rewrite Hopen. unfold bind.
  rewrite cancelAll_run. rewrite call_eq. cbn [log tasks env].
  fold (cancels h).
  destruct (answer _ (kad_Close (Host.kad h))) as [e|].
  - exists (Some e), None. unfold ret, closed. simpl.
    now rewrite <- app_assoc.
  - rewrite call_eq. cbn [log tasks env].
    match goal with
    | |- context [answer ?w2 (host_Close ?hh)] =>
        exists None, (answer w2 (host_Close hh));
        destruct (answer w2 (host_Close hh))
    end; unfold ret, closed; simpl; now rewrite <- !app_assoc.
Qed.

Lemma Close_run h w :
  Host.close h = false ->
  exists ek eh,
    (Close h w).1
    = Ret (closed h, match ek with Some e => Some e | None => eh end)
    /\ new_events w (Close h w).2
       = cancels h ++ ECall (kad_Close (Host.kad h)) ek
           :: match ek with
              | Some _ => []
              | None => [ECall (host_Close (Host.host h)) eh]
              end.
Proof.
  intros Hopen. destruct (Close_eq h w Hopen) as (ek & eh & ->).
  exists ek, eh. simpl. split; [reflexivity|apply new_events_app].
Qed.

Lemma step_Close s :
  sys_crashed (step (ACall OpClose) s) = true
  \/ Host.close (sys_host (step (ACall OpClose) s)) = true.
Proof.
  unfold step. destruct (sys_crashed s) eqn:Hc; [left; exact Hc|].
  simpl. unfold bind.
  destruct (Close (sys_host s) (sys_world s)) as [[[h' e]|msg] w'] eqn:E; simpl.
  - right. apply (Close_frame _ _ _ _ E).
  - left. reflexivity.
Qed.

Lemma step_Close_closed s :
  Host.close (sys_host s) = true -> sys_crashed (step (ACall OpClose) s) = true.
Proof.
  intros Hclosed. unfold step. destruct (sys_crashed s) eqn:Hc; [exact Hc|].
  simpl. unfold bind, Close. rewrite Hclosed. reflexivity.
Qed.

Lemma step_stays_crashed a s :
  sys_crashed s = true -> sys_crashed (step a s) = true.
Proof. intros Hc. unfold step. now rewrite Hc. Qed.

Lemma run_app l1 l2 s : run (l1 ++ l2) s = run l2 (run l1 s).
Proof. revert s. induction l1 as [|a l1 IH]; intros s; simpl; [reflexivity|apply IH]. Qed.

Lemma run_stays_crashed sched s :
  sys_crashed s = true -> sys_crashed (run sched s) = true.
Proof. intros Hc. now rewrite run_crashed. Qed.

Lemma run_crashed_or_closed sched s :
  sys_crashed s = true \/ Host.close (sys_host s) = true ->
  sys_crashed (run sched s) = true \/ Host.close (sys_host (run sched s)) = true.
Proof.
  intros [Hc|Hclosed].
  - left. now apply run_stays_crashed.
  - right. now apply run_closed.
Qed.

(** X7.  [Close] on a host that is already closed panics at once, before
    any library call.  Otherwise it closes the channel, cancels every
    subscription, then closes the DHT and, only when that succeeded, the
    libp2p host; it returns the first error and keeps every registration.
    When [kad.Close] fails the libp2p host is left open. *)
Theorem Close_behaviour h w :
  (Host.close h = true -> Close h w = (Panic "close of closed channel", w))
  /\ (Host.close h = false ->
      exists ek eh,
        (Close h w).1
        = Ret (closed h, match ek with Some e => Some e | None => eh end)
        /\ new_events w (Close h w).2
           = cancels h ++ ECall (kad_Close (Host.kad h)) ek
               :: match ek with
                  | Some _ => []
                  | None => [ECall (host_Close (Host.host h)) eh]
                  end
        /\ (forall t sub, Host.subs h !! t = Some sub ->
              ECall (sub_Cancel sub) None ∈ cancels h)
        /\ length (cancels h) = size (Host.subs h)).
Proof.
  split.
  - intros Hclosed. unfold Close. now rewrite Hclosed.
  - intros Hopen. destruct (Close_run h w Hopen) as (ek & eh & Hr & Hev).
    exists ek, eh. split; [assumption|]. split; [assumption|]. split.
    + intros t sub Hsub. unfold cancels.
      apply list_elem_of_In, in_map_iff. exists (t, sub). split; [reflexivity|].
      apply list_elem_of_In, elem_of_map_to_list. assumption.
    + unfold cancels. rewrite length_map. apply length_map_to_list.
Qed.

(** X8.  A process calls [Close] at most once: whatever else happens
    before, between and after, a schedule with two calls of [Close] ends
    in a panic. *)
Theorem Close_twice_panics sched1 sched2 sched3 s :
  sys_crashed
    (run (sched1 ++ ACall OpClose :: sched2 ++ ACall OpClose :: sched3) s) = true.
Proof.
  rewrite run_app. change (run (?a :: ?l) ?s) with (run l (step a s)).
  rewrite run_app. change (run (?a :: ?l) ?s) with (run l (step a s)).
  apply run_stays_crashed.
  destruct (run_crashed_or_closed sched2 _ (step_Close (run sched1 s))) as [Hc|Hclosed].
  - now apply step_stays_crashed.
  - now apply step_Close_closed.
Qed.

End CloseProperties.


Lemma Close_behaviour_witness :
  Host.close Scenario.host_two_topics = false
  /\ (exists ek eh,
        (Close Scenario.host_two_topics (Reference.world Reference.env_ok)).1
        = Ret (closed Scenario.host_two_topics,
               match ek with Some e => Some e | None => eh end)
        /\ length (cancels Scenario.host_two_topics) = 2%nat)
  /\ Host.close (closed Scenario.host_two_topics) = true
  /\ Close (closed Scenario.host_two_topics) (Reference.world Reference.env_ok)
     = (Panic "close of closed channel", Reference.world Reference.env_ok).
Proof.
  split; [reflexivity|]. split.
  - destruct (@Close_behaviour Reference.lib Scenario.host_two_topics
                (Reference.world Reference.env_ok)) as (_ & Hopen).
    destruct (Hopen eq_refl) as (ek & eh & Hr & _ & _ & Hlen).
    exists ek, eh. split; [exact Hr|]. rewrite Hlen. vm_compute. reflexivity.
  - split; [reflexivity|].
    destruct (@Close_behaviour Reference.lib (closed Scenario.host_two_topics)
                (Reference.world Reference.env_ok)) as (Hclosed & _).
    apply Hclosed. reflexivity.
Defined.


(** ** What can panic *)

Section Returns.
Context `{L : Lib}.





(** What [MultiAddress] does, by what the host reports. *)
Lemma MultiAddress_outcome h w :
  match answer w (host_Addrs (Host.host h)) with
  | [] => (MultiAddress h w).1 = Panic "index out of range"
  | addr :: _ =>
      match lib_NewMultiaddr (Sprintf_ipfs (Identity h)) with
      | Ok hostAddr =>
          (MultiAddress h w).1 = Ret (Multiaddr_String (Encapsulate addr hostAddr))
      | Err _ => (MultiAddress h w).1 = Panic "nil pointer dereference"
      end
  end.
Proof.
  unfold MultiAddress, bind. rewrite call_eq.
  destruct (answer w (host_Addrs (Host.host h))) as [|addr rest]; [reflexivity|].
  rewrite call_eq.
  change (answer ?w' (multiaddr_NewMultiaddr ?s)) with (lib_NewMultiaddr s).
  destruct (lib_NewMultiaddr (Sprintf_ipfs (Identity h))); reflexivity.
Qed.



End Returns.



(** ** Unicast *)

(** The events of a list before the successful [NewStream]. *)
Ltac before_NewStream l :=
  lazymatch l with
  | ECall (host_NewStream _ _ _ _) None :: _ => constr:(@nil Event)
  | ?x :: ?rest => let p := before_NewStream rest in constr:(x :: p)
  end.

Ltac before_AddAddr l :=
  lazymatch l with
  | ECall (peerstore_Addrs _ _) _ :: _ => constr:(@nil Event)
  | ?x :: ?rest => let p := before_AddAddr rest in constr:(x :: p)
  end.

Ltac no_stream_use :=
  repeat (apply Forall_cons; split; [intros []|]); constructor.

(** X10.  [Unicast] never leaves a stream open: when [NewStream] succeeds
    the data are written to that stream, the stream is closed whatever the
    write returned, and the result of [Unicast] is the result of
    [stream.Close()]; otherwise [Unicast] returns an error and touches no
    stream.  The address is added to the peer store, with the temporary
    TTL, only when the peer store holds no address of the peer. *)
Theorem Unicast_closes_its_stream `{L : Lib} h addr topic data w :
  let evs := new_events w (Unicast h addr topic data w).2 in
  exists r,
    (Unicast h addr topic data w).1 = Ret r
    /\ ((exists pre ma s peerID stream wr,
           evs = pre ++ [ECall (host_NewStream (Host.host h) (Host.ctx h) peerID topic) None;
                         ECall (stream_Write stream data) wr;
                         ECall (stream_Close stream) r]
           /\ lib_NewMultiaddr addr = Ok ma
           /\ lib_ValueForProtocol ma multiaddr_P_IPFS = Ok s
           /\ lib_IDB58Decode s = Ok peerID
           /\ answer (mkWorld (log w ++ pre) (tasks w) (env w))
                (host_NewStream (Host.host h) (Host.ctx h) peerID topic) = Ok stream
           /\ Forall (fun ev => ~ uses_stream ev) pre)
        \/ (exists e, r = Some e /\ Forall (fun ev => ~ uses_stream ev) evs))
    /\ (forall hh p ma ttl e,
          ECall (peerstore_AddAddr hh p ma ttl) e ∈ evs ->
          hh = Host.host h /\ ttl = peerstore_TempAddrTTL
          /\ lib_NewMultiaddr addr = Ok ma
          /\ exists pre,
               pre `prefix_of` evs
               /\ answer (mkWorld (log w ++ pre) (tasks w) (env w))
                    (peerstore_Addrs (Host.host h) p) = []).
Proof.
  intros evs. subst evs.
  destruct (Unicast h addr topic data w) as [[r|msg] w'] eqn:H; simpl.
  2: { exfalso. unfold Unicast, addrToMultiAddr, bind, call, ret in H. no_panic H. }
  exists r. split; [reflexivity|].
  unfold Unicast, addrToMultiAddr in H.
  run_inv H; inversion H; subst; clear H; calls_inv; events;
    simpl in *; rewrite <- ?app_assoc in *; simpl in *.
  all: split;
    [ first
        [ left;
          lazymatch goal with
          | |- context [ECall (stream_Close ?st) ?r :: nil] =>
              lazymatch goal with
              | |- exists pre, _ /\ _ =>
                  fail
              | |- exists pre ma s peerID stream wr, ?l = _ /\ _ =>
                  let p := before_NewStream l in
                  exists p; do 5 eexists;
                  split; [reflexivity|];
                  repeat (split; [symmetry; eassumption|]);
                  no_stream_use
              end
          end
        | right; eexists; split; [reflexivity|no_stream_use] ]
    | intros xh xp xma xttl xe Hin;
      repeat (apply elem_of_cons in Hin as [Hin|Hin]; [try discriminate Hin|]);
      try (apply elem_of_nil in Hin; contradiction) ].
  all: injection Hin as -> -> -> -> _.
  all: split; [reflexivity|]; split; [reflexivity|];
    split; [symmetry; assumption|].
  all: lazymatch goal with
       | |- exists pre, pre `prefix_of` ?l /\ _ =>
           let p := before_AddAddr l in exists p
       end.
  all: (split; [eexists; reflexivity|]).
  all: lazymatch goal with
       | Hlen : length ?a = 0%nat |- _ =>
           destruct a; [|discriminate Hlen]
       end; symmetry; assumption.
Qed.


Lemma Unicast_closes_its_stream_witness :
  let w := Reference.world Reference.env_ok in
  let addr := "/ip4/10.0.0.1/tcp/4001/ipfs/QmA" in
  exists pre,
    pre `prefix_of` new_events w (Unicast Reference.host0 addr "blocks" [x01] w).2
    /\ answer (mkWorld (log w ++ pre) (tasks w) (env w))
         (peerstore_Addrs (Host.host Reference.host0) "QmA") = [].
Proof.
  intros w addr.
  destruct (@Unicast_closes_its_stream Reference.lib Reference.host0 addr
              "blocks" [x01] w) as (r & _ & _ & Hadd).
  destruct (Hadd 1%nat "QmA" (bytes_of_string addr) (10 * time_Second) None)
    as (_ & _ & _ & H).
  - vm_compute. do 4 apply list_elem_of_further. apply list_elem_of_here.
  - exact H.
Defined.

(** ** Connect *)

(** X11.  [Connect] dials at most once, with the context of the host, the
    peer that [InfoFromP2pAddr] reads from the parsed address, and returns
    what that dial returns; it returns nil exactly when the address
    parsed, named a peer, and the dial succeeded. *)
Theorem Connect_dials_target `{L : Lib} h addr w :
  let evs := new_events w (Connect h addr w).2 in
  ((Connect h addr w).1 = Ret None
   <-> exists ma target,
         lib_NewMultiaddr addr = Ok ma
         /\ lib_InfoFromP2pAddr ma = Ok target
         /\ evs = [ECall (multiaddr_NewMultiaddr addr) None;
                   ECall (peerstore_InfoFromP2pAddr ma) None;
                   ECall (host_Connect (Host.host h) (Host.ctx h) target) None])
  /\ (forall hh ctx target e,
        ECall (host_Connect hh ctx target) e ∈ evs ->
        hh = Host.host h /\ ctx = Host.ctx h
        /\ (Connect h addr w).1 = Ret e
        /\ last evs = Some (ECall (host_Connect hh ctx target) e)
        /\ exists ma, lib_NewMultiaddr addr = Ok ma
                      /\ lib_InfoFromP2pAddr ma = Ok target).
Proof.
  intros evs. subst evs.
  destruct (Connect h addr w) as [[r|msg] w'] eqn:H; simpl.
  2: { exfalso. unfold Connect, addrToMultiAddr, bind, call, ret in H. no_panic H. }
  unfold Connect, addrToMultiAddr in H.
  run_inv H; inversion H; subst; clear H; calls_inv; events;
    simpl in *; rewrite <- ?app_assoc in *; simpl in *.
  all: split;
    [ split;
      [ intros Hr; try discriminate Hr;
        do 2 eexists; repeat (split; [symmetry; eassumption|]); reflexivity
      | intros (xma & xtarget & _ & _ & Hevs); try discriminate Hevs;
        try (injection Hevs as _ _ Hevs; discriminate Hevs); reflexivity ]
    | intros xh xctx xtarget xe Hin;
      repeat (apply elem_of_cons in Hin as [Hin|Hin]; [try discriminate Hin|]);
      try (apply elem_of_nil in Hin; contradiction) ].
  all: injection Hin as -> -> -> ->.
  all: repeat (split; [reflexivity|]).
  all: eexists; split; symmetry; eassumption.
Qed.

Lemma Connect_dials_target_witness :
  let w := Reference.world Reference.env_ok in
  let addr := "/ip4/10.0.0.1/tcp/4001/ipfs/QmA" in
  (Connect Reference.host0 addr w).1 = Ret None
  /\ exists ma target,
       lib_NewMultiaddr addr = Ok ma
       /\ lib_InfoFromP2pAddr ma = Ok target
       /\ new_events w (Connect Reference.host0 addr w).2
          = [ECall (multiaddr_NewMultiaddr addr) None;
             ECall (peerstore_InfoFromP2pAddr ma) None;
             ECall (host_Connect (Host.host Reference.host0)
                      (Host.ctx Reference.host0) target) None].
Proof.
  intros w addr.
  assert (H : (Connect Reference.host0 addr w).1 = Ret None)
    by (vm_compute; reflexivity).
  split; [exact H|].
  destruct (@Connect_dials_target Reference.lib Reference.host0 addr w) as (Hnil & _).
  apply Hnil, H.
Defined.


(** ** Steps as transitions *)

Section Transitions.
Context `{L : Lib}.

Lemma exec_host op h w h' v w' :
  (forall t cb, op <> OpAddBroadcastPubSub t cb) ->
  exec op h w = (Ret (h', v), w') ->
  Host.pubs h' = Host.pubs h
  /\ Host.subs h' = Host.subs h
  /\ (forall t, is_Some (Host.topics h !! t) -> is_Some (Host.topics h' !! t))
  /\ (Host.close h = true -> Host.close h' = true).
Proof.
  intros Hop H. destruct op; simpl in H; run_inv H; inversion H; subst;
    try (repeat split; auto; fail).
  - revert Hm. unfold AddUnicastPubSub. intros Hm.
    run_inv Hm; inversion Hm; subst; simpl; repeat split; auto.
    intros t [x Hx]. destruct (decide (topic = t)) as [->|Hne].
    + rewrite lookup_insert_eq. eauto.
    + rewrite lookup_insert_ne by assumption. eauto.
  - exfalso. eapply Hop. reflexivity.
  - revert Hm. unfold Close. intros Hm.
    run_inv Hm; inversion Hm; subst; simpl; repeat split; auto.
Qed.

Lemma may_call_op_event op h evs :
  (forall t cb, op <> OpAddUnicastPubSub t cb) ->
  Forall (call_event (may_call op)) evs -> Forall (op_event h) evs.
Proof.
  intros Hop H. eapply Forall_impl; [exact H|].
  intros [c e| |]; simpl; try contradiction.
  destruct c; try (intros; exact I).
  - destruct op; simpl; try discriminate. exfalso. eapply Hop. reflexivity.
  - destruct op; discriminate.
Qed.

Lemma step_event_op_event pid stream h evs :
  Forall (step_event (AStream pid stream)) evs -> Forall (op_event h) evs.
Proof.
  intros H. eapply Forall_impl; [exact H|].
  intros [c e| |]; simpl; try contradiction; [|intros; exact I].
  destruct c; try contradiction; intros; exact I.
Qed.

(** A step after which the process is still running is a transition. *)
Lemma step_transition a s :
  sys_crashed (step a s) = false -> transition s (step a s).
Proof.
  assert (Hsame : transition s s).
  { apply (tr_quiet s s []); auto. now rewrite app_nil_r. }
  unfold step. destruct (sys_crashed s) eqn:Hc; [congruence|].
  destruct a as [op|i|pid stream].
  - destruct (exec op (sys_host s) (sys_world s)) as [[[h' v]|msg] w'] eqn:E;
      simpl; [intros _|discriminate].
    assert (Hq : (forall t cb, op <> OpAddBroadcastPubSub t cb) ->
                 (forall t cb, op <> OpAddUnicastPubSub t cb) ->
                 transition s (mkSys h' w' false)).
    { intros Hb Hu.
      destruct (exec_host _ _ _ _ _ _ Hb E) as (Hp & Hs & Ht & Hcl).
      pose proof (exec_log_only op (sys_host s) Hb (sys_world s)) as (evs & Hw & _).
      destruct (exec_logs op (sys_host s) (sys_world s)) as (evs' & Hlog & _ & Hall).
      rewrite E in Hw, Hlog. simpl in Hw, Hlog. subst w'. simpl in Hlog.
      apply app_inv_head in Hlog. subst evs'.
      apply (tr_quiet _ _ evs); simpl; auto.
      eapply may_call_op_event; eauto. }
    destruct op; try (apply Hq; discriminate); clear Hq.
    + (* AddUnicastPubSub *)
      simpl in E. run_inv E. injection E as <- _ <-.
      revert Hm. unfold AddUnicastPubSub.
      destruct (Host.topics (sys_host s) !! topic) eqn:Hlookup; intros Hm.
      { injection Hm as <- <-. simpl. destruct s as [h0 w0 c0]; simpl in Hc; subst c0; exact Hsame. }
      run_inv Hm. injection Hm as <- <-. calls_inv. simpl.
      eapply (tr_quiet _ _ [_]); simpl; auto.
      intros t [x Hx]. destruct (decide (topic = t)) as [->|Hne].
      * rewrite lookup_insert_eq. eauto.
      * rewrite lookup_insert_ne by assumption. eauto.
    + (* AddBroadcastPubSub *)
      simpl in E. run_inv E. injection E as <- _ <-.
      revert Hm. unfold AddBroadcastPubSub.
      destruct (Host.pubs (sys_host s) !! topic) eqn:Hlookup; intros Hm.
      { injection Hm as <- <-. simpl. destruct s as [h0 w0 c0]; simpl in Hc; subst c0; exact Hsame. }
      run_inv Hm; try injection Hm as <- <-; calls_inv; simpl.
      * match goal with
        | H : spawn _ _ = (Ret _, _) |- _ => unfold spawn in H; injection H as _ <-
        end.
        simpl. rewrite <- app_assoc.
        eapply (tr_register _ _ topic callback _ _ [_; _]); simpl; eauto;
          repeat constructor.
      * rewrite <- app_assoc. eapply (tr_quiet _ _ [_; _]); simpl; auto;
          repeat constructor.
      * eapply (tr_quiet _ _ [_]); simpl; auto; repeat constructor.
  - unfold task_step.
    destruct (tasks (sys_world s) !! i) as [task|] eqn:Hi;
      [|intros _; destruct s as [h0 w0 c0]; simpl in Hc; subst c0; exact Hsame].
    destruct (task_pc task) as [| |data|] eqn:Hpc.
    + destruct (Host.close (sys_host s)) eqn:Hcl; simpl; intros _.
      * eapply (tr_task _ _ i task Returned []); simpl; eauto.
        -- rewrite Hcl. now constructor.
        -- now rewrite app_nil_r.
      * eapply (tr_task _ _ i task InNext []); simpl; eauto.
        -- rewrite Hcl. now constructor.
        -- now rewrite app_nil_r.
    + unfold bind. rewrite call_eq.
      destruct (answer (sys_world s) _) as [msg|e] eqn:Hnext; simpl; intros _.
      * eapply (tr_task _ _ i task (InCallback (Data msg)) [_]); simpl; eauto.
        constructor; [assumption|exact Hnext].
      * eapply (tr_task _ _ i task AtSelect [_]); simpl; eauto.
        constructor; [assumption|exact Hnext].
    + simpl. intros _.
      eapply (tr_task _ _ i task AtSelect [_]); simpl; eauto.
      now constructor.
    + intros _. destruct s as [h0 w0 c0]; simpl in Hc; subst c0; exact Hsame.
  - destruct (installedHandler _ _) as [cb|]; [|intros _; exact Hsame].
    pose proof (unicastStreamHandler_log_only pid cb stream (sys_world s))
      as (evs & Hw & _).
    destruct (unicastStreamHandler_logs pid cb stream (sys_world s))
      as (evs' & Hlog & _ & Hall).
    destruct (unicastStreamHandler _ _ _ _) as [[u|msg] w']; [intros _|discriminate].
    simpl in Hw, Hlog. subst w'. simpl in Hlog.
    apply app_inv_head in Hlog. subst evs'.
    apply (tr_quiet _ _ evs); simpl; auto.
    eapply step_event_op_event; eauto.
Qed.

(** A property that every transition preserves holds along every run
    that does not end in a panic. *)
Lemma run_invariant (P : Sys -> Prop) :
  (forall s s', transition s s' -> P s -> P s') ->
  forall sched s, P s -> sys_crashed (run sched s) = false -> P (run sched s).
Proof.
  intros Hstep sched. induction sched as [|a sched IH]; intros s HP Hc; simpl in *.
  - exact HP.
  - apply IH; [|exact Hc].
    apply (Hstep s); [|exact HP].
    apply step_transition. eapply run_not_crashed; eauto.
Qed.

End Transitions.

(** ** One task per subscription *)

Lemma map_key_alter pc i (ts : list Task) :
  map task_key (alter (set_task_pc pc) i ts) = map task_key ts.
Proof.
  revert i. induction ts as [|a ts IH]; intros [|i]; try reflexivity.
  change (alter (set_task_pc pc) (S i) (a :: ts))
    with (a :: alter (set_task_pc pc) i ts).
  simpl. now rewrite IH.
Qed.

Lemma transition_tasks_match s s' :
  transition s s' -> tasks_match s -> tasks_match s'.
Proof.
  intros Htr [Hperm Hdom]. unfold tasks_match.
  destruct Htr as [evs _ Ht Hp Hs _ _ _
                  |t cb pub sub evs Hnone Hp Hs _ _ Ht _ _
                  |i task pc evs Hh _ _ Ht _].
  - rewrite Ht, Hp, Hs. split; assumption.
  - rewrite Ht, Hp, Hs. split.
    + rewrite map_app. simpl. rewrite map_to_list_insert.
      * rewrite Hperm. symmetry. apply Permutation_cons_append.
      * destruct (Host.subs (sys_host s) !! t) eqn:E; [|reflexivity].
        assert (Hsome : is_Some (Host.pubs (sys_host s) !! t)) by (apply Hdom; eauto).
        rewrite Hnone in Hsome. destruct Hsome; discriminate.
    + intros t'. destruct (decide (t = t')) as [->|Hne].
      * rewrite !lookup_insert_eq. split; eauto.
      * rewrite !lookup_insert_ne by assumption. apply Hdom.
  - rewrite Hh, Ht, map_key_alter. split; assumption.
Qed.

(** X12.  From a host without broadcast topics and a world without tasks,
    as [NewHost] leaves them, every run that does not panic keeps one
    background task per registered broadcast topic: the topics of the
    tasks are distinct, each task reads from the subscription stored for
    its topic, every subscription has its task and its publisher, and the
    subscriptions [Close] cancels are exactly those of the tasks. *)
Theorem one_task_per_subscription `{L : Lib} sched s :
  tasks (sys_world s) = [] ->
  Host.pubs (sys_host s) = ∅ ->
  Host.subs (sys_host s) = ∅ ->
  sys_crashed (run sched s) = false ->
  let h := sys_host (run sched s) in
  let ts := tasks (sys_world (run sched s)) in
  NoDup (map task_topic ts)
  /\ length ts = size (Host.subs h)
  /\ (forall t sub,
        Host.subs h !! t = Some sub
        <-> exists task, task ∈ ts /\ task_topic task = t /\ task_sub task = sub)
  /\ (forall t, is_Some (Host.pubs h !! t) <-> is_Some (Host.subs h !! t))
  /\ cancels h ≡ₚ map (fun task => ECall (sub_Cancel (task_sub task)) None) ts.
Proof.
  intros Ht Hp Hs Hc h ts.
  assert (Hinit : tasks_match s).
  { unfold tasks_match. rewrite Ht, Hp, Hs, map_to_list_empty. split; [reflexivity|].
    intros t. rewrite !lookup_empty. reflexivity. }
  destruct (run_invariant tasks_match transition_tasks_match sched s Hinit Hc)
    as [Hperm Hdom].
  fold h ts in Hperm, Hdom.
  split; [|split; [|split; [|split]]].
  - assert (Hfst : map task_topic ts = map fst (map task_key ts)).
    { rewrite map_map. reflexivity. }
    rewrite Hfst, Hperm. apply NoDup_fst_map_to_list.
  - rewrite <- length_map_to_list, <- Hperm. now rewrite length_map.
  - intros t sub. rewrite <- elem_of_map_to_list, <- Hperm.
    rewrite list_elem_of_In, in_map_iff. split.
    + intros (task & [= <- <-] & Hin). exists task.
      split; [now apply list_elem_of_In|split; reflexivity].
    + intros (task & Hin & <- & <-). exists task.
      split; [reflexivity|now apply list_elem_of_In].
  - exact Hdom.
  - unfold cancels. rewrite <- Hperm, map_map. reflexivity.
Qed.

Lemma one_task_per_subscription_witness :
  let s := run [ACall (OpAddBroadcastPubSub "blocks" Reference.cb_ok);
                ACall (OpAddBroadcastPubSub "tx" Reference.cb_ok);
                ATask 0%nat;
                ACall (OpAddBroadcastPubSub "blocks" Scenario.cb_reject)]
             (Reference.sys0 Reference.env_ok) in
  length (tasks (sys_world s)) = 2%nat
  /\ length (tasks (sys_world s)) = size (Host.subs (sys_host s)).
Proof.
  intros s. split; [vm_compute; reflexivity|].
  pose proof (@one_task_per_subscription Reference.lib
                [ACall (OpAddBroadcastPubSub "blocks" Reference.cb_ok);
                 ACall (OpAddBroadcastPubSub "tx" Reference.cb_ok);
                 ATask 0%nat;
                 ACall (OpAddBroadcastPubSub "blocks" Scenario.cb_reject)]
                (Reference.sys0 Reference.env_ok)) as H.
  cbv zeta in H. destruct H as (_ & Hlen & _).
  - reflexivity.
  - reflexivity.
  - reflexivity.
  - vm_compute. reflexivity.
  - exact Hlen.
Defined.

(** ** Messages received and delivered *)

Lemma received_from_app e pre l1 l2 :
  received_from e pre (l1 ++ l2)
  = received_from e pre l1 ++ received_from e (pre ++ l1) l2.
Proof.
  revert pre. induction l1 as [|ev l1 IH]; intros pre; simpl.
  - now rewrite app_nil_r.
  - rewrite IH, <- !app_assoc. reflexivity.
Qed.

Lemma delivered_to_app t l1 l2 :
  delivered_to t (l1 ++ l2) = delivered_to t l1 ++ delivered_to t l2.
Proof.
  induction l1 as [|ev l1 IH]; simpl; [reflexivity|].
  destruct ev; rewrite IH; [reflexivity|reflexivity|].
  now rewrite app_assoc.
Qed.

Lemma op_event_no_message h e pre evs :
  Forall (op_event h) evs ->
  received_from e pre evs = []
  /\ (forall t, delivered_to t evs = [])
  /\ (forall t data err, EHandleBroadcast t data err ∉ evs).
Proof.
  intros H. revert pre. induction H as [|ev evs Hev _ IH]; intros pre.
  - repeat split; try reflexivity. intros t data err Hin.
    now apply elem_of_nil in Hin.
  - destruct (IH (pre ++ [ev])) as (IHr & IHd & IHn).
    destruct ev as [c err0|tu du eu|tb db eb]; simpl in Hev; try contradiction.
    + split; [|split].
      * simpl. rewrite IHr. destruct c; try reflexivity. contradiction.
      * intros t. simpl. apply IHd.
      * intros t0 d0 err Hin. apply elem_of_cons in Hin as [Hin|Hin];
          [discriminate Hin|]. now apply (IHn t0 d0 err).
    + split; [|split].
      * simpl. apply IHr.
      * intros t. simpl. apply IHd.
      * intros t0 d0 err Hin. apply elem_of_cons in Hin as [Hin|Hin];
          [discriminate Hin|]. now apply (IHn t0 d0 err).
Qed.

Lemma delivered_to_none t evs :
  (forall data e, EHandleBroadcast t data e ∉ evs) -> delivered_to t evs = [].
Proof.
  induction evs as [|ev evs IH]; intros Hnone; [reflexivity|].
  assert (Hrest : delivered_to t evs = []).
  { apply IH. intros data e Hin. apply (Hnone data e). now apply list_elem_of_further. }
  destruct ev as [c e| |t' data e]; simpl; try exact Hrest.
  rewrite Hrest. destruct (bool_decide_reflect (t' = t)) as [->|]; [|reflexivity].
  exfalso. apply (Hnone data e). apply list_elem_of_here.
Qed.

Lemma flat_map_agree {A B} (F F' : A -> list B) l :
  Forall (fun a => F' a = F a) l -> flat_map F' l = flat_map F l.
Proof. induction 1 as [|a l Ha _ IH]; simpl; [reflexivity|]. now rewrite Ha, IH. Qed.

Lemma map_handler_alter pc i (ts : list Task) :
  map task_handler (alter (set_task_pc pc) i ts) = map task_handler ts.
Proof.
  revert i. induction ts as [|a ts IH]; intros [|i]; try reflexivity.
  change (alter (set_task_pc pc) (S i) (a :: ts))
    with (a :: alter (set_task_pc pc) i ts).
  simpl. now rewrite IH.
Qed.

Lemma map_task_topic_alter pc i (ts : list Task) :
  map task_topic (alter (set_task_pc pc) i ts) = map task_topic ts.
Proof.
  revert i. induction ts as [|a ts IH]; intros [|i]; try reflexivity.
  change (alter (set_task_pc pc) (S i) (a :: ts))
    with (a :: alter (set_task_pc pc) i ts).
  simpl. now rewrite IH.
Qed.

(** Moving one task, when the tasks have distinct topics and the
    messages of the tasks of the other topics stay what they are. *)
Lemma flat_map_move_task {B} (F F' : Task -> list B) pc i ts task :
  NoDup (map task_topic ts) ->
  ts !! i = Some task ->
  (forall task', task_topic task' <> task_topic task -> F' task' = F task') ->
  flat_map F' (alter (set_task_pc pc) i ts) ++ F task
  ≡ₚ flat_map F ts ++ F' (set_task_pc pc task).
Proof.
  intros Hnd Hi Hother. revert i Hi.
  induction ts as [|a ts IH]; intros [|i] Hi; try discriminate Hi.
  - injection Hi as ->. apply NoDup_cons in Hnd as [Hnotin _].
    change (alter (set_task_pc pc) 0%nat (task :: ts))
      with (set_task_pc pc task :: ts).
    simpl. rewrite (flat_map_agree F F' ts).
    + etransitivity; [apply Permutation_app_comm|].
      rewrite <- app_assoc. apply Permutation_app_head, Permutation_app_comm.
    + apply Forall_forall. intros task' Hin. apply Hother. intros Heq.
      apply Hnotin. rewrite <- Heq. apply list_elem_of_In, in_map, list_elem_of_In, Hin.
  - change (alter (set_task_pc pc) (S i) (a :: ts))
      with (a :: alter (set_task_pc pc) i ts).
    simpl in Hnd. apply NoDup_cons in Hnd as [Hnotin Hnd].
    simpl. rewrite Hother.
    + rewrite <- !app_assoc. rewrite (IH Hnd i Hi). reflexivity.
    + intros Heq. apply Hnotin. rewrite Heq.
      apply list_elem_of_In, in_map, list_elem_of_In.
      eapply list_elem_of_lookup_2. exact Hi.
Qed.

Lemma transition_messages e0 pre s s' :
  transition s s' ->
  (exists evs, messages_accounted e0 pre evs s) ->
  exists evs, messages_accounted e0 pre evs s'.
Proof.
  intros Htr (evs & Hlog0 & Henv0 & Hnd & Hpubs & Hown & Hperm).
  destruct Htr as [evs1 Hlog Ht Hp _ _ _ Hall Henv
                  |t cb pub sub evs1 Hnone Hp _ _ _ Ht Hlog Hall Henv
                  |i task pc evs1 Hh Hi Hmove Ht Hlog Henv];
    exists (evs ++ evs1); unfold messages_accounted;
    (split; [rewrite Hlog, Hlog0; now rewrite app_assoc|]);
    (split; [congruence|]); rewrite Ht.
  - (* an operation or a stream handler *)
    destruct (op_event_no_message _ e0 (pre ++ evs) _ Hall) as (Hr & Hd & Hn).
    rewrite Hp. split; [assumption|]. split; [assumption|]. split.
    + intros t data e Hin. apply elem_of_app in Hin as [Hin|Hin];
        [now apply Hown|now apply Hn in Hin].
    + rewrite received_from_app, Hr, app_nil_r, Hperm.
      rewrite (flat_map_agree (task_messages evs) (task_messages (evs ++ evs1)));
        [reflexivity|].
      apply Forall_forall. intros task _. unfold task_messages.
      now rewrite delivered_to_app, Hd, app_nil_r.
  - (* a new topic *)
    destruct (op_event_no_message _ e0 (pre ++ evs) _ Hall) as (Hr & Hd & Hn).
    assert (Hfresh : t ∉ map task_topic (tasks (sys_world s))).
    { intros Hin. rewrite Forall_forall in Hpubs.
      destruct (Hpubs _ Hin) as [x Hx]. congruence. }
    rewrite Hp, !map_app. simpl. split; [|split; [|split]].
    + apply NoDup_app. split; [assumption|]. split; [|apply NoDup_singleton].
      intros t' Ht' Hin. apply list_elem_of_singleton in Hin as ->. contradiction.
    + apply Forall_app. split.
      * eapply Forall_impl; [exact Hpubs|]. intros t' [x Hx].
        destruct (decide (t = t')) as [->|Hne].
        -- rewrite lookup_insert_eq. eauto.
        -- rewrite lookup_insert_ne by assumption. eauto.
      * constructor; [|constructor]. rewrite lookup_insert_eq. eauto.
    + intros t' data e Hin. apply elem_of_app in Hin as [Hin|Hin];
        [|now apply Hn in Hin].
      destruct (Hown _ _ _ Hin) as (cb' & Hcb & He). exists cb'.
      split; [|assumption]. apply elem_of_app. now left.
    + rewrite received_from_app, Hr, app_nil_r, Hperm.
      rewrite flat_map_app. simpl. rewrite app_nil_r.
      assert (Hnew : task_messages (evs ++ evs1) (mkTask t sub cb AtSelect) = []).
      { unfold task_messages. simpl. rewrite delivered_to_app, Hd, app_nil_r.
        rewrite delivered_to_none; [reflexivity|].
        intros data e Hin. destruct (Hown _ _ _ Hin) as (cb' & Hcb & _).
        apply Hfresh. apply list_elem_of_In in Hcb. apply in_map_iff in Hcb
          as (task' & [= <- _] & Hin').
        apply list_elem_of_In, in_map, Hin'. }
      rewrite Hnew, app_nil_r.
      rewrite (flat_map_agree (task_messages evs) (task_messages (evs ++ evs1)));
        [reflexivity|].
      apply Forall_forall. intros task _. unfold task_messages.
      now rewrite delivered_to_app, Hd, app_nil_r.
  - (* a task moves *)
    rewrite Hh, map_task_topic_alter, map_handler_alter.
    split; [assumption|]. split; [assumption|].
    assert (Htask : task ∈ tasks (sys_world s))
      by (eapply list_elem_of_lookup_2; exact Hi).
    split.
    + intros t data e Hin. apply elem_of_app in Hin as [Hin|Hin];
        [now apply Hown|].
      destruct Hmove; try (now apply elem_of_nil in Hin);
        apply list_elem_of_singleton in Hin; try discriminate Hin.
      injection Hin as -> -> ->. exists (task_callback task).
      split; [|reflexivity].
      apply list_elem_of_In. apply (in_map task_handler).
      now apply list_elem_of_In.
    + assert (Hother : forall task',
                task_topic task' <> task_topic task ->
                task_messages (evs ++ evs1) task' = task_messages evs task').
      { intros task' Hne. unfold task_messages. rewrite delivered_to_app.
        assert (Hd1 : delivered_to (task_topic task') evs1 = []).
        { destruct Hmove; try reflexivity. simpl.
          rewrite bool_decide_eq_false_2 by congruence. reflexivity. }
        now rewrite Hd1, app_nil_r. }
      pose proof (flat_map_move_task (task_messages evs)
                    (task_messages (evs ++ evs1)) pc i _ task Hnd Hi Hother) as Hmv.
      assert (Hstep : task_messages (evs ++ evs1) (set_task_pc pc task)
                      = task_messages evs task
                        ++ received_from e0 (pre ++ evs) evs1).
      { unfold task_messages, held_data. rewrite delivered_to_app. simpl.
        rewrite <- Henv0, <- Hlog0.
        destruct Hmove as [_ Hpc|_ Hpc|e Hpc Hn|msg Hpc Hn|data Hpc];
          rewrite Hpc; simpl; rewrite ?app_nil_r.
        - reflexivity.
        - reflexivity.
        - reflexivity.
        - rewrite Hn. rewrite map_app. reflexivity.
        - rewrite bool_decide_eq_true_2 by reflexivity. reflexivity. }
      rewrite Hstep in Hmv. rewrite received_from_app, Hperm.
      apply (Permutation_app_inv_r (task_messages evs task)).
      rewrite Hmv. rewrite <- !app_assoc.
      apply Permutation_app_head, Permutation_app_comm.
Qed.

(** X13.  No message is lost, altered or delivered twice.  Along a run
    that starts without tasks and does not panic, the topics of the tasks
    stay distinct; every invocation of a broadcast callback is an
    invocation of the callback registered for its topic, on the data
    logged; and the messages the successful [sub.Next] calls returned, each
    with the subscription it was read from, are exactly (as a multiset) the
    messages passed to the callbacks and the messages still held by the
    tasks, each with the subscription of the task of its topic. *)
Theorem messages_delivered_once `{L : Lib} sched s :
  tasks (sys_world s) = [] ->
  sys_crashed (run sched s) = false ->
  let s' := run sched s in
  let evs := new_events (sys_world s) (sys_world s') in
  let ts := tasks (sys_world s') in
  NoDup (map task_topic ts)
  /\ (forall t data e,
        EHandleBroadcast t data e ∈ evs ->
        exists task, task ∈ ts /\ task_topic task = t /\ e = task_callback task data)
  /\ received_from (env (sys_world s)) (log (sys_world s)) evs
     ≡ₚ flat_map (task_messages evs) ts.
Proof.
  intros Ht Hc s' evs ts.
  assert (Hinit : exists evs0,
            messages_accounted (env (sys_world s)) (log (sys_world s)) evs0 s).
  { exists []. unfold messages_accounted. rewrite Ht, app_nil_r. simpl.
    repeat split; try constructor.
    intros t data e Hin. now apply elem_of_nil in Hin. }
  destruct (run_invariant _ (transition_messages _ _) sched s Hinit Hc)
    as (evs' & Hlog & _ & Hnd & _ & Hown & Hperm).
  assert (Hevs : evs = evs').
  { unfold evs, new_events, s'. rewrite Hlog. apply drop_app_length. }
  rewrite Hevs. split; [exact Hnd|]. split; [|exact Hperm].
  intros t data e Hin. destruct (Hown _ _ _ Hin) as (cb & Hcb & ->).
  apply list_elem_of_In, in_map_iff in Hcb as (task & [= <- <-] & Htask).
  exists task. split; [now apply list_elem_of_In|split; reflexivity].
Qed.

Lemma messages_delivered_once_witness :
  let sched := [ACall (OpAddBroadcastPubSub "blocks" Reference.cb_ok);
                ATask 0%nat; ATask 0%nat; ATask 0%nat; ATask 0%nat; ATask 0%nat] in
  let s := Reference.sys0 Reference.env_ok in
  let evs := new_events (sys_world s) (sys_world (run sched s)) in
  received_from (env (sys_world s)) (log (sys_world s)) evs
  = [(4%nat, [x01; x02]); (4%nat, [x01; x02])]
  /\ EHandleBroadcast "blocks" [x01; x02] None ∈ evs
  /\ received_from (env (sys_world s)) (log (sys_world s)) evs
     ≡ₚ flat_map (task_messages evs) (tasks (sys_world (run sched s))).
Proof.
  intros sched s evs.
  split; [vm_compute; reflexivity|].
  split; [vm_compute; do 3 apply list_elem_of_further; apply list_elem_of_here|].
  destruct (@messages_delivered_once Reference.lib sched s) as (_ & _ & Hperm).
  - reflexivity.
  - vm_compute. reflexivity.
  - exact Hperm.
Defined.

(** ** Tasks run until Close *)

Lemma transition_running s s' :
  transition s s' ->
  (Host.close (sys_host s) = false ->
   Forall (fun task => task_pc task <> Returned) (tasks (sys_world s))) ->
  Host.close (sys_host s') = false ->
  Forall (fun task => task_pc task <> Returned) (tasks (sys_world s')).
Proof.
  intros [evs _ Ht _ _ _ Hcl _
         |t cb pub sub evs _ _ _ _ Hcl Ht _ _
         |i task pc evs Hh Hi Hmove Ht _] HP Hopen; rewrite Ht.
  - apply HP. destruct (Host.close (sys_host s)); [|reflexivity].
    rewrite Hcl in Hopen by reflexivity. discriminate.
  - rewrite Hcl in Hopen. apply Forall_app. split; [apply HP, Hopen|].
    constructor; [discriminate|constructor].
  - rewrite Hh in Hopen. apply Forall_alter; [apply HP, Hopen|].
    intros task' _ _. simpl.
    destruct Hmove; try discriminate. congruence.
Qed.

(** X14.  A background task ends only after [Close].  While the close
    channel is open no task has returned: an error of [sub.Next] sends the
    task back to the [select], and an error of the callback is dropped. *)
Theorem tasks_run_until_Close `{L : Lib} sched s :
  Forall (fun task => task_pc task <> Returned) (tasks (sys_world s)) ->
  sys_crashed (run sched s) = false ->
  Host.close (sys_host (run sched s)) = false ->
  Forall (fun task => task_pc task <> Returned) (tasks (sys_world (run sched s))).
Proof.
  intros Hinit Hc.
  apply (run_invariant
           (fun s' => Host.close (sys_host s') = false ->
                      Forall (fun task => task_pc task <> Returned)
                        (tasks (sys_world s')))); [|auto|exact Hc].
  intros s1 s2 Htr HP. apply (transition_running _ _ Htr HP).
Qed.

Lemma tasks_run_until_Close_witness :
  let env := Reference.failing Scenario.is_Next "timeout" Reference.env_ok in
  let sched := [ACall (OpAddBroadcastPubSub "blocks" Scenario.cb_reject);
                ATask 0%nat; ATask 0%nat; ATask 0%nat; ATask 0%nat] in
  Forall (fun task => task_pc task <> Returned)
    (tasks (sys_world (run sched (Reference.sys0 env))))
  /\ length (tasks (sys_world (run sched (Reference.sys0 env)))) = 1%nat.
Proof.
  intros env sched. split; [|vm_compute; reflexivity].
  apply (@tasks_run_until_Close Reference.lib sched (Reference.sys0 env)).
  - constructor.
  - vm_compute. reflexivity.
  - vm_compute. reflexivity.
Defined.

(** ** The handler of a unicast topic *)

Lemma installedHandler_app l evs t :
  installedHandler (l ++ evs) t
  = match installedHandler evs t with
    | Some cb => Some cb
    | None => installedHandler l t
    end.
Proof.
  induction l as [|ev l IH]; simpl.
  - destruct (installedHandler evs t); reflexivity.
  - rewrite IH. destruct (installedHandler evs t); [reflexivity|].
    reflexivity.
Qed.

Lemma op_event_no_handler h t evs :
  is_Some (Host.topics h !! t) ->
  Forall (op_event h) evs -> installedHandler evs t = None.
Proof.
  intros [u Hu]. induction 1 as [|ev evs Hev _ IH]; [reflexivity|].
  simpl. rewrite IH. destruct ev as [c e| |]; try reflexivity.
  destruct c; try reflexivity. simpl in Hev.
  destruct (decide (pid = t)) as [->|]; [congruence|reflexivity].
Qed.

Lemma task_move_no_handler closed ctx next task pc evs t :
  task_move closed ctx next task pc evs -> installedHandler evs t = None.
Proof. intros []; reflexivity. Qed.

Lemma transition_handler t s s' :
  transition s s' ->
  is_Some (Host.topics (sys_host s) !! t) ->
  is_Some (Host.topics (sys_host s') !! t)
  /\ installedHandler (log (sys_world s')) t = installedHandler (log (sys_world s)) t.
Proof.
  intros [evs Hlog _ _ _ Htop _ Hall
         |t' cb pub sub evs _ _ _ Htop _ _ Hlog Hall
         |i task pc evs Hh _ Hmove _ Hlog] Ht;
    rewrite Hlog, installedHandler_app.
  - split; [auto|]. now rewrite (op_event_no_handler _ _ _ Ht Hall).
  - rewrite Htop. split; [assumption|].
    now rewrite (op_event_no_handler _ _ _ Ht Hall).
  - rewrite Hh. split; [assumption|].
    now rewrite (task_move_no_handler _ _ _ _ _ _ t Hmove).
Qed.

Section Handler.
Context `{L : Lib}.

Lemma unicastStreamHandler_run t cb stream w :
  let rd := answer w (ioutil_ReadAll stream) in
  exists e,
    unicastStreamHandler t cb stream w
    = (Ret tt,
       mkWorld
         (log w
          ++ ECall (ioutil_ReadAll stream) (res_err rd)
             :: match rd with
                | Ok data => [EHandleUnicast t data (cb data)]
                | Err _ => []
                end
             ++ [ECall (stream_Close stream) e])
         (tasks w) (env w)).
Proof.
  cbv zeta. unfold unicastStreamHandler, bind. rewrite call_eq.
  change (err_of (ioutil_ReadAll stream)) with (@res_err (list byte)).
  destruct (answer w (ioutil_ReadAll stream)) as [data|e0];
    unfold ret, emit; rewrite call_eq; eexists; simpl;
    rewrite <- ?app_assoc; reflexivity.
Qed.

Lemma step_AddUnicastPubSub t cb s :
  sys_crashed s = false ->
  Host.topics (sys_host s) !! t = None ->
  let s1 := step (ACall (OpAddUnicastPubSub t cb)) s in
  is_Some (Host.topics (sys_host s1) !! t)
  /\ installedHandler (log (sys_world s1)) t = Some cb
  /\ sys_crashed s1 = false.
Proof.
  intros Hc Ht. cbv zeta. unfold step. rewrite Hc. simpl.
  unfold bind, AddUnicastPubSub. rewrite Ht. unfold bind. rewrite call_eq.
  simpl. rewrite lookup_insert_eq. split; [eauto|]. split; [|reflexivity].
  rewrite installedHandler_app. simpl.
  destruct (decide (t = t)); [reflexivity|contradiction].
Qed.

(** X15.  The callback of the first [AddUnicastPubSub] on a topic handles
    every inbound stream of that topic for the rest of the run: a later
    registration does not replace it.  The handler reads the stream to
    its end, passes the data to the callback once if the read succeeded,
    and closes the stream in either case; an error of the callback
    changes nothing. *)
Theorem unicast_handler_is_first_callback sched s t cb :
  sys_crashed s = false ->
  Host.topics (sys_host s) !! t = None ->
  let s1 := run sched (step (ACall (OpAddUnicastPubSub t cb)) s) in
  sys_crashed s1 = false ->
  installedHandler (log (sys_world s1)) t = Some cb
  /\ forall stream,
       let s2 := step (AStream t stream) s1 in
       let rd := answer (sys_world s1) (ioutil_ReadAll stream) in
       sys_crashed s2 = false
       /\ sys_host s2 = sys_host s1
       /\ tasks (sys_world s2) = tasks (sys_world s1)
       /\ exists e,
            new_events (sys_world s1) (sys_world s2)
            = ECall (ioutil_ReadAll stream) (res_err rd)
                :: match rd with
                   | Ok data => [EHandleUnicast t data (cb data)]
                   | Err _ => []
                   end
                ++ [ECall (stream_Close stream) e].
Proof.
  intros Hc Ht s1 Hc1.
  destruct (step_AddUnicastPubSub t cb s Hc Ht) as (Hreg & Hcb & _).
  assert (Hinv : is_Some (Host.topics (sys_host s1) !! t)
                 /\ installedHandler (log (sys_world s1)) t = Some cb).
  { apply (run_invariant
             (fun s' => is_Some (Host.topics (sys_host s') !! t)
                        /\ installedHandler (log (sys_world s')) t = Some cb));
      [|split; assumption|exact Hc1].
    intros sa sb Htr [Ha Hb].
    destruct (transition_handler t _ _ Htr Ha) as [Ha' Hb'].
    split; [assumption|congruence]. }
  destruct Hinv as [_ Hh]. split; [exact Hh|].
  intros stream. cbv zeta. unfold step. rewrite Hc1, Hh.
  destruct (unicastStreamHandler_run t cb stream (sys_world s1)) as (e & ->).
  simpl. repeat split; try reflexivity.
  exists e. apply new_events_app.
Qed.

(** ** Broadcast on a registered topic *)

Lemma transition_pubs t pub s s' :
  transition s s' ->
  Host.pubs (sys_host s) !! t = Some pub ->
  Host.pubs (sys_host s') !! t = Some pub.
Proof.
  intros [evs _ _ Hp _ _ _ _
         |t' cb pub' sub evs Hnone Hp _ _ _ _ _ _
         |i task pc evs Hh _ _ _ _] Ht.
  - now rewrite Hp.
  - rewrite Hp. rewrite lookup_insert_ne; [assumption|]. congruence.
  - now rewrite Hh.
Qed.

(** X16.  A publisher stays with its topic: once a topic has a
    publisher, after any run that does not panic [Broadcast] on the topic
    makes exactly one call, [Publish] on that publisher with the topic and
    the data, and returns what it returns. *)
Theorem Broadcast_uses_registered_publisher sched s t pub data :
  Host.pubs (sys_host s) !! t = Some pub ->
  sys_crashed (run sched s) = false ->
  let s' := run sched s in
  exists e,
    (Broadcast (sys_host s') t data (sys_world s')).1 = Ret e
    /\ new_events (sys_world s') (Broadcast (sys_host s') t data (sys_world s')).2
       = [ECall (pub_Publish pub t data) e].
Proof.
  intros Ht Hc s'.
  assert (Hpub : Host.pubs (sys_host s') !! t = Some pub).
  { apply (run_invariant (fun s1 => Host.pubs (sys_host s1) !! t = Some pub));
      [|assumption|exact Hc].
    intros sa sb Htr. apply (transition_pubs _ _ _ _ Htr). }
  unfold Broadcast. rewrite Hpub. rewrite call_eq. simpl.
  eexists. split; [reflexivity|]. apply new_events_app.
Qed.

(** ** AddBroadcastPubSub *)

(** X17.  [AddBroadcastPubSub] on a new topic is all or nothing.  It
    creates a pubsub object with the constructor chosen at [NewHost] and
    subscribes to the topic on it.  When either call fails it returns
    that error, the host is unchanged (the pubsub object just created is
    dropped) and no task is started.  When both succeed the object and the
    subscription are stored under the topic and exactly one task is
    started, at the [select], with the callback given. *)
Theorem AddBroadcastPubSub_all_or_nothing h t cb w :
  Host.pubs h !! t = None ->
  let create := newPubSub_call (Host.newPubSub h) (Host.ctx h) (Host.host h) in
  exists h' e w',
    AddBroadcastPubSub h t cb w = (Ret (h', e), w')
    /\ env w' = env w
    /\ match e with
       | Some err =>
           h' = h /\ tasks w' = tasks w
           /\ (new_events w w' = [ECall create (Some err)]
               \/ exists pub,
                    new_events w w'
                    = [ECall create None; ECall (pub_Subscribe pub t) (Some err)])
       | None =>
           exists pub sub,
             answer w create = Ok pub
             /\ new_events w w' = [ECall create None; ECall (pub_Subscribe pub t) None]
             /\ Host.pubs h' = <[t := pub]> (Host.pubs h)
             /\ Host.subs h' = <[t := sub]> (Host.subs h)
             /\ frame h h' /\ Host.topics h' = Host.topics h
             /\ Host.close h' = Host.close h
             /\ tasks w' = tasks w ++ [mkTask t sub cb AtSelect]
       end.
Proof.
  intros Ht create. unfold AddBroadcastPubSub. rewrite Ht.
  unfold bind. rewrite call_eq. fold create.
  change (err_of create) with (@res_err PubSub).
  destruct (answer w create) as [pub|err] eqn:Hpub.
  - rewrite call_eq.
    change (err_of (pub_Subscribe pub t)) with (@res_err Subscription).
    destruct (answer _ (pub_Subscribe pub t)) as [sub|err] eqn:Hsub.
    + do 3 eexists. split; [reflexivity|]. split; [reflexivity|].
      exists pub, sub. simpl. rewrite <- app_assoc. rewrite new_events_app.
      do 4 (split; [reflexivity|]). split; [|repeat split; reflexivity].
      unfold frame. simpl. do 7 (split; [auto|]).
      intros t' Ht'. destruct (decide (t = t')) as [->|Hne].
      * rewrite lookup_insert_eq. eauto.
      * rewrite lookup_insert_ne by assumption. exact Ht'.
    + do 3 eexists. split; [reflexivity|]. split; [reflexivity|].
      simpl. rewrite <- app_assoc. rewrite new_events_app.
      repeat split. right. exists pub. reflexivity.
  - do 3 eexists. split; [reflexivity|]. split; [reflexivity|].
    simpl. rewrite new_events_app. repeat split. left. reflexivity.
Qed.

End Handler.

Lemma unicast_handler_is_first_callback_witness :
  let s1 := run [ACall (OpAddUnicastPubSub "blocks" Scenario.cb_reject)]
              (step (ACall (OpAddUnicastPubSub "blocks" Reference.cb_ok))
                 (Reference.sys0 Reference.env_ok)) in
  installedHandler (log (sys_world s1)) "blocks" = Some Reference.cb_ok
  /\ sys_host (step (AStream "blocks" 9%nat) s1) = sys_host s1.
Proof.
  intros s1.
  destruct (@unicast_handler_is_first_callback Reference.lib
              [ACall (OpAddUnicastPubSub "blocks" Scenario.cb_reject)]
              (Reference.sys0 Reference.env_ok) "blocks" Reference.cb_ok)
    as (Hcb & Hstream).
  - reflexivity.
  - reflexivity.
  - vm_compute. reflexivity.
  - split; [exact Hcb|]. destruct (Hstream 9%nat) as (_ & Hhost & _). exact Hhost.
Defined.

Lemma Broadcast_uses_registered_publisher_witness :
  let s' := run [ACall (OpAddBroadcastPubSub "tx" Reference.cb_ok); ATask 0%nat]
              (mkSys Reference.host1 (Reference.world Reference.env_ok) false) in
  exists e,
    (Broadcast (sys_host s') "blocks" [x01] (sys_world s')).1 = Ret e
    /\ new_events (sys_world s')
         (Broadcast (sys_host s') "blocks" [x01] (sys_world s')).2
       = [ECall (pub_Publish 3%nat "blocks" [x01]) e].
Proof.
  intros s'.
  apply (@Broadcast_uses_registered_publisher Reference.lib
           [ACall (OpAddBroadcastPubSub "tx" Reference.cb_ok); ATask 0%nat]
           (mkSys Reference.host1 (Reference.world Reference.env_ok) false)
           "blocks" 3%nat [x01]).
  - vm_compute. reflexivity.
  - vm_compute. reflexivity.
Defined.

Lemma AddBroadcastPubSub_all_or_nothing_witness :
  let w := Reference.world
             (Reference.failing Scenario.is_Subscribe "no subscription"
                Reference.env_ok) in
  (AddBroadcastPubSub Reference.host0 "blocks" Reference.cb_ok w).1
  = Ret (Reference.host0, Some "no subscription")
  /\ exists h' e w',
       AddBroadcastPubSub Reference.host0 "blocks" Reference.cb_ok w
       = (Ret (h', e), w')
       /\ env w' = env w.
Proof.
  intros w. split; [vm_compute; reflexivity|].
  destruct (@AddBroadcastPubSub_all_or_nothing Reference.lib Reference.host0
              "blocks" Reference.cb_ok w) as (h' & e & w' & Hrun & Henv & _).
  - reflexivity.
  - exists h', e, w'. split; assumption.
Defined.


(** ** Panics of NewHost *)

Section NewHostPanics.
Context `{L : Lib}.






End NewHostPanics.



(** ** The identity of a host *)

(** X19.  What a host reports about itself never changes: whatever the
    application calls and however tasks and stream handlers are
    interleaved, [Identity], [IdentityHash] and [Address] return what they
    returned at the start.  When [MultiAddress] returns, its result is the
    first address the libp2p host reports at that moment, encapsulating
    "/ipfs/<Identity>". *)
Theorem identity_is_fixed `{L : Lib} sched s :
  let h := sys_host (run sched s) in
  Identity h = Identity (sys_host s)
  /\ IdentityHash h = IdentityHash (sys_host s)
  /\ Address h = Address (sys_host s)
  /\ forall w str,
       (MultiAddress h w).1 = Ret str ->
       exists addr rest hostAddr,
         answer w (host_Addrs (Host.host (sys_host s))) = addr :: rest
         /\ lib_NewMultiaddr (Sprintf_ipfs (Identity (sys_host s))) = Ok hostAddr
         /\ str = Multiaddr_String (Encapsulate addr hostAddr).
Proof.
  intros h. destruct (run_frame sched s) as (Hhost & Hcfg & _ & _ & Hkey & _).
  fold h in Hhost, Hcfg, Hkey.
  assert (Hid : Identity h = Identity (sys_host s)).
  { unfold Identity. now rewrite Hhost. }
  split; [exact Hid|]. split; [unfold IdentityHash; now rewrite Hkey|].
  split; [unfold Address; now rewrite Hcfg|].
  intros w str Hstr. pose proof (MultiAddress_outcome h w) as Ho.
  rewrite Hhost, Hid in Ho.
  destruct (answer w (host_Addrs (Host.host (sys_host s)))) as [|addr rest];
    [congruence|].
  destruct (lib_NewMultiaddr (Sprintf_ipfs (Identity (sys_host s)))) as [hostAddr|e];
    [|congruence].
  exists addr, rest, hostAddr. repeat split. congruence.
Qed.

Lemma identity_is_fixed_witness :
  let w := Reference.world Reference.env_ok in
  (MultiAddress Reference.host0 w).1 = Ret "/ip4/127.0.0.1/tcp/30001/ipfs/Qm1"
  /\ exists addr rest hostAddr,
       answer w (host_Addrs (Host.host Reference.host0)) = addr :: rest
       /\ lib_NewMultiaddr (Sprintf_ipfs (Identity Reference.host0)) = Ok hostAddr
       /\ "/ip4/127.0.0.1/tcp/30001/ipfs/Qm1"
          = Multiaddr_String (Encapsulate addr hostAddr).
Proof.
  intros w.
  assert (H : (MultiAddress Reference.host0 w).1
              = Ret "/ip4/127.0.0.1/tcp/30001/ipfs/Qm1") by (vm_compute; reflexivity).
  split; [exact H|].
  destruct (@identity_is_fixed Reference.lib [] (Reference.sys0 Reference.env_ok))
    as (_ & _ & _ & Hm).
  apply (Hm w _ H).
Defined.
